(** * goluna: a shallow embedding of the Luna interpreter

    The development follows the layout of the Go sources:
    - [tokenizer.go]   : the lexer ([Tokenize] and its readers);
    - [ast.go]         : the node variants ([Statement]);
    - [parser.go]      : the recursive-descent parser ([ProduceAST]);
    - [values.go]      : the runtime values ([RuntimeValue]);
    - [environment.go] : the chained scopes ([DeclareVar], [AssignVar], ...);
    - [interpreter.go] : the tree-walking evaluator ([Evaluate]);
    - [luna.go]        : the pipeline ([Luna_Evaluate]).

    Go strings are byte strings: they are modelled by [string] (one [ascii]
    per byte).  A Go [rune] is a code point, modelled by [Z].  float64 is the
    kernel's binary64 type [float].  Pointers to mutable objects
    (environments, arrays, objects) are locations in an explicit store. *)

From Stdlib Require Import PrimFloat FloatOps SpecFloat FloatAxioms Uint63.
From Stdlib Require Import ZArith String Ascii DecimalString Lia.
From stdpp Require Import gmap strings list.

Local Open Scope string_scope.
Local Open Scope list_scope.
Local Open Scope Z_scope.
Local Open Scope stdpp_scope.

(* ===================================================================== *)
(** * Go runtime and library functions used by the sources               *)
(* ===================================================================== *)

Definition rune := Z.

Definition byte_of (a : ascii) : Z := Z.of_N (N_of_ascii a).
Definition ascii_of (z : Z) : ascii := ascii_of_N (Z.to_N z).

(** The rune of an ASCII character literal, e.g. ['\n'] is [rn "010"]. *)
Definition rn (a : ascii) : rune := byte_of a.

(** The double quote character. *)
Definition dquote : ascii := "034".

Definition bytes_of_string (s : string) : list Z := byte_of <$> list_ascii_of_string s.

(** [utf8.RuneError], U+FFFD. *)
Definition RuneError : rune := 65533.

Definition cont (b : Z) : bool := (128 <=? b) && (b <=? 191).

(** [[]rune(s)]: UTF-8 decoding; every byte that does not start a
    well-formed sequence decodes to [RuneError] and is skipped alone. *)
Fixpoint utf8_decode (bs : list Z) : list rune :=
  match bs with
  | [] => []
  | b0 :: r0 =>
    if b0 <? 128 then b0 :: utf8_decode r0
    else
      let invalid := RuneError :: utf8_decode r0 in
      match r0 with
      | [] => invalid
      | b1 :: r1 =>
        if (194 <=? b0) && (b0 <=? 223) then
          if cont b1 then ((b0 - 192) * 64 + (b1 - 128)) :: utf8_decode r1
          else invalid
        else
          match r1 with
          | [] => invalid
          | b2 :: r2 =>
            if (224 <=? b0) && (b0 <=? 239) then
              let lo := if b0 =? 224 then 160 else 128 in
              let hi := if b0 =? 237 then 159 else 191 in
              if (lo <=? b1) && (b1 <=? hi) && cont b2
              then ((b0 - 224) * 4096 + (b1 - 128) * 64 + (b2 - 128)) :: utf8_decode r2
              else invalid
            else
              match r2 with
              | [] => invalid
              | b3 :: r3 =>
                if (240 <=? b0) && (b0 <=? 244) then
                  let lo := if b0 =? 240 then 144 else 128 in
                  let hi := if b0 =? 244 then 143 else 191 in
                  if (lo <=? b1) && (b1 <=? hi) && cont b2 && cont b3
                  then ((b0 - 240) * 262144 + (b1 - 128) * 4096
                        + (b2 - 128) * 64 + (b3 - 128)) :: utf8_decode r3
                  else invalid
                else invalid
              end
          end
      end
  end.

Definition runes_of_string (s : string) : list rune := utf8_decode (bytes_of_string s).

Definition string_of_bytes (bs : list Z) : string :=
  string_of_list_ascii (ascii_of <$> bs).

(** [string(r)] and [strings.Builder.WriteRune]: UTF-8 encoding; surrogates
    and out-of-range runes are written as [RuneError]. *)
Definition utf8_encode (r : rune) : string :=
  if (0 <=? r) && (r <? 128) then string_of_bytes [r]
  else if (128 <=? r) && (r <? 2048) then
    string_of_bytes [192 + r / 64; 128 + r mod 64]
  else if (r <? 0) || (1114111 <? r) || ((55296 <=? r) && (r <=? 57343)) then
    string_of_bytes [239; 191; 189]
  else if r <? 65536 then
    string_of_bytes [224 + r / 4096; 128 + (r / 64) mod 64; 128 + r mod 64]
  else
    string_of_bytes [240 + r / 262144; 128 + (r / 4096) mod 64;
                     128 + (r / 64) mod 64; 128 + r mod 64].

(** [%d] and [strconv.Itoa]. *)
Definition Itoa (z : Z) : string := NilZero.string_of_int (Z.to_int z).

Fixpoint strings_Repeat (s : string) (count : nat) : string :=
  match count with
  | O => ""
  | S n => s +:+ strings_Repeat s n
  end.

Fixpoint strings_Contains (s substr : string) : bool :=
  String.prefix substr s ||
  match s with
  | EmptyString => false
  | String _ s' => strings_Contains s' substr
  end.

(** [strings.ReplaceAll s old new] for a non-empty [old]: the non-overlapping
    occurrences are replaced from left to right.  [skip] counts the bytes of
    an occurrence that are still to be dropped. *)
Fixpoint replace_from (skip : nat) (s old new : string) : string :=
  match s with
  | EmptyString => ""
  | String c s' =>
    match skip with
    | S k => replace_from k s' old new
    | O =>
      if String.prefix old s
      then new +:+ replace_from (String.length old - 1) s' old new
      else String c (replace_from O s' old new)
    end
  end.

Definition strings_ReplaceAll (s old new : string) : string := replace_from O s old new.

(** [strings.Split s sep] for a one-byte separator. *)
Fixpoint split_byte (sep : ascii) (s : string) (cur : string) : list string :=
  match s with
  | EmptyString => [cur]
  | String c s' =>
    if Ascii.eqb c sep then cur :: split_byte sep s' ""
    else split_byte sep s' (cur +:+ String c "")
  end.

Fixpoint strings_Join (elems : list string) (sep : string) : string :=
  match elems with
  | [] => ""
  | [e] => e
  | e :: rest => e +:+ sep +:+ strings_Join rest sep
  end.

(** The code-point tables of package [unicode] above Latin-1 are data of
    the Go distribution; they are taken as parameters.  On Latin-1 the
    three predicates are the ones Go hard-codes. *)
Class UnicodeTables := {
  wide_IsSpace : rune -> bool;
  wide_IsDigit : rune -> bool;
  wide_IsLetter : rune -> bool
}.

Section Unicode.
Context `{UnicodeTables}.

Definition unicode_IsSpace (r : rune) : bool :=
  if (0 <=? r) && (r <=? 255) then
    ((9 <=? r) && (r <=? 13)) || (r =? 32) || (r =? 133) || (r =? 160)
  else wide_IsSpace r.

Definition unicode_IsDigit (r : rune) : bool :=
  if r <=? 255 then (48 <=? r) && (r <=? 57)
  else wide_IsDigit r.

Definition unicode_IsLetter (r : rune) : bool :=
  if (0 <=? r) && (r <=? 255) then
    ((65 <=? r) && (r <=? 90)) || ((97 <=? r) && (r <=? 122))
    || (r =? 170) || (r =? 181) || (r =? 186)
    || ((192 <=? r) && (r <=? 214)) || ((216 <=? r) && (r <=? 246))
    || (248 <=? r)
  else wide_IsLetter r.
End Unicode.

(* ===================================================================== *)
(** * tokenizer.go                                                        *)
(* ===================================================================== *)

Inductive TokenType :=
  (* Literals *)
  | IDENTIFIER | STRING | INT | FLOAT | BOOLEAN | UNDEFINED
  (* Keywords *)
  | FN | LAMBDA | IF | ELSE | RETURN | TYPEOF | FOR | WHILE | DEBUG | USE | OUT
  (* Operators *)
  | BINARY_OPERATOR | EQUALS | PLUS_EQ | MINUS_EQ | EQUALITY_OP | INEQUALITY_OP
  | SMALLER_THAN | GREATER_THAN | SMALLER_OR_EQUAL | GREATER_OR_EQUAL
  | AND | OR | NEGATION_OP | INCREMENT | DECREMENT
  (* Punctuation *)
  | COMMA | DOT | COLON | SEMICOLON | OPEN_PAREN | CLOSE_PAREN
  | OPEN_BRACE | CLOSE_BRACE | OPEN_BRACKET | CLOSE_BRACKET | TERNARY
  (* Special *)
  | NEWLINE | EOF.

#[global] Instance TokenType_eq_dec : EqDecision TokenType.
Proof. solve_decision. Defined.

Definition is_tt (a b : TokenType) : bool := bool_decide (a = b).

Definition keywords : gmap string TokenType :=
  list_to_map
    [("fn", FN); ("lambda", LAMBDA); ("if", IF); ("else", ELSE);
     ("return", RETURN); ("typeof", TYPEOF); ("for", FOR); ("while", WHILE);
     ("debug", DEBUG); ("use", USE); ("out", OUT); ("true", BOOLEAN);
     ("false", BOOLEAN); ("undef", UNDEFINED)].

Record Position := mkPosition { Line : nat; Column : nat; Index : nat }.

Record Token := mkToken {
  Token_Type : TokenType;
  Token_Value : string;
  Token_Position : Position
}.

Record Tokenizer := mkTokenizer {
  input : list rune;
  position : nat;
  line : nat;
  index : nat
}.

(** A Go result pair [(value, error)]: a value, or an error message. *)
Inductive goerror (A : Type) :=
  | NoErr (a : A)
  | Err (msg : string).
Arguments NoErr {A} a.
Arguments Err {A} msg.

Definition NewTokenizer (code : string) : Tokenizer :=
  mkTokenizer (runes_of_string code) 0 0 0.

Definition current (t : Tokenizer) : rune :=
  if (position t <? length (input t))%nat then nth (position t) (input t) 0 else 0.

Definition peek (t : Tokenizer) : rune :=
  if (position t + 1 <? length (input t))%nat
  then nth (position t + 1) (input t) 0 else 0.

Definition advance (t : Tokenizer) : Tokenizer :=
  if (position t <? length (input t))%nat
  then mkTokenizer (input t) (S (position t)) (line t) (S (index t))
  else t.

Definition here (t : Tokenizer) : Position :=
  mkPosition (line t) (index t) (position t).

(** The loops of the readers are bounded by a fuel; [None] is the result of
    a loop that has not finished when the fuel is used up.  [Tokenize]
    supplies more fuel than the input has runes, which always suffices
    (lemma [Tokenize_total]). *)
Fixpoint readString_loop (fuel : nat) (quote : rune) (t : Tokenizer)
    (result : string) (escaped : bool) : option (goerror string * Tokenizer) :=
  if (position t <? length (input t))%nat then
    match fuel with
    | O => None
    | S fuel' =>
      let char := current t in
      if escaped then
        let written :=
          if char =? rn "n" then String "010" ""
          else if char =? rn "t" then String "009" ""
          else if char =? rn "r" then String "013" ""
          else if char =? rn "\" then "\"
          else if char =? rn dquote then String dquote ""
          else if char =? rn "'" then "'"
          else utf8_encode char in
        readString_loop fuel' quote (advance t) (result +:+ written) false
      else if char =? rn "\" then
        readString_loop fuel' quote (advance t) result true
      else if char =? quote then
        Some (NoErr result, advance t)
      else
        readString_loop fuel' quote (advance t) (result +:+ utf8_encode char) false
    end
  else Some (Err "unterminated string", t).

Definition readString (fuel : nat) (quote : rune) (t : Tokenizer)
    : option (goerror string * Tokenizer) :=
  readString_loop fuel quote (advance t) "" false.

Section Lexer.
Context `{UnicodeTables}.

Fixpoint readNumber_loop (fuel : nat) (t : Tokenizer) (result : string)
    (isFloat : bool) : option (string * bool * Tokenizer) :=
  if (position t <? length (input t))%nat
     && (unicode_IsDigit (current t) || (current t =? rn "."))
  then
    match fuel with
    | O => None
    | S fuel' =>
      if (current t =? rn ".") && isFloat then Some (result, isFloat, t)
      else
        readNumber_loop fuel' (advance t) (result +:+ utf8_encode (current t))
          (isFloat || (current t =? rn "."))
    end
  else Some (result, isFloat, t).

Definition readNumber (fuel : nat) (t : Tokenizer) :=
  readNumber_loop fuel t "" false.

Fixpoint readIdentifier_loop (fuel : nat) (t : Tokenizer) (result : string)
    : option (string * Tokenizer) :=
  if (position t <? length (input t))%nat
     && (unicode_IsLetter (current t) || unicode_IsDigit (current t)
         || (current t =? rn "_"))
  then
    match fuel with
    | O => None
    | S fuel' =>
      readIdentifier_loop fuel' (advance t) (result +:+ utf8_encode (current t))
    end
  else Some (result, t).

Definition readIdentifier (fuel : nat) (t : Tokenizer) :=
  readIdentifier_loop fuel t "".
End Lexer.

Definition isOperator (char : rune) : bool :=
  existsb (fun c => char =? rn c) (list_ascii_of_string "+-*/%=<>!&|^").

Definition two_char_operators : list string :=
  ["=="; "!="; "<="; ">="; "&&"; "||"; "++"; "--"; "+="; "-="; "*="; "/="; "**"].

Fixpoint readOperator_loop (fuel : nat) (t : Tokenizer) (result : string)
    : option (string * Tokenizer) :=
  if (position t <? length (input t))%nat && isOperator (current t) then
    match fuel with
    | O => None
    | S fuel' =>
      let op := result +:+ utf8_encode (current t) in
      let t' := advance t in
      if (2 <=? String.length op)%nat && existsb (String.eqb op) two_char_operators
      then Some (op, t')
      else readOperator_loop fuel' t' op
    end
  else Some (result, t).

Definition readOperator (fuel : nat) (t : Tokenizer) := readOperator_loop fuel t "".

Definition getOperatorType (op : string) : TokenType :=
  if String.eqb op "=" then EQUALS
  else if String.eqb op "==" then EQUALITY_OP
  else if String.eqb op "!=" then INEQUALITY_OP
  else if String.eqb op "<" then SMALLER_THAN
  else if String.eqb op ">" then GREATER_THAN
  else if String.eqb op "<=" then SMALLER_OR_EQUAL
  else if String.eqb op ">=" then GREATER_OR_EQUAL
  else if String.eqb op "&&" then AND
  else if String.eqb op "||" then OR
  else if String.eqb op "!" then NEGATION_OP
  else if String.eqb op "++" then INCREMENT
  else if String.eqb op "--" then DECREMENT
  else if String.eqb op "+=" then PLUS_EQ
  else if String.eqb op "-=" then MINUS_EQ
  else BINARY_OPERATOR.

Section Tokenize.
Context `{UnicodeTables}.

Definition single (t : Tokenizer) (tokens : list Token) (ty : TokenType)
    : list Token * Tokenizer :=
  (tokens ++ [mkToken ty (utf8_encode (current t)) (here t)], advance t).

(** The [# ...] comment loop. *)
Fixpoint skipComment (fuel : nat) (t : Tokenizer) : option Tokenizer :=
  if (position t <? length (input t))%nat && negb (current t =? rn "010") then
    match fuel with
    | O => None
    | S fuel' => skipComment fuel' (advance t)
    end
  else Some t.

(** One iteration of the loop of [Tokenize]: the [switch] on the current
    rune.  [fuel] bounds the inner reader loops. *)
Definition Tokenize_step (fuel : nat) (t : Tokenizer) (tokens : list Token)
    : option (goerror (list Token) * Tokenizer) :=
  let char := current t in
  let one ty := let '(tk, t') := single t tokens ty in Some (NoErr tk, t') in
  if char =? rn "010" then
    Some (NoErr (tokens ++ [mkToken NEWLINE (utf8_encode char) (here t)]),
          advance (mkTokenizer (input t) (position t) (S (line t)) 0))
  else if unicode_IsSpace char then Some (NoErr tokens, advance t)
  else if char =? rn "#" then
    t' ← skipComment fuel t; Some (NoErr tokens, t')
  else if (char =? rn dquote) || (char =? rn "'") then
    let startPos := here t in
    '(r, t') ← readString fuel char t;
    match r with
    | Err msg => Some (Err msg, t')
    | NoErr str => Some (NoErr (tokens ++ [mkToken STRING str startPos]), t')
    end
  else if unicode_IsDigit char then
    let startPos := here t in
    '(num, isFloat, t') ← readNumber fuel t;
    let tokenType := if isFloat : bool then FLOAT else INT in
    Some (NoErr (tokens ++ [mkToken tokenType num startPos]), t')
  else if unicode_IsLetter char || (char =? rn "_") then
    let startPos := here t in
    '(identifier, t') ← readIdentifier fuel t;
    let tokenType := default IDENTIFIER (keywords !! identifier) in
    Some (NoErr (tokens ++ [mkToken tokenType identifier startPos]), t')
  else if char =? rn "(" then one OPEN_PAREN
  else if char =? rn ")" then one CLOSE_PAREN
  else if char =? rn "{" then one OPEN_BRACE
  else if char =? rn "}" then one CLOSE_BRACE
  else if char =? rn "[" then one OPEN_BRACKET
  else if char =? rn "]" then one CLOSE_BRACKET
  else if char =? rn "," then one COMMA
  else if char =? rn "." then one DOT
  else if char =? rn ":" then one COLON
  else if char =? rn ";" then one SEMICOLON
  else if char =? rn "?" then one TERNARY
  else if isOperator char then
    let startPos := here t in
    '(op, t') ← readOperator fuel t;
    Some (NoErr (tokens ++ [mkToken (getOperatorType op) op startPos]), t')
  else
    Some (Err ("unexpected character: " +:+ utf8_encode char +:+ " at line "
                  +:+ Itoa (Z.of_nat (line t)) +:+ ", column "
                  +:+ Itoa (Z.of_nat (index t))), t).

Fixpoint Tokenize_loop (fuel : nat) (t : Tokenizer) (tokens : list Token)
    : option (goerror (list Token)) :=
  if (position t <? length (input t))%nat then
    match fuel with
    | O => None
    | S fuel' =>
      '(r, t') ← Tokenize_step (length (input t)) t tokens;
      match r with
      | Err msg => Some (Err msg)
      | NoErr tokens' => Tokenize_loop fuel' t' tokens'
      end
    end
  else Some (NoErr (tokens ++ [mkToken EOF "" (here t)])).

Definition Tokenize (t : Tokenizer) : option (goerror (list Token)) :=
  Tokenize_loop (length (input t)) t [].

(** [Luna.Tokenize] of luna.go. *)
Definition Luna_Tokenize (code : string) : option (goerror (list Token)) :=
  Tokenize (NewTokenizer code).
End Tokenize.

(* ===================================================================== *)
(** * ast.go                                                              *)
(* ===================================================================== *)

Definition NodeType := string.

Record Parameter_ (E : Type) := mkParameter {
  Param_Name : string;
  Param_DefaultValue : option E
}.
Arguments mkParameter {E} _ _.
Arguments Param_Name {E} _.
Arguments Param_DefaultValue {E} _.

Record Property_ (E : Type) := mkProperty {
  Prop_Key : string;
  Prop_Value : E
}.
Arguments mkProperty {E} _ _.
Arguments Prop_Key {E} _.
Arguments Prop_Value {E} _.

Record ActionExpr_ (E : Type) := mkActionExpr {
  Action_Name : string;
  Action_Args : list E
}.
Arguments mkActionExpr {E} _ _.
Arguments Action_Name {E} _.
Arguments Action_Args {E} _.

#[local] Set Warnings "-register-all".

(** [Statement] and [Expression] are one interface in Go ([Expression]
    embeds [Statement]); one inductive type holds every node variant. *)
Inductive Statement :=
  | Program (Body : list Statement)
  | Identifier (Value : string)
  | NumericLiteral (Value : float)
  | StringLiteral (Value : string)
  | BooleanLiteral (Value : bool)
  | UndefinedLiteral
  | NullLiteral
  | ArrayLiteral (Elements : list Statement)
  | ObjectLiteral (Properties : list (Property_ Statement))
  | BinaryExpr (Left Right : Statement) (Operator : string)
  | UnaryExpr (Value : Statement) (Operator : string)
  | AssignmentExpr (Assigne Value : Statement)
  | ActionAssignmentExpr (Assigne Value : Statement) (Action : ActionExpr_ Statement)
  | CallExpr (Caller : Statement) (Args : list Statement)
  | MemberExpr (Object Property : Statement) (Computed : bool)
  | TernaryExpr (Condition Consequent Alternate : Statement)
  | TypeofExpr (Value : Statement)
  | EqualityExpr (Left Right : Statement) (Operator : string)
  | InequalityExpr (Left Right : Statement) (Operator : string)
  | LogicalExpr (Left Right : Statement) (Operator : string)
  | FunctionDeclaration (Name : string) (Parameters : list (Parameter_ Statement))
      (Body : list Statement) (Export : bool)
  | IfStatement (Test : Statement) (Consequent Alternate : list Statement)
  | WhileStatement (Test : Statement) (Consequent : list Statement)
  | ForStatement (Declaration Test Increaser : Statement) (Body : list Statement)
  | ReturnExpr (Value : Statement)
  | DebugStatement (Props : list Statement)
  | UseStatement (Path : string).

Definition Expression := Statement.
(** [Parameter] and [Property] are reserved words here. *)
Definition Param := Parameter_ Statement.
Definition ObjProperty := Property_ Statement.
Definition ActionExpr := ActionExpr_ Statement.

Definition Kind (node : Statement) : NodeType :=
  match node with
  | Program _ => "Program"
  | Identifier _ => "Identifier"
  | NumericLiteral _ => "NumericLiteral"
  | StringLiteral _ => "StringLiteral"
  | BooleanLiteral _ => "BooleanLiteral"
  | UndefinedLiteral => "UndefinedLiteral"
  | NullLiteral => "NullLiteral"
  | ArrayLiteral _ => "ArrayLiteral"
  | ObjectLiteral _ => "ObjectLiteral"
  | BinaryExpr _ _ _ => "BinaryExpr"
  | UnaryExpr _ _ => "UnaryExpr"
  | AssignmentExpr _ _ => "AssignmentExpr"
  | ActionAssignmentExpr _ _ _ => "ActionAssignmentExpr"
  | CallExpr _ _ => "CallExpr"
  | MemberExpr _ _ _ => "MemberExpr"
  | TernaryExpr _ _ _ => "TernaryExpr"
  | TypeofExpr _ => "TypeofExpr"
  | EqualityExpr _ _ _ => "EqualityExpr"
  | InequalityExpr _ _ _ => "InequalityExpr"
  | LogicalExpr _ _ _ => "LogicalExpr"
  | FunctionDeclaration _ _ _ _ => "FunctionDeclaration"
  | IfStatement _ _ _ => "IfStatement"
  | WhileStatement _ _ => "WhileStatement"
  | ForStatement _ _ _ _ => "ForStatement"
  | ReturnExpr _ => "ReturnExpr"
  | DebugStatement _ => "DebugStatement"
  | UseStatement _ => "UseStatement"
  end.

(** The [%T] rendering of a node: every node is a pointer to its struct. *)
Definition go_type_name (node : Statement) : string := "*main." +:+ Kind node.

(* ===================================================================== *)
(** * strconv and float64 conversions                                     *)
(* ===================================================================== *)

(** Conversions of the Go distribution that are not computed here are
    parameters: [strconv.ParseFloat] outside the exact decimal range,
    the shortest-digits printer ['g'] of [strconv.FormatFloat] and of
    [fmt.Sprint], the float-to-integer conversion of values that do not
    fit (which Go leaves to the platform), [math.Mod] and [math.Pow]. *)
Class FloatLib := {
  ParseFloat_slow : string -> goerror float;
  FormatFloat_g : float -> string;
  fmt_Sprint_float64 : float -> string;
  int64_out_of_range : float -> Z;
  math_Mod : float -> float -> float;
  math_Pow : float -> float -> float
}.

Definition digit_of (c : ascii) : option Z :=
  let b := byte_of c in
  if (48 <=? b) && (b <=? 57) then Some (b - 48) else None.

(** Reads [digits] or [digits.digits]: the digits as one integer, and the
    number of digits after the point. *)
Fixpoint decimal_literal (s : string) (acc : Z) (seen : bool) (frac : option nat)
    : option (Z * nat) :=
  match s with
  | EmptyString => if seen then Some (acc, default O frac) else None
  | String c s' =>
    match digit_of c with
    | Some d => decimal_literal s' (10 * acc + d) true (S <$> frac)
    | None =>
      if Ascii.eqb c "." then
        match frac with
        | None => decimal_literal s' acc seen (Some O)
        | Some _ => None
        end
      else None
    end
  end.

Definition float_of_small_Z (n : Z) : float := of_uint63 (Uint63.of_Z n).

Section Strconv.
Context `{FloatLib}.

(** [strconv.ParseFloat(s, 64)].  When the digits fit 53 bits and at most
    18 of them follow the point, the integer and the power of ten are both
    floats (and fit the 63-bit integers they are converted from), so their
    IEEE quotient is the float nearest to the decimal, which is what Go
    returns. *)
Definition strconv_ParseFloat (s : string) : goerror float :=
  match decimal_literal s 0 false None with
  | Some (n, k) =>
    if (n <? 2 ^ 53) && (k <=? 18)%nat
    then NoErr (float_of_small_Z n / float_of_small_Z (10 ^ Z.of_nat k))%float
    else ParseFloat_slow s
  | None => ParseFloat_slow s
  end.

(** [int64(f)] and [int(f)]: truncation toward zero. *)
Definition int64_of_float (f : float) : Z :=
  match Prim2SF f with
  | S754_zero _ => 0
  | S754_finite s m e =>
    let mag := if 0 <=? e then Z.shiftl (Zpos m) e else Z.shiftr (Zpos m) (- e) in
    let v := if s then - mag else mag in
    if (- 2 ^ 63 <=? v) && (v <? 2 ^ 63) then v else int64_out_of_range f
  | _ => int64_out_of_range f
  end.

(** [float64(i)] for an int64 [i]. *)
Definition float_of_int64 (i : Z) : float :=
  if i =? - 2 ^ 63 then (- 9223372036854775808)%float
  else if i <? 0 then (- of_uint63 (Uint63.of_Z (- i)))%float
  else of_uint63 (Uint63.of_Z i).
End Strconv.

(** [strconv.Atoi]: an optional sign and decimal digits within int64. *)
Fixpoint atoi_digits (s : string) (acc : Z) : option Z :=
  match s with
  | EmptyString => Some acc
  | String c s' =>
    match digit_of c with
    | Some d => atoi_digits s' (10 * acc + d)
    | None => None
    end
  end.

Definition strconv_Atoi (s : string) : option Z :=
  let '(neg, body) :=
    match s with
    | String "-" r => (true, r)
    | String "+" r => (false, r)
    | _ => (false, s)
    end in
  match body with
  | EmptyString => None
  | _ =>
    n ← atoi_digits body 0;
    let v := if neg : bool then - n else n in
    if (- 2 ^ 63 <=? v) && (v <? 2 ^ 63) then Some v else None
  end.

(* ===================================================================== *)
(** * parser.go                                                           *)
(* ===================================================================== *)

Record Parser := mkParser {
  Parser_tokens : list Token;
  Parser_position : nat;
  Parser_code : string
}.

Definition NewParser (tokens : list Token) (code : string) : Parser :=
  mkParser tokens 0 code.

(** The result of a parsing method: a value and the parser after it, an
    error, or [PFuel] when the recursion bound of the model is reached. *)
Inductive pres (A : Type) :=
  | POk (a : A) (p : Parser)
  | PErr (msg : string)
  | PFuel.
Arguments POk {A} a p.
Arguments PErr {A} msg.
Arguments PFuel {A}.

Definition PM (A : Type) : Type := Parser -> pres A.

#[global] Instance PM_ret : MRet PM := fun A a p => POk a p.
#[global] Instance PM_bind : MBind PM := fun A B k m p =>
  match m p with
  | POk a p' => k a p'
  | PErr msg => PErr msg
  | PFuel => PFuel
  end.

Definition perr {A} (msg : string) : PM A := fun _ => PErr msg.
Definition pfuel {A} : PM A := fun _ => PFuel.

(** A statement that is not [nil]. *)
Definition notNil (m : PM Statement) : PM (option Statement) := fun p =>
  match m p with
  | POk a p' => POk (Some a) p'
  | PErr msg => PErr msg
  | PFuel => PFuel
  end.

Definition at_ (p : Parser) : Token :=
  default (mkToken EOF "" (mkPosition 0 0 0)) (Parser_tokens p !! Parser_position p).

Definition eat : PM Token := fun p =>
  POk (at_ p) (mkParser (Parser_tokens p) (S (Parser_position p)) (Parser_code p)).

(** [p.at().Type] and [p.at().Value]. *)
Definition atType : PM TokenType := fun p => POk (Token_Type (at_ p)) p.
Definition atValue : PM string := fun p => POk (Token_Value (at_ p)) p.

Definition isEOF (p : Parser) : bool := is_tt (Token_Type (at_ p)) EOF.

Definition formatError (p : Parser) (message : string) (token : Token) : string :=
  let lines := split_byte "010" (Parser_code p) "" in
  let pos := Token_Position token in
  let where_ := message +:+ " at line " +:+ Itoa (Z.of_nat (Line pos) + 1)
                +:+ ", column " +:+ Itoa (Z.of_nat (Column pos) + 1) in
  match lines !! Line pos with
  | Some line_ =>
    let pointer :=
      if (String.length (Token_Value token) =? 0)%nat
      then strings_Repeat " " (Column pos) +:+ "^"
      else strings_Repeat " " (Column pos)
           +:+ strings_Repeat "^" (String.length (Token_Value token)) in
    where_ +:+ ":" +:+ String "010" "" +:+ line_ +:+ String "010" "" +:+ pointer
  | None => where_
  end.

(** [return nil, p.formatError(message, p.at())]. *)
Definition errAt {A} (message : string) : PM A := fun p =>
  PErr (formatError p message (at_ p)).

(** The bound of a loop that consumes a token per iteration. *)
Definition loopBound (p : Parser) : nat := S (length (Parser_tokens p)).
Definition withBound {A} (f : nat -> PM A) : PM A := fun p => f (loopBound p) p.

(** The methods that are entered again from deeper in the cascade. *)
Record Rec := mkRec {
  rec_parseStatement : PM (option Statement);
  rec_parseExpression : PM Statement;
  rec_parseTernaryExpression : PM Statement;
  rec_parseUnaryExpression : PM Statement
}.

Section ParserMethods.
Context `{FloatLib}.
Variable rec : Rec.

(** [for p.at().Type != CLOSE_BRACE && !p.isEOF() { stmt, err :=
    p.parseStatement(); ...; if stmt != nil { body = append(body, stmt) } }] *)
Fixpoint parseBlockBody (n : nat) (body : list Statement) : PM (list Statement) :=
  fun p =>
  if negb (is_tt (Token_Type (at_ p)) CLOSE_BRACE) && negb (isEOF p) then
    match n with
    | O => PFuel
    | S n' =>
      (stmt ← rec_parseStatement rec;
       parseBlockBody n' (match stmt with Some s => body ++ [s] | None => body end)) p
    end
  else POk body p.

(** [{ ... }] after the opening brace has been seen: consume it, parse
    the statements, require and consume the closing brace. *)
Definition parseBraceBlock (body : list Statement) (closing : PM unit)
    : PM (list Statement) :=
  _ ← eat;
  stmts ← (withBound (fun n => parseBlockBody n body));
  _ ← closing;
  _ ← eat;
  mret stmts.

Definition expectClose (ty : TokenType) (onError : PM unit) : PM unit :=
  t ← atType; if is_tt t ty then mret tt else onError.

Fixpoint parseParameterList_loop (n : nat) (parameters : list Param)
    : PM (list Param) := fun p =>
  if is_tt (Token_Type (at_ p)) IDENTIFIER then
    match n with
    | O => PFuel
    | S n' =>
      (tok ← eat;
       let paramName := Token_Value tok in
       t ← atType;
       defaultValue ←
         (if is_tt t EQUALS then
            _ ← eat;
            t1 ← atType;
            if negb (is_tt t1 OPEN_PAREN)
            then errAt "expected '(' after '=' in default parameter"
            else
              _ ← eat;
              defaultExpr ← rec_parseExpression rec;
              t2 ← atType;
              if negb (is_tt t2 CLOSE_PAREN)
              then errAt "expected ')' after default parameter value"
              else _ ← eat; mret (Some defaultExpr)
          else mret None);
       parseParameterList_loop n' (parameters ++ [mkParameter paramName defaultValue])) p
    end
  else POk parameters p.

Definition parseParameterList : PM (list Param) :=
  withBound (fun n => parseParameterList_loop n []).

(** The body of a function after its parameters: a block or [: expr]. *)
Definition parseFunctionBody : PM (list Statement) :=
  t ← atType;
  if negb (is_tt t OPEN_BRACE) && negb (is_tt t COLON)
  then errAt "expected '{' or ':' after function parameters"
  else if is_tt t OPEN_BRACE then
    parseBraceBlock []
      (expectClose CLOSE_BRACE (errAt "expected '}' after function body"))
  else
    _ ← eat;
    expr ← rec_parseTernaryExpression rec;
    mret [ReturnExpr expr].

Definition parseFunctionExpression : PM Statement :=
  t0 ← atType;
  let isLambda := is_tt t0 LAMBDA in
  _ ← eat;
  t ← atType;
  if is_tt t COLON then
    _ ← eat;
    t1 ← atType;
    if is_tt t1 COLON then
      _ ← eat;
      expr ← rec_parseExpression rec;
      mret (CallExpr (FunctionDeclaration "" [] [ReturnExpr expr] false) [])
    else
      parameters ← parseParameterList;
      t2 ← atType;
      if negb (is_tt t2 COLON)
      then errAt "expected ':' after function parameters in anonymous function"
      else
        _ ← eat;
        expr ← rec_parseTernaryExpression rec;
        mret (FunctionDeclaration "" parameters [ReturnExpr expr] false)
  else
    name ← (if negb isLambda && is_tt t IDENTIFIER
            then tok ← eat; mret (Token_Value tok) else mret "");
    parameters ← parseParameterList;
    body ← parseFunctionBody;
    mret (FunctionDeclaration name parameters body false).

(** [for { e := parseExpression(); append; if COMMA { eat } else
    { break } }] of calls, array literals and [debug]. *)
Fixpoint parseExpressionList (n : nat) (acc : list Statement) : PM (list Statement) :=
  match n with
  | O => pfuel
  | S n' =>
    expr ← rec_parseExpression rec;
    t ← atType;
    if is_tt t COMMA then _ ← eat; parseExpressionList n' (acc ++ [expr])
    else mret (acc ++ [expr])
  end.

Definition parseArrayLiteral : PM Statement :=
  _ ← eat;
  t ← atType;
  elements ← (if negb (is_tt t CLOSE_BRACKET)
              then withBound (fun n => parseExpressionList n [])
              else mret []);
  t' ← atType;
  if negb (is_tt t' CLOSE_BRACKET) then perr "expected ']' after array elements"
  else _ ← eat; mret (ArrayLiteral elements).

Fixpoint parseObjectLiteral_loop (n : nat) (properties : list ObjProperty)
    : PM (list ObjProperty) :=
  match n with
  | O => pfuel
  | S n' =>
    t ← atType;
    if negb (is_tt t IDENTIFIER) && negb (is_tt t STRING)
    then perr "expected property name"
    else
      tok ← eat;
      let key := Token_Value tok in
      t1 ← atType;
      properties' ←
        (if is_tt t1 COMMA || is_tt t1 CLOSE_BRACE
         then mret (properties ++ [mkProperty key (Identifier key)])
         else if negb (is_tt t1 COLON) then perr "expected ':' after property name"
         else
           _ ← eat;
           value ← rec_parseExpression rec;
           mret (properties ++ [mkProperty key value]));
      t2 ← atType;
      if is_tt t2 COMMA then _ ← eat; parseObjectLiteral_loop n' properties'
      else mret properties'
  end.

Definition parseObjectLiteral : PM Statement :=
  _ ← eat;
  t ← atType;
  properties ← (if negb (is_tt t CLOSE_BRACE)
                then withBound (fun n => parseObjectLiteral_loop n [])
                else mret []);
  t' ← atType;
  if negb (is_tt t' CLOSE_BRACE) then perr "expected '}' after object properties"
  else _ ← eat; mret (ObjectLiteral properties).

Definition parseNumber : PM Statement :=
  tok ← eat;
  match strconv_ParseFloat (Token_Value tok) with
  | NoErr value => mret (NumericLiteral value)
  | Err msg => perr msg
  end.

Definition parsePrimaryExpression : PM Statement :=
  fun p =>
  let token := at_ p in
  match Token_Type token with
  | IDENTIFIER => (tok ← eat; mret (Identifier (Token_Value tok))) p
  | INT => parseNumber p
  | FLOAT => parseNumber p
  | STRING => (tok ← eat; mret (StringLiteral (Token_Value tok))) p
  | BOOLEAN => (tok ← eat; mret (BooleanLiteral (String.eqb (Token_Value tok) "true"))) p
  | UNDEFINED => (_ ← eat; mret UndefinedLiteral) p
  | TYPEOF => (_ ← eat; value ← rec_parseUnaryExpression rec; mret (TypeofExpr value)) p
  | OPEN_PAREN =>
    (_ ← eat;
     expr ← rec_parseExpression rec;
     t ← atType;
     if negb (is_tt t CLOSE_PAREN) then perr "expected ')' after expression"
     else _ ← eat; mret expr) p
  | OPEN_BRACKET => parseArrayLiteral p
  | OPEN_BRACE => parseObjectLiteral p
  | FN | LAMBDA => parseFunctionExpression p
  | _ => PErr ("unexpected token: " +:+ Token_Value token)
  end.

Fixpoint parseMemberExpression_loop (n : nat) (object : Statement) : PM Statement :=
  fun p =>
  let t := Token_Type (at_ p) in
  if is_tt t DOT || is_tt t OPEN_BRACKET then
    match n with
    | O => PFuel
    | S n' =>
      (if is_tt t DOT then
         _ ← eat;
         property ← parsePrimaryExpression;
         parseMemberExpression_loop n' (MemberExpr object property false)
       else
         _ ← eat;
         property ← rec_parseExpression rec;
         t' ← atType;
         if negb (is_tt t' CLOSE_BRACKET)
         then perr "expected ']' after computed member access"
         else _ ← eat; parseMemberExpression_loop n' (MemberExpr object property true)) p
    end
  else POk object p.

Definition parseMemberExpression : PM Statement :=
  object ← parsePrimaryExpression;
  withBound (fun n => parseMemberExpression_loop n object).

(** [parseCallExpression] calls itself for a chained call [f(a)(b)]; every
    call consumes an opening parenthesis. *)
Fixpoint parseCallExpression (n : nat) (caller : Statement) : PM Statement :=
  match n with
  | O => pfuel
  | S n' =>
    _ ← eat;
    t ← atType;
    args ← (if negb (is_tt t CLOSE_PAREN)
            then withBound (fun n => parseExpressionList n [])
            else mret []);
    t' ← atType;
    if negb (is_tt t' CLOSE_PAREN) then perr "expected ')' after function arguments"
    else
      _ ← eat;
      t'' ← atType;
      if is_tt t'' OPEN_PAREN then parseCallExpression n' (CallExpr caller args)
      else mret (CallExpr caller args)
  end.

Definition parseCallMemberExpression : PM Statement :=
  member ← parseMemberExpression;
  t ← atType;
  if is_tt t OPEN_PAREN then withBound (fun n => parseCallExpression n member)
  else mret member.

(** [parseUnaryExpression] calls itself after a prefix operator. *)
Fixpoint parseUnaryExpression_from (n : nat) : PM Statement := fun p =>
  let tok := at_ p in
  let t := Token_Type tok in
  if is_tt t NEGATION_OP || String.eqb (Token_Value tok) "+"
     || String.eqb (Token_Value tok) "-" || is_tt t INCREMENT || is_tt t DECREMENT
  then
    match n with
    | O => PFuel
    | S n' =>
      (op ← eat;
       value ← parseUnaryExpression_from n';
       mret (UnaryExpr value (Token_Value op))) p
    end
  else
    (expr ← parseCallMemberExpression;
     t' ← atType;
     if is_tt t' INCREMENT || is_tt t' DECREMENT
     then op ← eat; mret (UnaryExpr expr (Token_Value op +:+ "_post"))
     else mret expr) p.

Definition parseUnaryExpression : PM Statement :=
  withBound parseUnaryExpression_from.

(** The left-associative binary levels share one loop: while the token
    at hand is accepted by [accepts], eat it as the operator, parse the
    right operand with [operand] and fold to the left with [mk]. *)
Fixpoint binaryLoop (accepts : Token -> bool) (operand : PM Statement)
    (mk : Statement -> Statement -> string -> Statement)
    (n : nat) (left : Statement) : PM Statement := fun p =>
  if accepts (at_ p) then
    match n with
    | O => PFuel
    | S n' =>
      (op ← eat;
       right ← operand;
       binaryLoop accepts operand mk n' (mk left right (Token_Value op))) p
    end
  else POk left p.

Definition binaryLevel (accepts : Token -> bool) (operand : PM Statement)
    (mk : Statement -> Statement -> string -> Statement) : PM Statement :=
  left ← operand;
  withBound (fun n => binaryLoop accepts operand mk n left).

Definition parseMultiplicativeExpression : PM Statement :=
  binaryLevel
    (fun tok => existsb (String.eqb (Token_Value tok)) ["*"; "/"; "%"; "**"])
    parseUnaryExpression BinaryExpr.

Definition parseAdditiveExpression : PM Statement :=
  binaryLevel
    (fun tok => existsb (String.eqb (Token_Value tok)) ["+"; "-"])
    parseMultiplicativeExpression BinaryExpr.

Definition parseInequalityExpression : PM Statement :=
  binaryLevel
    (fun tok => existsb (is_tt (Token_Type tok))
       [SMALLER_THAN; GREATER_THAN; SMALLER_OR_EQUAL; GREATER_OR_EQUAL])
    parseAdditiveExpression InequalityExpr.

Definition parseEqualityExpression : PM Statement :=
  binaryLevel
    (fun tok => existsb (is_tt (Token_Type tok)) [EQUALITY_OP; INEQUALITY_OP])
    parseInequalityExpression EqualityExpr.

Definition parseLogicalExpression : PM Statement :=
  binaryLevel
    (fun tok => existsb (is_tt (Token_Type tok)) [AND; OR])
    parseEqualityExpression LogicalExpr.

(** [parseTernaryExpression] calls itself for the alternate. *)
Fixpoint parseTernaryExpression_from (n : nat) : PM Statement :=
  expr ← parseLogicalExpression;
  t ← atType;
  if is_tt t TERNARY then
    match n with
    | O => pfuel
    | S n' =>
      _ ← eat;
      consequent ← parseLogicalExpression;
      t' ← atType;
      if negb (is_tt t' COLON) then errAt "expected ':' in ternary expression"
      else
        _ ← eat;
        alternate ← parseTernaryExpression_from n';
        mret (TernaryExpr expr consequent alternate)
    end
  else mret expr.

Definition parseTernaryExpression : PM Statement :=
  withBound parseTernaryExpression_from.

Definition parseAssignmentExpression : PM Statement :=
  left ← parseTernaryExpression;
  t ← atType;
  if is_tt t EQUALS then
    _ ← eat;
    value ← rec_parseExpression rec;
    mret (AssignmentExpr left value)
  else if is_tt t COLON then
    _ ← eat;
    action ← eat;
    t' ← atType;
    if is_tt t' EQUALS then
      _ ← eat;
      value ← rec_parseExpression rec;
      mret (ActionAssignmentExpr left value (mkActionExpr (Token_Value action) []))
    else mret left
  else mret left.

Definition parseExpression : PM Statement := parseAssignmentExpression.

Definition parseFunctionDeclaration : PM Statement :=
  t ← eat;
  let out := is_tt (Token_Type t) OUT in
  _ ← (if out then
         t' ← atType;
         if negb (is_tt t' FN) then errAt "expected 'fn' after 'out'"
         else _ ← eat; mret tt
       else mret tt);
  t1 ← atType;
  if is_tt t1 COLON then
    _ ← eat;
    t2 ← atType;
    if is_tt t2 COLON then
      _ ← eat;
      expr ← parseExpression;
      mret (FunctionDeclaration "" [] [ReturnExpr expr] out)
    else errAt "unexpected ':' after 'fn' in function declaration"
  else if negb (is_tt t1 IDENTIFIER) then errAt "expected function name"
  else
    tok ← eat;
    let name := Token_Value tok in
    parameters ← parseParameterList;
    body ← parseFunctionBody;
    mret (FunctionDeclaration name parameters body out).

(** The body of [if] and [while]: a block, or [:] and one statement.
    [what] names the statement in the error messages. *)
Definition parseBody (what : string) : PM (list Statement) :=
  t ← atType;
  if negb (is_tt t OPEN_BRACE) && negb (is_tt t COLON)
  then perr ("expected '{' or ':' after " +:+ what +:+ " condition")
  else if is_tt t OPEN_BRACE then
    parseBraceBlock []
      (expectClose CLOSE_BRACE (perr ("expected '}' after " +:+ what +:+ " body")))
  else
    _ ← eat;
    stmt ← rec_parseStatement rec;
    mret (match stmt with Some s => [s] | None => [] end).

(** [parseIfStatement] calls itself for [else if]. *)
Fixpoint parseIfStatement_from (n : nat) : PM Statement :=
  _ ← eat;
  test ← parseExpression;
  consequent ← parseBody "if";
  t ← atType;
  alternate ←
    (if is_tt t ELSE then
       _ ← eat;
       t' ← atType;
       if is_tt t' IF then
         match n with
         | O => pfuel
         | S n' => elseIf ← parseIfStatement_from n'; mret [elseIf]
         end
       else if is_tt t' OPEN_BRACE then
         parseBraceBlock []
           (expectClose CLOSE_BRACE (perr "expected '}' after else body"))
       else
         stmt ← rec_parseStatement rec;
         mret (match stmt with Some s => [s] | None => [] end)
     else mret []);
  mret (IfStatement test consequent alternate).

Definition parseIfStatement : PM Statement := withBound parseIfStatement_from.

Definition parseWhileStatement : PM Statement :=
  _ ← eat;
  test ← parseExpression;
  consequent ← parseBody "while";
  mret (WhileStatement test consequent).

Definition parseForStatement : PM Statement :=
  _ ← eat;
  declaration ← parseExpression;
  t ← atType;
  if negb (is_tt t SEMICOLON) then perr "expected ';' after for declaration"
  else
    _ ← eat;
    test ← parseExpression;
    t1 ← atType;
    if negb (is_tt t1 SEMICOLON) then perr "expected ';' after for test"
    else
      _ ← eat;
      increaser ← parseExpression;
      t2 ← atType;
      if negb (is_tt t2 OPEN_BRACE) then perr "expected '{' after for header"
      else
        body ← parseBraceBlock []
                 (expectClose CLOSE_BRACE (perr "expected '}' after for body"));
        mret (ForStatement declaration test increaser body).

Definition parseReturnStatement : PM Statement :=
  _ ← eat;
  value ← parseExpression;
  mret (ReturnExpr value).

Definition parseDebugStatement : PM Statement :=
  _ ← eat;
  t ← atType;
  if is_tt t OPEN_BRACE then
    _ ← eat;
    t1 ← atType;
    props ← (if negb (is_tt t1 CLOSE_BRACE)
             then withBound (fun n => parseExpressionList n [])
             else mret []);
    t2 ← atType;
    if negb (is_tt t2 CLOSE_BRACE) then perr "expected '}' after debug props"
    else _ ← eat; mret (DebugStatement props)
  else
    expr ← parseExpression;
    mret (DebugStatement [expr]).

Definition parseUseStatement : PM Statement :=
  _ ← eat;
  t ← atType;
  if negb (is_tt t STRING) then perr "expected string after use"
  else tok ← eat; mret (UseStatement (Token_Value tok)).

(** A [nil] statement (a skipped newline) is [None]. *)
Definition parseStatement : PM (option Statement) :=
  t ← atType;
  returned ←
    match t with
    | OUT | FN => notNil parseFunctionDeclaration
    | IF => notNil parseIfStatement
    | WHILE => notNil parseWhileStatement
    | FOR => notNil parseForStatement
    | RETURN => notNil parseReturnStatement
    | DEBUG => notNil parseDebugStatement
    | USE => notNil parseUseStatement
    | NEWLINE => _ ← eat; mret None
    | _ => notNil parseExpression
    end;
  t' ← atType;
  _ ← (if is_tt t' SEMICOLON then _ ← eat; mret tt else mret tt);
  mret returned.
End ParserMethods.

Section ParserKnot.
Context `{FloatLib}.

(** The recursion of the parser, bounded by [fuel] nested entries. *)
Fixpoint parser_rec (fuel : nat) : Rec :=
  match fuel with
  | O => mkRec pfuel pfuel pfuel pfuel
  | S fuel' =>
    let rec := parser_rec fuel' in
    mkRec (parseStatement rec) (parseExpression rec)
          (parseTernaryExpression rec) (parseUnaryExpression rec)
  end.

Fixpoint ProduceAST_loop (fuel n : nat) (body : list Statement) : PM Statement :=
  fun p =>
  if negb (isEOF p) then
    match n with
    | O => PFuel
    | S n' =>
      (stmt ← parseStatement (parser_rec fuel);
       ProduceAST_loop fuel n' (match stmt with Some s => body ++ [s] | None => body end)) p
    end
  else POk (Program body) p.

Definition ProduceAST (fuel : nat) : PM Statement :=
  withBound (fun n => ProduceAST_loop fuel n []).

(** [Luna.Parse] of luna.go. *)
Definition Luna_Parse (fuel : nat) (tokens : list Token) : pres Statement :=
  ProduceAST fuel (NewParser tokens "").
End ParserKnot.

(* ===================================================================== *)
(** * values.go                                                           *)
(* ===================================================================== *)

Inductive ValueType :=
  | NULL_TYPE | UNDEF_TYPE | VOID_TYPE | NUMBER_TYPE | BOOLEAN_TYPE | STRING_TYPE
  | FUNCTION_TYPE | NATIVE_FN_TYPE | ARRAY_TYPE | OBJECT_TYPE | RETURN_TYPE.

#[global] Instance ValueType_eq_dec : EqDecision ValueType.
Proof. solve_decision. Defined.

(** [string(t)]: the constants of type [ValueType] are these strings. *)
Definition ValueType_string (t : ValueType) : string :=
  match t with
  | NULL_TYPE => "null"
  | UNDEF_TYPE => "undef"
  | VOID_TYPE => "void"
  | NUMBER_TYPE => "number"
  | BOOLEAN_TYPE => "boolean"
  | STRING_TYPE => "string"
  | FUNCTION_TYPE => "function"
  | NATIVE_FN_TYPE => "native-fn"
  | ARRAY_TYPE => "array"
  | OBJECT_TYPE => "object"
  | RETURN_TYPE => "return"
  end.

(** A location of the store: the address of an [*Environment], of an
    [*ArrayValue] or of an [*ObjectValue]. *)
Definition loc := nat.

(** The runtime values.  Arrays and objects are mutable and shared: the
    value is the pointer.  A function value holds the pointer to its
    declaration environment.  A native function is a Go closure: it is
    identified by its name and, for a prototype method, by the receiver
    that the closure captured ([Receiver]).  The Go [nil] interface is not
    a value: [Evaluate] returns [nil] only with an error, and no native
    function of the repository returns a [nil] value without an error. *)
Inductive RuntimeValue :=
  | NullValue
  | UndefinedValue
  | VoidValue
  | NumberValue (Value : float)
  | BooleanValue (Value : bool)
  | StringValue (Value : string)
  | ArrayValue (Elements : loc)
  | ObjectValue (Properties : loc)
  | FunctionValue (Name : string) (Parameters : list Param) (Body : list Statement)
      (DeclarationEnv : loc) (Export Anonymous : bool)
  | NativeFunctionValue (Name : string) (Receiver : option RuntimeValue)
  | ReturnValue (Value : RuntimeValue).

Definition TypeOf (v : RuntimeValue) : ValueType :=
  match v with
  | NullValue => NULL_TYPE
  | UndefinedValue => UNDEF_TYPE
  | VoidValue => VOID_TYPE
  | NumberValue _ => NUMBER_TYPE
  | BooleanValue _ => BOOLEAN_TYPE
  | StringValue _ => STRING_TYPE
  | ArrayValue _ => ARRAY_TYPE
  | ObjectValue _ => OBJECT_TYPE
  | FunctionValue _ _ _ _ _ _ => FUNCTION_TYPE
  | NativeFunctionValue _ _ => NATIVE_FN_TYPE
  | ReturnValue _ => RETURN_TYPE
  end.

Definition MakeNull : RuntimeValue := NullValue.
Definition MakeUndefined : RuntimeValue := UndefinedValue.
Definition MakeVoid : RuntimeValue := VoidValue.
Definition MakeNumber (value : float) : RuntimeValue := NumberValue value.
Definition MakeBool (value : bool) : RuntimeValue := BooleanValue value.
Definition MakeString (value : string) : RuntimeValue := StringValue value.
Definition MakeReturn (value : RuntimeValue) : RuntimeValue := ReturnValue value.
Definition MakeFunction (name : string) (parameters : list Param)
    (body : list Statement) (env : loc) (export anonymous : bool) : RuntimeValue :=
  FunctionValue name parameters body env export anonymous.

(* ===================================================================== *)
(** * environment.go and the store                                        *)
(* ===================================================================== *)

Record Environment := mkEnvironment {
  parent : option loc;
  variables : gmap string RuntimeValue;
  constants : gmap string bool
}.

(** The store: the environments, the element slices of the arrays, the
    property maps of the objects, the number of map iterations started so
    far (Go randomises the order of each) and the lines printed. *)
Record State := mkState {
  envs : list Environment;
  arrays : list (list RuntimeValue);
  objects : list (gmap string RuntimeValue);
  ticks : nat;
  stdout : list string
}.

Definition emptyState : State := mkState [] [] [] 0 [].

(** How an evaluation ends when it does not return a value: a Go [error],
    a run-time panic, the end of the process, or the fuel of the model
    used up (the Go code would still be running). *)
Inductive failure :=
  | Error (msg : string)
  | Panic (msg : string)
  | Exit (code : Z)
  | OutOfFuel.

Inductive outcome (A : Type) :=
  | Ok (a : A)
  | Fail (f : failure).
Arguments Ok {A} a.
Arguments Fail {A} f.

Definition M (A : Type) : Type := State -> outcome A * State.

#[global] Instance M_ret : MRet M := fun A a st => (Ok a, st).
#[global] Instance M_bind : MBind M := fun A B k m st =>
  match m st with
  | (Ok a, st') => k a st'
  | (Fail f, st') => (Fail f, st')
  end.

Definition fail {A} (f : failure) : M A := fun st => (Fail f, st).
Definition errorf {A} (msg : string) : M A := fail (Error msg).
Definition panic {A} (msg : string) : M A := fail (Panic msg).
Definition get : M State := fun st => (Ok st, st).
Definition put (st : State) : M unit := fun _ => (Ok tt, st).

Definition nilDeref : string := "invalid memory address or nil pointer dereference".

Definition getEnv (env : loc) : M Environment := fun st =>
  match envs st !! env with
  | Some e => (Ok e, st)
  | None => (Fail (Panic nilDeref), st)
  end.

Definition setEnv (env : loc) (e : Environment) : M unit := fun st =>
  (Ok tt, mkState (<[env := e]> (envs st)) (arrays st) (objects st) (ticks st) (stdout st)).

Definition NewEnvironment (parent : option loc) : M loc := fun st =>
  (Ok (length (envs st)),
   mkState (envs st ++ [mkEnvironment parent ∅ ∅]) (arrays st) (objects st)
           (ticks st) (stdout st)).

Definition DeclareVar (env : loc) (name : string) (value : RuntimeValue)
    (isConstant : bool) : M RuntimeValue :=
  e ← getEnv env;
  _ ← setEnv env
        (mkEnvironment (parent e) (<[name := value]> (variables e))
           (if isConstant then <[name := true]> (constants e) else constants e));
  mret value.

(** [for current != nil { ...; current = current.parent }]: the walk up the
    parent chain.  [visit] is the body of the loop: [Some r] returns [r]
    from the method, [None] goes on with the parent; [absent] is what
    follows the loop.  A chain without a cycle has at most as many
    environments as the store, which bounds the walk. *)
Fixpoint walk {A} (fuel : nat) (st : State) (current : option loc)
    (visit : loc -> Environment -> option A) (absent : A) : outcome A :=
  match current with
  | None => Ok absent
  | Some c =>
    match fuel with
    | O => Fail OutOfFuel
    | S fuel' =>
      match envs st !! c with
      | None => Fail (Panic nilDeref)
      | Some e =>
        match visit c e with
        | Some r => Ok r
        | None => walk fuel' st (parent e) visit absent
        end
      end
    end
  end.

Definition chainBound (st : State) : nat := S (length (envs st)).

(** The environment of the chain of [env] that binds [name], if any. *)
Definition resolve (st : State) (env : loc) (name : string) : outcome (option loc) :=
  walk (chainBound st) st (Some env)
    (fun c e => if decide (is_Some (variables e !! name)) then Some (Some c) else None)
    None.

Definition AssignVar (env : loc) (name : string) (value : RuntimeValue)
    : M RuntimeValue :=
  e ← getEnv env;
  if default false (constants e !! name) then mret value
  else
    st ← get;
    match resolve st env name with
    | Fail f => fail f
    | Ok (Some c) =>
      ce ← getEnv c;
      _ ← setEnv c (mkEnvironment (parent ce) (<[name := value]> (variables ce))
                      (constants ce));
      mret value
    | Ok None =>
      _ ← setEnv env (mkEnvironment (parent e) (<[name := value]> (variables e))
                        (constants e));
      mret value
    end.

Definition LookupVar (env : loc) (name : string) : M RuntimeValue := fun st =>
  (walk (chainBound st) st (Some env) (fun _ e => variables e !! name) MakeUndefined,
   st).

Definition HasVar (env : loc) (name : string) : M bool := fun st =>
  (walk (chainBound st) st (Some env)
     (fun _ e => if decide (is_Some (variables e !! name)) then Some true else None)
     false,
   st).

(** ** Arrays and objects in the store *)

Definition elementsOf (st : State) (a : loc) : list RuntimeValue :=
  default [] (arrays st !! a).

Definition propertiesOf (st : State) (o : loc) : gmap string RuntimeValue :=
  default ∅ (objects st !! o).

Definition MakeArray (elements : list RuntimeValue) : M RuntimeValue := fun st =>
  (Ok (ArrayValue (length (arrays st))),
   mkState (envs st) (arrays st ++ [elements]) (objects st) (ticks st) (stdout st)).

Definition MakeObject (properties : gmap string RuntimeValue) : M RuntimeValue :=
  fun st =>
  (Ok (ObjectValue (length (objects st))),
   mkState (envs st) (arrays st) (objects st ++ [properties]) (ticks st) (stdout st)).

Definition setElements (a : loc) (elements : list RuntimeValue) : M unit := fun st =>
  (Ok tt, mkState (envs st) (<[a := elements]> (arrays st)) (objects st)
            (ticks st) (stdout st)).

Definition setProperties (o : loc) (properties : gmap string RuntimeValue) : M unit :=
  fun st =>
  (Ok tt, mkState (envs st) (arrays st) (<[o := properties]> (objects st))
            (ticks st) (stdout st)).

Definition Println (s : string) : M unit := fun st =>
  (Ok tt, mkState (envs st) (arrays st) (objects st) (ticks st) (stdout st ++ [s])).

(** ** The host: native functions, map iteration order, rendering *)

(** What the interpreter takes from its host and from the Go runtime:
    - [native_call name receiver args env]: the Go closure of a native
      function or prototype method, which may read and write the store;
    - [map_order tick keys]: the order in which the [tick]-th [range] over
      a map visits its keys, some permutation of them;
    - [colorizeValue] and [formatDebug]: the rendering of [debug]. *)
Class Host := {
  native_call : string -> option RuntimeValue -> list RuntimeValue -> loc
                -> M RuntimeValue;
  map_order : nat -> list string -> list string;
  map_order_perm : forall tick keys, map_order tick keys ≡ₚ keys;
  colorizeValue : State -> RuntimeValue -> bool -> bool -> string;
  formatDebug : list string -> string
}.

Section Values.
Context `{FloatLib} `{Host}.

(** [for key, value := range m]: the bindings of [m] in the order of this
    iteration. *)
Definition rangeMap {A} (m : gmap string A) : M (list (string * A)) := fun st =>
  (Ok (omap (fun k => (fun v => (k, v)) <$> m !! k)
            (map_order (ticks st) (map_to_list m).*1)),
   mkState (envs st) (arrays st) (objects st) (S (ticks st)) (stdout st)).

Definition NumberValue_String (v : float) : string :=
  let i := int64_of_float v in
  if (v =? float_of_int64 i)%float then Itoa i else FormatFloat_g v.

Definition paramStr (param : Param) : string :=
  match Param_DefaultValue param with
  | Some _ => Param_Name param +:+ "=(...)"
  | None => Param_Name param
  end.

Fixpoint mapM {A B} (f : A -> M B) (l : list A) : M (list B) :=
  match l with
  | [] => mret []
  | x :: rest => y ← f x; ys ← mapM f rest; mret (y :: ys)
  end.

(** The method [String()].  Arrays and objects are rendered through the
    store; [fuel] bounds the nesting (a cyclic array makes the Go method
    recurse for ever). *)
Fixpoint String_ (fuel : nat) (v : RuntimeValue) : M string :=
  match fuel with
  | O => fail OutOfFuel
  | S fuel' =>
    match v with
    | NullValue => mret "null"
    | UndefinedValue => mret "undef"
    | VoidValue => mret ""
    | NumberValue n => mret (NumberValue_String n)
    | BooleanValue b => mret (if b then "true" else "false")
    | StringValue s => mret ("'" +:+ s +:+ "'")
    | ArrayValue a =>
      st ← get;
      elements ← mapM (String_ fuel') (elementsOf st a);
      mret ("[" +:+ strings_Join elements ", " +:+ "]")
    | ObjectValue o =>
      st ← get;
      bindings ← rangeMap (propertiesOf st o);
      props ← mapM (fun kv => s ← String_ fuel' kv.2; mret (kv.1 +:+ ": " +:+ s))
                   bindings;
      mret ("{" +:+ strings_Join props ", " +:+ "}")
    | FunctionValue name parameters _ _ _ anonymous =>
      let paramStrs := strings_Join (paramStr <$> parameters) " " in
      if anonymous then mret ("lambda " +:+ paramStrs +:+ " { ... }")
      else mret ("fn " +:+ name +:+ " " +:+ paramStrs +:+ " { ... }")
    | NativeFunctionValue name _ => mret ("fn " +:+ name)
    | ReturnValue r => String_ fuel' r
    end
  end.

Fixpoint IsTruthy (st : State) (v : RuntimeValue) : bool :=
  match v with
  | NullValue | UndefinedValue | VoidValue => false
  | NumberValue n => negb (n =? 0)%float && negb (is_nan n)
  | BooleanValue b => b
  | StringValue s => negb (String.eqb s "")
  | ArrayValue a => (0 <? length (elementsOf st a))%nat
  | ObjectValue o => (0 <? size (propertiesOf st o))%nat
  | FunctionValue _ _ _ _ _ _ => true
  | NativeFunctionValue _ _ => true
  | ReturnValue r => IsTruthy st r
  end.

Definition truthy (v : RuntimeValue) : M bool := fun st => (Ok (IsTruthy st v), st).

(** The names in [StringPrototype] and [ArrayPrototype] of prototype.go. *)
Definition StringPrototype : list string :=
  ["length"; "toUpperCase"; "toLowerCase"; "charAt"; "substring"; "split"].
Definition ArrayPrototype : list string :=
  ["length"; "push"; "pop"; "join"; "includes"].

(** The method [Prototypes()]: native functions that capture the
    receiver.  The names of one table are distinct. *)
Definition Prototypes (v : RuntimeValue) : list RuntimeValue :=
  let method name := NativeFunctionValue name (Some v) in
  match v with
  | NumberValue _ | BooleanValue _ => [method "string"]
  | StringValue _ => method <$> StringPrototype
  | ArrayValue _ => method <$> ArrayPrototype
  | ObjectValue _ => [method "keys"; method "values"]
  | FunctionValue _ _ _ _ _ _ => [method "call"]
  | _ => []
  end.

(** The search of a member expression in the prototypes: the first
    native function of [Prototypes] named [key], else [undefined]. *)
Definition lookupPrototype (v : RuntimeValue) (key : string) : RuntimeValue :=
  default MakeUndefined
    (find (fun protoFn =>
             match protoFn with
             | NativeFunctionValue name _ => String.eqb name key
             | _ => false
             end)
          (Prototypes v)).
End Values.

(* ===================================================================== *)
(** * interpreter.go                                                      *)
(* ===================================================================== *)

Definition isEqual (left right : RuntimeValue) : bool :=
  if negb (bool_decide (TypeOf left = TypeOf right)) then false
  else
    match left, right with
    | NumberValue l, NumberValue r => (l =? r)%float
    | BooleanValue l, BooleanValue r => Bool.eqb l r
    | StringValue l, StringValue r => String.eqb l r
    | NullValue, _ | UndefinedValue, _ | VoidValue, _ => true
    | _, _ => false (* Objects and arrays need deep comparison *)
    end.

(** The name of the dynamic type of a value, as a failed type assertion
    prints it. *)
Definition go_value_type (v : RuntimeValue) : string :=
  "*main." +:+
  match v with
  | NullValue => "NullValue"
  | UndefinedValue => "UndefinedValue"
  | VoidValue => "VoidValue"
  | NumberValue _ => "NumberValue"
  | BooleanValue _ => "BooleanValue"
  | StringValue _ => "StringValue"
  | ArrayValue _ => "ArrayValue"
  | ObjectValue _ => "ObjectValue"
  | FunctionValue _ _ _ _ _ _ => "FunctionValue"
  | NativeFunctionValue _ _ => "NativeFunctionValue"
  | ReturnValue _ => "ReturnValue"
  end.

(** The type assertion of [property] to a number value, which panics on
    any other value. *)
Definition assertNumber (v : RuntimeValue) : M float :=
  match v with
  | NumberValue n => mret n
  | _ => panic ("interface conversion: main.RuntimeValue is " +:+ go_value_type v
                +:+ ", not *main.NumberValue")
  end.

Definition indexOutOfRange (index : Z) (len : nat) : string :=
  "runtime error: index out of range [" +:+ Itoa index +:+ "] with length "
  +:+ Itoa (Z.of_nat len).

(** How a list of statements ends: with a return-signal, or after its last
    statement with the value of the last one. *)
Inductive flow :=
  | Returned (val : RuntimeValue)
  | Completed (result : RuntimeValue).

Section Interpreter.
Context `{FloatLib} `{Host}.

(** [E] is [Evaluate] one level down; [fuel] bounds the iterations of
    [while] and [for] and the nesting of [String()]. *)
Variable E : Statement -> loc -> M RuntimeValue.
Variable fuel : nat.

Fixpoint evaluateProgram_loop (body : list Statement) (env : loc)
    (lastEvaluated : RuntimeValue) : M RuntimeValue :=
  match body with
  | [] => mret lastEvaluated
  | statement :: rest =>
    result ← E statement env;
    evaluateProgram_loop rest env result
  end.

Definition evaluateProgram (body : list Statement) (env : loc) : M RuntimeValue :=
  evaluateProgram_loop body env MakeVoid.

(** The rendering of a variable in an interpolated string. *)
Definition rendering (val : RuntimeValue) : M string :=
  match val with
  | StringValue s => mret s
  | _ => String_ fuel val
  end.

Fixpoint interpolate (bindings : list (string * RuntimeValue)) (result : string)
    : M string :=
  match bindings with
  | [] => mret result
  | (name, val) :: rest =>
    let placeholder := "{" +:+ name +:+ "}" in
    if strings_Contains result placeholder then
      s ← rendering val;
      interpolate rest (strings_ReplaceAll result placeholder s)
    else interpolate rest result
  end.

Definition evaluateStringLiteral (value : string) (env : loc) : M RuntimeValue :=
  if strings_Contains value "{" then
    e ← getEnv env;
    bindings ← rangeMap (variables e);
    result ← interpolate bindings value;
    mret (MakeString result)
  else mret (MakeString value).

(** [LookupVar] never returns [nil], so that the error "undefined
    variable" of the source is never raised. *)
Definition evaluateIdentifier (name : string) (env : loc) : M RuntimeValue :=
  LookupVar env name.

Definition evaluateArrayLiteral (elements : list Statement) (env : loc)
    : M RuntimeValue :=
  values ← mapM (fun elem => E elem env) elements;
  MakeArray values.

Fixpoint evaluateObjectLiteral_loop (props : list ObjProperty) (env : loc)
    (properties : gmap string RuntimeValue) : M (gmap string RuntimeValue) :=
  match props with
  | [] => mret properties
  | prop :: rest =>
    value ← E (Prop_Value prop) env;
    evaluateObjectLiteral_loop rest env (<[Prop_Key prop := value]> properties)
  end.

Definition evaluateObjectLiteral (props : list ObjProperty) (env : loc)
    : M RuntimeValue :=
  properties ← evaluateObjectLiteral_loop props env ∅;
  MakeObject properties.

Definition numericOperation (l r : float) (operator : string) : option float :=
  if String.eqb operator "+" then Some (l + r)%float
  else if String.eqb operator "-" then Some (l - r)%float
  else if String.eqb operator "*" then Some (l * r)%float
  else if String.eqb operator "/" then
    Some (if (r =? 0)%float then infinity else (l / r)%float)
  else if String.eqb operator "%" then Some (math_Mod l r)
  else if String.eqb operator "**" then Some (math_Pow l r)
  else None.

Definition isString (v : RuntimeValue) : bool :=
  bool_decide (TypeOf v = STRING_TYPE).

Definition evaluateBinaryOperation (left right : RuntimeValue) (operator : string)
    : M RuntimeValue :=
  let numeric :=
    match left, right with
    | NumberValue l, NumberValue r => numericOperation l r operator
    | _, _ => None
    end in
  match numeric with
  | Some v => mret (MakeNumber v)
  | None =>
    if String.eqb operator "+" && (isString left || isString right) then
      leftStr ← rendering left;
      rightStr ← rendering right;
      mret (MakeString (leftStr +:+ rightStr))
    else
      errorf ("unsupported binary operation: " +:+ ValueType_string (TypeOf left)
              +:+ " " +:+ operator +:+ " " +:+ ValueType_string (TypeOf right))
  end.

Definition evaluateBinaryExpression (l r : Statement) (operator : string)
    (env : loc) : M RuntimeValue :=
  left ← E l env;
  right ← E r env;
  evaluateBinaryOperation left right operator.

(** [++] and [--] on an identifier: [delta] is added to the number bound
    to it; [post] selects the value returned. *)
Definition stepVariable (operand : Statement) (env : loc) (delta : float)
    (post : bool) (notIdent notNumber : string) : M RuntimeValue :=
  match operand with
  | Identifier name =>
    val ← LookupVar env name;
    match val with
    | NumberValue oldVal =>
      let newVal := (oldVal + delta)%float in
      _ ← AssignVar env name (MakeNumber newVal);
      mret (MakeNumber (if post then oldVal else newVal))
    | _ => errorf notNumber
    end
  | _ => errorf notIdent
  end.

Definition evaluateUnaryExpression (operand : Statement) (operator : string)
    (env : loc) : M RuntimeValue :=
  if String.eqb operator "++_post" || String.eqb operator "--_post" then
    stepVariable operand env
      (if String.eqb operator "++_post" then 1 else (-1))%float true
      "postfix operator only valid on identifiers"
      ("cannot apply " +:+ String.substring 0 2 operator +:+ " to non-number variable")
  else if String.eqb operator "!" then
    value ← E operand env;
    t ← truthy value;
    mret (MakeBool (negb t))
  else if String.eqb operator "-" then
    value ← E operand env;
    match value with
    | NumberValue n => mret (MakeNumber (- n)%float)
    | _ => errorf "cannot negate non-number value"
    end
  else if String.eqb operator "+" then
    value ← E operand env;
    match value with
    | NumberValue _ => mret value
    | _ => errorf "cannot apply unary plus to non-number value"
    end
  else if String.eqb operator "++" then
    stepVariable operand env 1%float false
      "prefix ++ only valid on identifiers" "cannot increment non-number variable"
  else if String.eqb operator "--" then
    stepVariable operand env (-1)%float false
      "prefix -- only valid on identifiers" "cannot decrement non-number variable"
  else errorf ("unsupported unary operator: " +:+ operator).

(** The assignment [arrayVal.Elements[index] = value]: Go checks the index
    against the length of the slice and panics outside it. *)
Definition storeElement (a : loc) (index : Z) (value : RuntimeValue) : M unit :=
  st ← get;
  let elements := elementsOf st a in
  if (0 <=? index) && (index <? Z.of_nat (length elements))
  then setElements a (<[Z.to_nat index := value]> elements)
  else panic (indexOutOfRange index (length elements)).

Definition evaluateAssignmentExpression (assigne value_ : Statement) (env : loc)
    : M RuntimeValue :=
  match assigne with
  | Identifier name =>
    value ← E value_ env;
    has ← HasVar env name;
    if has : bool then AssignVar env name value
    else DeclareVar env name value false
  | MemberExpr object_ property_ _ =>
    object ← E object_ env;
    property ←
      (match property_ with
       | Identifier name => mret (MakeString name)
       | _ => E property_ env
       end);
    value ← E value_ env;
    match object with
    | ObjectValue o =>
      key ← (match property with
             | StringValue str => mret str
             | _ => n ← assertNumber property; mret (fmt_Sprint_float64 n)
             end);
      st ← get;
      _ ← setProperties o (<[key := value]> (propertiesOf st o));
      mret value
    | ArrayValue a =>
      n ← assertNumber property;
      _ ← storeElement a (int64_of_float n) value;
      mret value
    | _ => errorf ("cannot assign to non-object ("
                   +:+ ValueType_string (TypeOf object) +:+ ")")
    end
  | _ => errorf "invalid assignment target"
  end.

Definition evaluateActionAssignmentExpression (assigne value_ : Statement)
    (action : ActionExpr) (env : loc) : M RuntimeValue :=
  match assigne with
  | Identifier name =>
    value ← E value_ env;
    if String.eqb (Action_Name action) "const" then DeclareVar env name value true
    else if String.eqb (Action_Name action) "var" then DeclareVar env name value false
    else if String.eqb (Action_Name action) "out" then DeclareVar env name value false
    else errorf ("unsupported action: " +:+ Action_Name action)
  | _ => errorf "invalid assignment target"
  end.

(** The parameter loop of [callFunction]; [i] is the index of the first
    parameter of [params]. *)
Fixpoint bindParameters (params : list Param) (i : nat) (args : list RuntimeValue)
    (declarationEnv fnEnv : loc) : M unit :=
  match params with
  | [] => mret tt
  | param :: rest =>
    value ←
      (match args !! i with
       | Some arg => mret arg
       | None =>
         match Param_DefaultValue param with
         | Some defaultValue =>
           fun st =>
             match E defaultValue declarationEnv st with
             | (Fail (Error err), st') =>
               (Fail (Error ("error evaluating default parameter "
                             +:+ Param_Name param +:+ ": " +:+ err)), st')
             | r => r
             end
         | None => mret MakeUndefined
         end
       end);
    _ ← DeclareVar fnEnv (Param_Name param) value false;
    bindParameters rest (S i) args declarationEnv fnEnv
  end.

(** [for _, stmt := range body { val, err := Evaluate(stmt, env); ...;
    if val.Type() == RETURN_TYPE { return ... }; result = val }] *)
Fixpoint execStatements (body : list Statement) (env : loc) (result : RuntimeValue)
    : M flow :=
  match body with
  | [] => mret (Completed result)
  | stmt :: rest =>
    val ← E stmt env;
    match val with
    | ReturnValue _ => mret (Returned val)
    | _ => execStatements rest env val
    end
  end.

Definition callFunction (fn : RuntimeValue) (args : list RuntimeValue) (env : loc)
    : M RuntimeValue :=
  match fn with
  | FunctionValue _ parameters body declarationEnv _ _ =>
    fnEnv ← NewEnvironment (Some declarationEnv);
    _ ← bindParameters parameters 0 args declarationEnv fnEnv;
    fl ← execStatements body fnEnv MakeVoid;
    match fl with
    | Returned (ReturnValue value) => mret value
    | Returned val => mret val
    | Completed result => mret result
    end
  | _ => errorf "cannot call non-function value"
  end.

Definition evaluateCallExpression (caller : Statement) (args_ : list Statement)
    (env : loc) : M RuntimeValue :=
  fn ← E caller env;
  args ← mapM (fun arg => E arg env) args_;
  match fn with
  | FunctionValue _ _ _ _ _ _ => callFunction fn args env
  | NativeFunctionValue name receiver => native_call name receiver args env
  | _ => errorf "cannot call non-function value"
  end.

Definition evaluateMemberExpression (object_ property_ : Statement)
    (computed : bool) (env : loc) : M RuntimeValue :=
  object ← E object_ env;
  key ←
    (if computed then
       prop ← E property_ env;
       match prop with
       | StringValue s => mret s
       | NumberValue n => mret (FormatFloat_g n)
       | _ => errorf "invalid property key type"
       end
     else
       match property_ with
       | Identifier name => mret name
       | _ => errorf "invalid property access"
       end);
  st ← get;
  match object with
  | ArrayValue a =>
    let elements := elementsOf st a in
    let indexed :=
      index ← strconv_Atoi key;
      if (0 <=? index) && (index <? Z.of_nat (length elements))
      then elements !! Z.to_nat index else None in
    match indexed with
    | Some element => mret element
    | None => mret (lookupPrototype object key)
    end
  | ObjectValue o =>
    match propertiesOf st o !! key with
    | Some value => mret value
    | None => mret (lookupPrototype object key)
    end
  | _ => mret (lookupPrototype object key)
  end.

Definition evaluateTernaryExpression (condition_ consequent alternate : Statement)
    (env : loc) : M RuntimeValue :=
  condition ← E condition_ env;
  t ← truthy condition;
  if t : bool then E consequent env else E alternate env.

Definition evaluateTypeofExpression (value_ : Statement) (env : loc)
    : M RuntimeValue :=
  value ← E value_ env;
  mret (MakeString (ValueType_string (TypeOf value))).

Definition evaluateEqualityExpression (l r : Statement) (operator : string)
    (env : loc) : M RuntimeValue :=
  left ← E l env;
  right ← E r env;
  if String.eqb operator "==" then mret (MakeBool (isEqual left right))
  else if String.eqb operator "!=" then mret (MakeBool (negb (isEqual left right)))
  else errorf ("unsupported equality operator: " +:+ operator).

Definition evaluateInequalityExpression (l r : Statement) (operator : string)
    (env : loc) : M RuntimeValue :=
  left ← E l env;
  right ← E r env;
  match left, right with
  | NumberValue leftVal, NumberValue rightVal =>
    if String.eqb operator "<" then mret (MakeBool (leftVal <? rightVal)%float)
    else if String.eqb operator ">" then mret (MakeBool (rightVal <? leftVal)%float)
    else if String.eqb operator "<=" then mret (MakeBool (leftVal <=? rightVal)%float)
    else if String.eqb operator ">=" then mret (MakeBool (rightVal <=? leftVal)%float)
    else errorf ("unsupported inequality operator: " +:+ operator)
  | _, _ => errorf "cannot compare non-numeric values"
  end.

Definition evaluateLogicalExpression (l r : Statement) (operator : string)
    (env : loc) : M RuntimeValue :=
  left ← E l env;
  t ← truthy left;
  if String.eqb operator "&&" then
    if negb t then mret left else E r env
  else if String.eqb operator "||" then
    if t : bool then mret left else E r env
  else errorf ("unsupported logical operator: " +:+ operator).

Definition evaluateFunctionDeclaration (name : string) (parameters : list Param)
    (body : list Statement) (export : bool) (env : loc) : M RuntimeValue :=
  let anonymous := String.eqb name "" in
  let fn := MakeFunction name parameters body env export anonymous in
  if negb anonymous then _ ← DeclareVar env name fn true; mret fn
  else mret fn.

Definition flowValue (fl : flow) : RuntimeValue :=
  match fl with
  | Returned val => val
  | Completed result => result
  end.

Definition evaluateIfStatement (test : Statement) (consequent alternate : list Statement)
    (env : loc) : M RuntimeValue :=
  condition ← E test env;
  t ← truthy condition;
  if t : bool then
    fl ← execStatements consequent env MakeVoid; mret (flowValue fl)
  else if (0 <? length alternate)%nat then
    fl ← execStatements alternate env MakeVoid; mret (flowValue fl)
  else mret MakeVoid.

Fixpoint evaluateWhileStatement_loop (n : nat) (test : Statement)
    (consequent : list Statement) (env : loc) (result : RuntimeValue)
    : M RuntimeValue :=
  match n with
  | O => fail OutOfFuel
  | S n' =>
    condition ← E test env;
    t ← truthy condition;
    if negb t then mret result
    else
      fl ← execStatements consequent env result;
      match fl with
      | Returned val => mret val
      | Completed result' => evaluateWhileStatement_loop n' test consequent env result'
      end
  end.

Definition evaluateWhileStatement (test : Statement) (consequent : list Statement)
    (env : loc) : M RuntimeValue :=
  evaluateWhileStatement_loop fuel test consequent env MakeVoid.

Fixpoint evaluateForStatement_loop (n : nat) (test increaser : Statement)
    (body : list Statement) (forEnv : loc) (result : RuntimeValue) : M RuntimeValue :=
  match n with
  | O => fail OutOfFuel
  | S n' =>
    condition ← E test forEnv;
    t ← truthy condition;
    if negb t then mret result
    else
      fl ← execStatements body forEnv result;
      match fl with
      | Returned val => mret val
      | Completed result' =>
        _ ← E increaser forEnv;
        evaluateForStatement_loop n' test increaser body forEnv result'
      end
  end.

Definition evaluateForStatement (declaration test increaser : Statement)
    (body : list Statement) (env : loc) : M RuntimeValue :=
  forEnv ← NewEnvironment (Some env);
  _ ← E declaration forEnv;
  evaluateForStatement_loop fuel test increaser body forEnv MakeVoid.

Fixpoint evaluateDebugStatement_loop (props_ : list Statement) (env : loc)
    (props : list string) : M (list string) :=
  match props_ with
  | [] => mret props
  | prop :: rest =>
    value ← E prop env;
    st ← get;
    evaluateDebugStatement_loop rest env (props ++ [colorizeValue st value false false])
  end.

Definition evaluateDebugStatement (props_ : list Statement) (env : loc)
    : M RuntimeValue :=
  props ← evaluateDebugStatement_loop props_ env [];
  _ ← Println (formatDebug props);
  mret MakeVoid.
End Interpreter.

Section Evaluate.
Context `{FloatLib} `{Host}.

Fixpoint Evaluate (fuel : nat) (node : Statement) (env : loc) : M RuntimeValue :=
  match fuel with
  | O => fail OutOfFuel
  | S fuel' =>
    let E := Evaluate fuel' in
    match node with
    | Program body => evaluateProgram E body env
    | NumericLiteral value => mret (MakeNumber value)
    | StringLiteral value => evaluateStringLiteral fuel' value env
    | BooleanLiteral value => mret (MakeBool value)
    | UndefinedLiteral => mret MakeUndefined
    | NullLiteral => mret MakeNull
    | Identifier name => evaluateIdentifier name env
    | ArrayLiteral elements => evaluateArrayLiteral E elements env
    | ObjectLiteral properties => evaluateObjectLiteral E properties env
    | BinaryExpr l r op => evaluateBinaryExpression E fuel' l r op env
    | UnaryExpr v op => evaluateUnaryExpression E v op env
    | AssignmentExpr a v => evaluateAssignmentExpression E a v env
    | ActionAssignmentExpr a v action =>
      evaluateActionAssignmentExpression E a v action env
    | CallExpr caller args => evaluateCallExpression E caller args env
    | MemberExpr o p computed => evaluateMemberExpression E o p computed env
    | TernaryExpr c t e => evaluateTernaryExpression E c t e env
    | TypeofExpr v => evaluateTypeofExpression E v env
    | EqualityExpr l r op => evaluateEqualityExpression E l r op env
    | InequalityExpr l r op => evaluateInequalityExpression E l r op env
    | LogicalExpr l r op => evaluateLogicalExpression E l r op env
    | FunctionDeclaration name parameters body export =>
      evaluateFunctionDeclaration name parameters body export env
    | IfStatement test consequent alternate =>
      evaluateIfStatement E test consequent alternate env
    | WhileStatement test consequent =>
      evaluateWhileStatement E fuel' test consequent env
    | ForStatement declaration test increaser body =>
      evaluateForStatement E fuel' declaration test increaser body env
    | ReturnExpr v => value ← E v env; mret (MakeReturn value)
    | DebugStatement props => evaluateDebugStatement E props env
    | UseStatement _ => errorf ("unsupported AST node: " +:+ go_type_name node)
    end
  end.
End Evaluate.

(* ===================================================================== *)
(** * luna.go                                                             *)
(* ===================================================================== *)

Section Luna.
Context `{UnicodeTables} `{FloatLib} `{Host}.

(** [Luna.Evaluate]: tokenize, parse, evaluate in the environment of the
    instance.  [fuel] bounds the recursion of the parser and of the
    evaluator. *)
Definition Luna_Evaluate (fuel : nat) (env : loc) (code : string) : M RuntimeValue :=
  match Luna_Tokenize code with
  | None => fail OutOfFuel
  | Some (Err msg) => errorf msg
  | Some (NoErr tokens) =>
    match Luna_Parse fuel tokens with
    | PFuel => fail OutOfFuel
    | PErr msg => errorf msg
    | POk ast _ => Evaluate fuel ast env
    end
  end.
End Luna.

(* ===================================================================== *)
(** * A host without extensions                                           *)
(* ===================================================================== *)

(** The smallest instance of the parameters, on which closed programs are
    run: no letters, digits or spaces beyond Latin-1, no conversion
    outside the range that is computed here, maps visited in the order of
    their keys, and no native function. *)
Definition bareTables : UnicodeTables :=
  {| wide_IsSpace := fun _ => false;
     wide_IsDigit := fun _ => false;
     wide_IsLetter := fun _ => false |}.

Definition bareFloatLib : FloatLib :=
  {| ParseFloat_slow := fun s =>
       Err ("strconv.ParseFloat: parsing " +:+ s +:+ ": value out of range");
     FormatFloat_g := fun f => Itoa 0;
     fmt_Sprint_float64 := fun f => Itoa 0;
     int64_out_of_range := fun _ => - 2 ^ 63;
     math_Mod := fun a b => nan;
     math_Pow := fun a b => nan |}.

Definition bareHost : Host :=
  {| native_call := fun name _ _ _ => errorf ("native function " +:+ name);
     map_order := fun _ keys => keys;
     map_order_perm := fun _ keys => Permutation_refl keys;
     colorizeValue := fun _ _ _ _ => "";
     formatDebug := fun props => strings_Join props ", " |}.

(** A store with one root environment, at location 0. *)
Definition rootState : State := mkState [mkEnvironment None ∅ ∅] [] [] 0 [].

(* ===================================================================== *)
(** * Vocabulary of the properties                                        *)
(* ===================================================================== *)

(** ** Lexer *)

(** [t'] is [t] after some calls of [advance]: the same input, a position
    that went forward and did not pass the end. *)
Definition advanced (t t' : Tokenizer) : Prop :=
  input t' = input t /\ (position t <= position t')%nat
  /\ (position t' <= length (input t'))%nat.

(** The measure of the loops: the runes that are left. *)
Definition remaining (t : Tokenizer) : nat := length (input t) - position t.

(** What one iteration of [Tokenize] appends: tokens that are not the
    end-of-stream token. *)
Definition appended (tokens out : list Token) : Prop :=
  exists mid, out = tokens ++ mid /\ Forall (fun k => Token_Type k <> EOF) mid.

(** ** Environments *)

(** [in_chain st env c]: the environment [c] is [env] or one of its
    ancestors along the parent references. *)
Inductive in_chain (st : State) : loc -> loc -> Prop :=
  | chain_here env : in_chain st env env
  | chain_up env e p c :
      envs st !! env = Some e -> parent e = Some p -> in_chain st p c ->
      in_chain st env c.

(** [name] is bound in no environment of the chain of [env]. *)
Definition unbound (st : State) (env : loc) (name : string) : Prop :=
  forall c e, in_chain st env c -> envs st !! c = Some e -> variables e !! name = None.


(** The stores that the interpreter builds: the parent of an environment
    was created before it.  Such a chain has no cycle and leads to a root. *)
Definition wf_store (st : State) : Prop :=
  forall l e p, envs st !! l = Some e -> parent e = Some p -> (p < l)%nat.

(** The names bound in the environment at [l]. *)
Definition names (st : State) (l : loc) : gset string :=
  match envs st !! l with
  | Some e => dom (variables e)
  | None => ∅
  end.

(** The value bound to [name] in the environment at [l] itself. *)
Definition bound_here (st : State) (l : loc) (name : string) : option RuntimeValue :=
  e ← envs st !! l; variables e !! name.


(** A root environment where [x] is the constant [1], and a child scope. *)
Definition shadowStore : State :=
  mkState
    [mkEnvironment None {["x" := NumberValue 1]} {["x" := true]};
     mkEnvironment (Some 0%nat) ∅ ∅]
    [] [] 0 [].


Definition assignment (name : string) (b : float) : Statement :=
  AssignmentExpr (Identifier name) (NumericLiteral b).

(** The parsing of a source text alone. *)
Definition parseSource `{UnicodeTables} `{FloatLib} (fuel : nat) (code : string)
    : option Statement :=
  match Luna_Tokenize code with
  | Some (NoErr tokens) =>
    match Luna_Parse fuel tokens with
    | POk ast _ => Some ast
    | _ => None
    end
  | _ => None
  end.

(** A newline in a source text. *)
Definition nl : string := String "010" "".

(** ** Function calls *)

(** The claim that a call whose body runs to its end without a
    return-signal returns void.  [E] evaluates the statements of the body;
    [Completed] is the end of the body without a return-signal. *)
Definition call_without_return_is_void (E : Statement -> loc -> M RuntimeValue)
    (fn : RuntimeValue) (args : list RuntimeValue) (env : loc) (st : State) : Prop :=
  match fn with
  | FunctionValue _ parameters body declarationEnv _ _ =>
    forall fnEnv st0 st1 result st2,
      NewEnvironment (Some declarationEnv) st = (Ok fnEnv, st0) ->
      bindParameters E parameters 0 args declarationEnv fnEnv st0 = (Ok tt, st1) ->
      execStatements E body fnEnv MakeVoid st1 = (Ok (Completed result), st2) ->
      callFunction E fn args env st = (Ok MakeVoid, st2)
  | _ => True
  end.

(** [fn five { 5 }], declared in the root environment. *)
Definition fiveFunction : RuntimeValue :=
  FunctionValue "five" [] [NumericLiteral 5] 0%nat false false.

(** ** Arrays *)

(** A store with the one-element array [[1]] at location 0, bound to [a]
    in the root environment. *)
Definition arrayStore : State :=
  mkState [mkEnvironment None {["a" := ArrayValue 0%nat]} ∅]
          [[NumberValue 1]] [] 0 [].

(** ** Parser *)

(** The parser after [eat]. *)
Definition after_eat (p : Parser) : Parser :=
  mkParser (Parser_tokens p) (S (Parser_position p)) (Parser_code p).

(** ** Scopes *)

(** The nodes whose evaluation calls no function: every node but a call
    expression.  A function declaration only builds a closure: its body is
    not evaluated at the declaration. *)
Fixpoint call_free (node : Statement) : bool :=
  match node with
  | CallExpr _ _ => false
  | Program body => forallb call_free body
  | ArrayLiteral elements => forallb call_free elements
  | ObjectLiteral properties => forallb (fun prop => call_free (Prop_Value prop)) properties
  | BinaryExpr l r _ | EqualityExpr l r _ | InequalityExpr l r _ | LogicalExpr l r _ =>
    call_free l && call_free r
  | UnaryExpr v _ | TypeofExpr v | ReturnExpr v => call_free v
  | AssignmentExpr a v | ActionAssignmentExpr a v _ => call_free a && call_free v
  | MemberExpr o p _ => call_free o && call_free p
  | TernaryExpr c t e => call_free c && call_free t && call_free e
  | IfStatement test consequent alternate =>
    call_free test && forallb call_free consequent && forallb call_free alternate
  | WhileStatement test consequent => call_free test && forallb call_free consequent
  | ForStatement declaration test increaser body =>
    call_free declaration && call_free test && call_free increaser
    && forallb call_free body
  | DebugStatement props => forallb call_free props
  | _ => true
  end.

(** [frame env st st']: from [st] to [st'] the environments that existed
    are still there with the parent they had and with at least the names
    they had, and those other than [env] have exactly the names they had. *)
Definition frame (env : loc) (st st' : State) : Prop :=
  (length (envs st) <= length (envs st'))%nat
  /\ (forall l : loc, (l < length (envs st))%nat ->
        parent <$> envs st' !! l = parent <$> envs st !! l
        /\ names st l ⊆ names st' l)
  /\ (forall l : loc, (l < length (envs st))%nat -> l <> env ->
        names st' l = names st l).

(** Every run of [m] relates the store before it to the store after it
    by [P], whether it returns a value or fails. *)
Definition preserves {A} (P : State -> State -> Prop) (m : M A) : Prop :=
  forall st r st', m st = (r, st') -> P st st'.

(** [m] never changes the environments. *)
Definition stable {A} (m : M A) : Prop := forall st, envs (m st).2 = envs st.

(** The declaration [name: var = value]. *)
Definition varDeclaration (name : string) (value : Statement) : Statement :=
  ActionAssignmentExpr (Identifier name) value (mkActionExpr "var" []).

(** The loop [for i = 0; i < 3; i++ { z: var = i }]. *)
Definition countingLoop : Statement :=
  ForStatement (assignment "i" 0)
    (InequalityExpr (Identifier "i") (NumericLiteral 3) "<")
    (UnaryExpr (Identifier "i") "++_post")
    [varDeclaration "z" (Identifier "i")].

(* ===================================================================== *)
(** * prototype.go                                                        *)
(* ===================================================================== *)

(** [float64(len(x))]. *)
Definition float_of_len (n : nat) : float := float_of_int64 (Z.of_nat n).

(** The run-time panics of an index and of a slice expression. *)
Definition indexPanic (index : Z) (len : nat) : string :=
  if index <? 0 then "runtime error: index out of range [" +:+ Itoa index +:+ "]"
  else indexOutOfRange index len.

Definition slicePanic (low high : Z) : string :=
  if low <? 0 then "runtime error: slice bounds out of range [" +:+ Itoa low +:+ ":]"
  else "runtime error: slice bounds out of range [" +:+ Itoa low +:+ ":"
       +:+ Itoa high +:+ "]".

(** [strings.Split s sep] for a non-empty [sep]: the text is cut at the
    non-overlapping occurrences of [sep], from left to right.  [skip]
    counts the bytes of an occurrence that are still to be dropped and
    [cur] is the piece that is being read. *)
Fixpoint split_from (skip : nat) (s sep cur : string) : list string :=
  match s with
  | EmptyString => [cur]
  | String c s' =>
    match skip with
    | S k => split_from k s' sep cur
    | O =>
      if String.prefix sep s
      then cur :: split_from (String.length sep - 1) s' sep ""
      else split_from O s' sep (cur +:+ String c "")
    end
  end.

(** With an empty separator [strings.Split] cuts the text into its UTF-8
    sequences; that cut is left to the library. *)
Class StringsLib := {
  strings_explode : string -> list string
}.

Definition strings_Split `{StringsLib} (s sep : string) : list string :=
  if (String.length sep =? 0)%nat then strings_explode s
  else split_from O s sep "".

(** The receiver of an array method is the pointer to the array, the
    receiver of a string method is the string value. *)

Definition arrayLength (a : loc) (args : list RuntimeValue) (env : loc)
    : M RuntimeValue :=
  st ← get;
  mret (MakeNumber (float_of_len (length (elementsOf st a)))).

Definition arrayPush (a : loc) (args : list RuntimeValue) (env : loc)
    : M RuntimeValue :=
  if (length args =? 0)%nat then errorf "array.push requires at least one argument"
  else
    st ← get;
    let elements := elementsOf st a ++ args in
    _ ← setElements a elements;
    mret (MakeNumber (float_of_len (length elements))).

Definition arrayPop (a : loc) (args : list RuntimeValue) (env : loc)
    : M RuntimeValue :=
  st ← get;
  let elements := elementsOf st a in
  if (length elements =? 0)%nat then errorf "array.pop called on an empty array"
  else
    let lastIndex := (length elements - 1)%nat in
    match elements !! lastIndex with
    | Some poppedElement =>
      _ ← setElements a (take lastIndex elements);
      mret poppedElement
    | None => panic (indexPanic (Z.of_nat lastIndex) (length elements))
    end.

(** [for _, elem := range a.Elements]: the contents of the elements, which
    must all be strings. *)
Fixpoint arrayJoin_parts (elements : list RuntimeValue) (parts : list string)
    : goerror (list string) :=
  match elements with
  | [] => NoErr parts
  | StringValue strElem :: rest => arrayJoin_parts rest (parts ++ [strElem])
  | _ :: _ => Err "array.join elements must be strings"
  end.

Definition arrayJoin (a : loc) (args : list RuntimeValue) (env : loc)
    : M RuntimeValue :=
  match args with
  | [arg] =>
    match arg with
    | StringValue separator =>
      st ← get;
      match arrayJoin_parts (elementsOf st a) [] with
      | NoErr parts => mret (MakeString (strings_Join parts separator))
      | Err msg => errorf msg
      end
    | _ => errorf "array.join argument must be a string"
    end
  | _ => errorf "array.join requires exactly one argument"
  end.

Definition stringLength (s : string) (args : list RuntimeValue) (env : loc)
    : M RuntimeValue :=
  mret (MakeNumber (float_of_len (String.length s))).

Section Prototype.
Context `{FloatLib} `{Host} `{StringsLib}.

(** [fuel] bounds the nesting of [String()]. *)
Variable fuel : nat.

(** [elem.Type() == element.Type() && elem.String() == element.String()]:
    the display strings are computed only for elements of the same type. *)
Fixpoint arrayIncludes_loop (elements : list RuntimeValue) (element : RuntimeValue)
    : M bool :=
  match elements with
  | [] => mret false
  | elem :: rest =>
    if bool_decide (TypeOf elem = TypeOf element) then
      elemStr ← String_ fuel elem;
      elementStr ← String_ fuel element;
      if String.eqb elemStr elementStr then mret true
      else arrayIncludes_loop rest element
    else arrayIncludes_loop rest element
  end.

Definition arrayIncludes (a : loc) (args : list RuntimeValue) (env : loc)
    : M RuntimeValue :=
  match args with
  | [element] =>
    st ← get;
    found ← arrayIncludes_loop (elementsOf st a) element;
    mret (MakeBool found)
  | _ => errorf "array.includes requires exactly one argument"
  end.

(** [string(s.Value[i])]: the conversion of one byte to a string is the
    UTF-8 encoding of the code point of that value. *)
Definition stringCharAt (s : string) (args : list RuntimeValue) (env : loc)
    : M RuntimeValue :=
  match args with
  | [arg] =>
    match arg with
    | NumberValue index =>
      let i := int64_of_float index in
      if (index <? 0)%float || (Z.of_nat (String.length s) <=? i)
      then mret (MakeString "")
      else
        match (if i <? 0 then None else String.get (Z.to_nat i) s) with
        | Some b => mret (MakeString (utf8_encode (byte_of b)))
        | None => panic (indexPanic i (String.length s))
        end
    | _ => errorf "string.charAt argument must be a number"
    end
  | _ => errorf "string.charAt requires exactly one argument"
  end.

Definition stringSubstring (s : string) (args : list RuntimeValue) (env : loc)
    : M RuntimeValue :=
  if (length args <? 1)%nat || (2 <? length args)%nat
  then errorf "string.substring requires one or two arguments"
  else
    match args !! 0%nat with
    | Some (NumberValue start) =>
      let len := Z.of_nat (String.length s) in
      end_ ←
        (match args !! 1%nat with
         | None => mret len
         | Some (NumberValue endArg) => mret (int64_of_float endArg)
         | Some _ => errorf "string.substring second argument must be a number"
         end);
      if (start <? 0)%float || (float_of_len (String.length s) <? start)%float
         || (end_ <? 0) || (len <? end_)
      then errorf "string.substring indices out of bounds"
      else
        let low := int64_of_float start in
        if (low <? 0) || (end_ <? low) then panic (slicePanic low end_)
        else mret (MakeString
                     (String.substring (Z.to_nat low) (Z.to_nat (end_ - low)) s))
    | _ => errorf "string.substring first argument must be a number"
    end.

Definition stringSplit (s : string) (args : list RuntimeValue) (env : loc)
    : M RuntimeValue :=
  match args with
  | [arg] =>
    match arg with
    | StringValue separator =>
      MakeArray (MakeString <$> strings_Split s separator)
    | _ => errorf "string.split argument must be a string"
    end
  | _ => errorf "string.split requires exactly one argument"
  end.
End Prototype.

(* ===================================================================== *)
(** * values.go: the closures of the prototype methods                   *)
(* ===================================================================== *)

Section Methods.
Context `{FloatLib} `{Host}.

(** [E] is [Evaluate]; [fuel] bounds the nesting of [String()]. *)
Variable E : Statement -> loc -> M RuntimeValue.
Variable fuel : nat.

(** The method [string] of a number renders its argument. *)
Definition NumberValue_string (n : float) (args : list RuntimeValue) (env : loc)
    : M RuntimeValue :=
  match args with
  | [arg] => str ← String_ fuel arg; mret (MakeString str)
  | _ => errorf "string() requires 1 argument"
  end.

Definition BooleanValue_string (b : bool) (args : list RuntimeValue) (env : loc)
    : M RuntimeValue :=
  if b then mret (MakeString "true") else mret (MakeString "false").

Definition ObjectValue_keys (o : loc) (args : list RuntimeValue) (env : loc)
    : M RuntimeValue :=
  st ← get;
  bindings ← rangeMap (propertiesOf st o);
  MakeArray (MakeString <$> bindings.*1).

Definition ObjectValue_values (o : loc) (args : list RuntimeValue) (env : loc)
    : M RuntimeValue :=
  st ← get;
  bindings ← rangeMap (propertiesOf st o);
  MakeArray (bindings.*2).

(** [for i, param := range f.Parameters { callEnv.DeclareVar(param.Name,
    args[i], false) }], entered with as many arguments as parameters. *)
Fixpoint call_declare (parameters : list Param) (i : nat) (args : list RuntimeValue)
    (callEnv : loc) : M unit :=
  match parameters with
  | [] => mret tt
  | param :: rest =>
    match args !! i with
    | Some arg =>
      _ ← DeclareVar callEnv (Param_Name param) arg false;
      call_declare rest (S i) args callEnv
    | None => panic (indexPanic (Z.of_nat i) (length args))
    end
  end.

(** The body loop of the method [call]: the value of the first
    return-signal, or [nil] ([None]) when the body ends without one. *)
Fixpoint call_body (body : list Statement) (callEnv : loc)
    : M (option RuntimeValue) :=
  match body with
  | [] => mret None
  | stmt :: rest =>
    result ← E stmt callEnv;
    match result with
    | ReturnValue value => mret (Some value)
    | _ => call_body rest callEnv
    end
  end.

(** The method [call] of the function value with these fields. *)
Definition FunctionValue_call (Name : string) (Parameters : list Param)
    (Body : list Statement) (DeclarationEnv : loc)
    (args : list RuntimeValue) (env : loc) : M RuntimeValue :=
  if (length args <? length Parameters)%nat
  then errorf ("not enough arguments to call function " +:+ Name)
  else if (length Parameters <? length args)%nat
  then errorf ("too many arguments to call function " +:+ Name)
  else
    callEnv ← NewEnvironment (Some DeclarationEnv);
    _ ← call_declare Parameters 0 args callEnv;
    returnValue ← call_body Body callEnv;
    match returnValue with
    | None => mret MakeVoid
    | Some value => mret value
    end.
End Methods.

(* ===================================================================== *)
(** * The native function [length]                                        *)
(* ===================================================================== *)

Definition native_length (args : list RuntimeValue) (env : loc) : M RuntimeValue :=
  match args with
  | [arg] =>
    match arg with
    | StringValue s => mret (MakeNumber (float_of_len (String.length s)))
    | ArrayValue a =>
      st ← get; mret (MakeNumber (float_of_len (length (elementsOf st a))))
    | ObjectValue o =>
      st ← get; mret (MakeNumber (float_of_len (size (propertiesOf st o))))
    | _ => errorf ("length not supported for type " +:+ ValueType_string (TypeOf arg))
    end
  | _ => errorf ("length expects 1 argument, got " +:+ Itoa (Z.of_nat (length args)))
  end.

(* ===================================================================== *)
(** * main.go: the bracket counters of the prompt                        *)
(* ===================================================================== *)

Definition isOpening (char : rune) : bool :=
  (char =? rn "{") || (char =? rn "(") || (char =? rn "[").

Definition isClosing (char : rune) : bool :=
  (char =? rn "}") || (char =? rn ")") || (char =? rn "]").

Definition isQuote (char : rune) : bool := (char =? rn dquote) || (char =? rn "'").

(** [for _, char := range input]: the loop of [isBalanced] over the runes
    of the input.  [stack] is a Go [int]; it stays far from its bounds,
    since it moves by one per rune. *)
Fixpoint isBalanced_loop (chars : list rune) (stack : Z) (inString escaped : bool)
    : Z :=
  match chars with
  | [] => stack
  | char :: rest =>
    if escaped then isBalanced_loop rest stack inString false
    else if char =? rn "\" then isBalanced_loop rest stack inString true
    else if isQuote char then isBalanced_loop rest stack (negb inString) escaped
    else if negb inString then
      if isOpening char then isBalanced_loop rest (stack + 1) inString escaped
      else if isClosing char then isBalanced_loop rest (stack - 1) inString escaped
      else isBalanced_loop rest stack inString escaped
    else isBalanced_loop rest stack inString escaped
  end.

Definition isBalanced (input : string) : bool :=
  isBalanced_loop (runes_of_string input) 0 false false =? 0.

Fixpoint countNesting_loop (chars : list rune) (stack : Z) (inString escaped : bool)
    : Z :=
  match chars with
  | [] => stack
  | char :: rest =>
    if escaped then countNesting_loop rest stack inString false
    else if char =? rn "\" then countNesting_loop rest stack inString true
    else if isQuote char then countNesting_loop rest stack (negb inString) escaped
    else if negb inString then
      if isOpening char then countNesting_loop rest (stack + 1) inString escaped
      else if isClosing char then
        if 0 <? stack then countNesting_loop rest (stack - 1) inString escaped
        else countNesting_loop rest stack inString escaped
      else countNesting_loop rest stack inString escaped
    else countNesting_loop rest stack inString escaped
  end.

Definition countNesting (input : string) : Z :=
  countNesting_loop (runes_of_string input) 0 false false.

(* ===================================================================== *)
(** * Vocabulary of further properties                                    *)
(* ===================================================================== *)

(** The token types of the keyword table. *)
Definition keywordTypes : list TokenType :=
  [FN; LAMBDA; IF; ELSE; RETURN; TYPEOF; FOR; WHILE; DEBUG; USE; OUT; BOOLEAN;
   UNDEFINED].

(** A word as the lexer types it: an identifier is no keyword, and a token
    of a keyword type carries the text of that keyword. *)
Definition lexed_word (k : Token) : Prop :=
  (Token_Type k = IDENTIFIER -> keywords !! Token_Value k = None)
  /\ (Token_Type k ∈ keywordTypes -> keywords !! Token_Value k = Some (Token_Type k)).

(** The tokens are in the order of the source: their offsets increase. *)
Definition in_source_order (tokens : list Token) : Prop :=
  forall (i j : nat) a b,
    (i < j)%nat -> tokens !! i = Some a -> tokens !! j = Some b ->
    (Index (Token_Position a) < Index (Token_Position b))%nat.

(** A binary level of the parser associates to the left: where three
    operands are separated by two operators that the level accepts, the
    first two operands are grouped. *)
Definition left_associative (level operand : PM Statement) (accepts : Token -> bool)
    (mk : Statement -> Statement -> string -> Statement) : Prop :=
  forall p a p1 b p2 c p3,
    operand p = POk a p1 -> accepts (at_ p1) = true ->
    operand (after_eat p1) = POk b p2 -> accepts (at_ p2) = true ->
    operand (after_eat p2) = POk c p3 -> accepts (at_ p3) = false ->
    level p
    = POk (mk (mk a b (Token_Value (at_ p1))) c (Token_Value (at_ p2))) p3.

(* ===================================================================== *)
(** * The lexer: progress and the end-of-stream token                     *)
(* ===================================================================== *)

Lemma advanced_refl t : (position t <= length (input t))%nat -> advanced t t.
Proof. unfold advanced; auto. Qed.

Lemma advanced_trans t1 t2 t3 : advanced t1 t2 -> advanced t2 t3 -> advanced t1 t3.
Proof.
  unfold advanced. intros (Hi1 & Hp1 & Hl1) (Hi2 & Hp2 & Hl2).
  repeat split; [congruence | lia | assumption].
Qed.

Lemma advance_advanced t :
  (position t <= length (input t))%nat -> advanced t (advance t).
Proof.
  intros Hle. unfold advanced, advance.
  destruct (position t <? length (input t))%nat eqn:Hlt; simpl; [|auto].
  apply Nat.ltb_lt in Hlt. repeat split; lia.
Qed.

Lemma advance_position t :
  (position t < length (input t))%nat -> position (advance t) = S (position t).
Proof.
  intros Hlt. unfold advance.
  apply Nat.ltb_lt in Hlt. rewrite Hlt. reflexivity.
Qed.

Lemma advance_strict t t' :
  (position t < length (input t))%nat -> advanced (advance t) t' ->
  advanced t t' /\ (position t < position t')%nat.
Proof.
  intros Hlt Ha. pose proof (advance_position t Hlt) as Hp.
  split.
  - eapply advanced_trans; [apply advance_advanced; lia | exact Ha].
  - destruct Ha as (_ & Ha & _). lia.
Qed.

Create HintDb lexer.
#[local] Hint Resolve advanced_refl advance_advanced : lexer.

Lemma remaining_advance t :
  (position t < length (input t))%nat -> remaining (advance t) = pred (remaining t).
Proof.
  intros Hlt. unfold remaining. rewrite advance_position by assumption.
  unfold advance. apply Nat.ltb_lt in Hlt. rewrite Hlt. simpl. lia.
Qed.

Ltac loop_head Hlt :=
  match goal with
  | |- context [(position ?t <? length (input ?t))%nat] =>
    destruct (position t <? length (input t))%nat eqn:Hlt;
    [apply Nat.ltb_lt in Hlt | apply Nat.ltb_ge in Hlt]
  | H : context [(position ?t <? length (input ?t))%nat] |- _ =>
    destruct (position t <? length (input t))%nat eqn:Hlt;
    [apply Nat.ltb_lt in Hlt | apply Nat.ltb_ge in Hlt]
  end.

Section ReaderLemmas.
Context `{UnicodeTables}.

Lemma readString_loop_advanced fuel quote : forall t result escaped r t',
  (position t <= length (input t))%nat ->
  readString_loop fuel quote t result escaped = Some (r, t') -> advanced t t'.
Proof.
  induction fuel as [|fuel IH]; intros t result escaped r t' Hle Hrun;
    simpl in Hrun; loop_head Hlt; simplify_eq; auto with lexer.
  repeat case_match; simplify_eq;
    try (apply IH in Hrun; [|apply advance_advanced; lia]);
    try (eapply advanced_trans; [apply advance_advanced; lia | eassumption]);
    auto with lexer.
Qed.

Lemma readString_loop_total fuel quote : forall t result escaped,
  (remaining t <= fuel)%nat ->
  is_Some (readString_loop fuel quote t result escaped).
Proof.
  induction fuel as [|fuel IH]; intros t result escaped Hfuel; simpl;
    loop_head Hlt; try done; try (unfold remaining in Hfuel; lia).
  assert (remaining (advance t) <= fuel)%nat
    by (rewrite remaining_advance by assumption; lia).
  repeat case_match; auto.
Qed.

Lemma readNumber_loop_advanced fuel : forall t result isFloat r f t',
  (position t <= length (input t))%nat ->
  readNumber_loop fuel t result isFloat = Some (r, f, t') -> advanced t t'.
Proof.
  induction fuel as [|fuel IH]; intros t result isFloat r f t' Hle Hrun;
    simpl in Hrun; repeat case_match; simplify_eq; auto with lexer.
  all: apply IH in Hrun; [|apply advance_advanced; lia].
  all: eapply advanced_trans; [apply advance_advanced; lia | eassumption].
Qed.

Lemma readNumber_loop_total fuel : forall t result isFloat,
  (remaining t <= fuel)%nat -> is_Some (readNumber_loop fuel t result isFloat).
Proof.
  induction fuel as [|fuel IH]; intros t result isFloat Hfuel; simpl;
    loop_head Hlt; simpl; try done; try (unfold remaining in Hfuel; lia).
  assert (remaining (advance t) <= fuel)%nat
    by (rewrite remaining_advance by assumption; lia).
  repeat case_match; auto.
Qed.

Lemma readIdentifier_loop_advanced fuel : forall t result r t',
  (position t <= length (input t))%nat ->
  readIdentifier_loop fuel t result = Some (r, t') -> advanced t t'.
Proof.
  induction fuel as [|fuel IH]; intros t result r t' Hle Hrun;
    simpl in Hrun; repeat case_match; simplify_eq; auto with lexer.
  all: apply IH in Hrun; [|apply advance_advanced; lia].
  all: eapply advanced_trans; [apply advance_advanced; lia | eassumption].
Qed.

Lemma readIdentifier_loop_total fuel : forall t result,
  (remaining t <= fuel)%nat -> is_Some (readIdentifier_loop fuel t result).
Proof.
  induction fuel as [|fuel IH]; intros t result Hfuel; simpl;
    loop_head Hlt; simpl; try done; try (unfold remaining in Hfuel; lia).
  assert (remaining (advance t) <= fuel)%nat
    by (rewrite remaining_advance by assumption; lia).
  repeat case_match; auto.
Qed.

Lemma readOperator_loop_advanced fuel : forall t result r t',
  (position t <= length (input t))%nat ->
  readOperator_loop fuel t result = Some (r, t') -> advanced t t'.
Proof.
  induction fuel as [|fuel IH]; intros t result r t' Hle Hrun;
    simpl in Hrun; repeat case_match; simplify_eq; auto with lexer.
  all: apply IH in Hrun; [|apply advance_advanced; lia].
  all: eapply advanced_trans; [apply advance_advanced; lia | eassumption].
Qed.

Lemma readOperator_loop_total fuel : forall t result,
  (remaining t <= fuel)%nat -> is_Some (readOperator_loop fuel t result).
Proof.
  induction fuel as [|fuel IH]; intros t result Hfuel; simpl;
    loop_head Hlt; simpl; try done; try (unfold remaining in Hfuel; lia).
  assert (remaining (advance t) <= fuel)%nat
    by (rewrite remaining_advance by assumption; lia).
  repeat case_match; auto.
Qed.

Lemma skipComment_advanced fuel : forall t t',
  (position t <= length (input t))%nat ->
  skipComment fuel t = Some t' -> advanced t t'.
Proof.
  induction fuel as [|fuel IH]; intros t t' Hle Hrun;
    simpl in Hrun; repeat case_match; simplify_eq; auto with lexer.
  all: apply IH in Hrun; [|apply advance_advanced; lia].
  all: eapply advanced_trans; [apply advance_advanced; lia | eassumption].
Qed.

Lemma skipComment_total fuel : forall t,
  (remaining t <= fuel)%nat -> is_Some (skipComment fuel t).
Proof.
  induction fuel as [|fuel IH]; intros t Hfuel; simpl;
    loop_head Hlt; simpl; try done; try (unfold remaining in Hfuel; lia).
  assert (remaining (advance t) <= fuel)%nat
    by (rewrite remaining_advance by assumption; lia).
  repeat case_match; auto.
Qed.
End ReaderLemmas.

Lemma keywords_not_EOF identifier ty : keywords !! identifier = Some ty -> ty <> EOF.
Proof.
  unfold keywords. intros Hin%elem_of_list_to_map_2.
  repeat (apply elem_of_cons in Hin as [Heq|Hin]; [by simplify_eq|]).
  by apply elem_of_nil in Hin.
Qed.

Lemma getOperatorType_not_EOF op : getOperatorType op <> EOF.
Proof. unfold getOperatorType. repeat case_match; done. Qed.

Lemma appended_refl tokens : appended tokens tokens.
Proof. exists []. by rewrite app_nil_r. Qed.

Lemma appended_one tokens ty value pos :
  ty <> EOF -> appended tokens (tokens ++ [mkToken ty value pos]).
Proof. intros Hty. exists [mkToken ty value pos]. split; [done|]. by repeat constructor. Qed.

Lemma appended_trans a b c : appended a b -> appended b c -> appended a c.
Proof.
  intros (m1 & -> & H1) (m2 & -> & H2). exists (m1 ++ m2).
  split; [by rewrite app_assoc | by apply Forall_app].
Qed.

Section TokenizeLemmas.
Context `{UnicodeTables}.

(** A reader that is entered on a rune it accepts consumes that rune. *)
Lemma skipComment_strict n t t' :
  (position t < length (input t))%nat -> (current t =? rn "010") = false ->
  skipComment n t = Some t' -> advanced (advance t) t'.
Proof.
  intros Hlt Hnl Hs. pose proof Hlt as Hlt'%Nat.ltb_lt.
  destruct n; simpl in Hs; rewrite Hlt', Hnl in Hs; simpl in Hs; [done|].
  apply skipComment_advanced in Hs; [done|]. apply advance_advanced; lia.
Qed.

Lemma readNumber_strict n t r f t' :
  (position t < length (input t))%nat -> unicode_IsDigit (current t) = true ->
  readNumber n t = Some (r, f, t') -> advanced (advance t) t'.
Proof.
  intros Hlt Hd Hs. pose proof Hlt as Hlt'%Nat.ltb_lt. unfold readNumber in Hs.
  destruct n; simpl in Hs; rewrite Hlt', Hd in Hs; simpl in Hs; [done|].
  rewrite andb_false_r in Hs.
  apply readNumber_loop_advanced in Hs; [done|]. apply advance_advanced; lia.
Qed.

Lemma readIdentifier_strict n t r t' :
  (position t < length (input t))%nat ->
  unicode_IsLetter (current t) || (current t =? rn "_") = true ->
  readIdentifier n t = Some (r, t') -> advanced (advance t) t'.
Proof.
  intros Hlt Hd Hs. pose proof Hlt as Hlt'%Nat.ltb_lt. unfold readIdentifier in Hs.
  assert (Hc : unicode_IsLetter (current t) || unicode_IsDigit (current t)
               || (current t =? rn "_") = true)
    by (destruct (unicode_IsLetter (current t)), (unicode_IsDigit (current t));
        simpl in *; done).
  destruct n; simpl in Hs; rewrite Hlt', Hc in Hs; simpl in Hs; [done|].
  apply readIdentifier_loop_advanced in Hs; [done|]. apply advance_advanced; lia.
Qed.

Lemma readOperator_strict n t r t' :
  (position t < length (input t))%nat -> isOperator (current t) = true ->
  readOperator n t = Some (r, t') -> advanced (advance t) t'.
Proof.
  intros Hlt Hd Hs. pose proof Hlt as Hlt'%Nat.ltb_lt. unfold readOperator in Hs.
  assert (Hadv : advanced (advance t) (advance t))
    by (apply advanced_refl, advance_advanced; lia).
  destruct n; simpl in Hs; rewrite Hlt', Hd in Hs; simpl in Hs; [done|].
  case_match; simplify_eq; [done|].
  apply readOperator_loop_advanced in Hs; [done|]. apply advance_advanced; lia.
Qed.

Lemma Tokenize_step_spec n t tokens out t' :
  (position t < length (input t))%nat ->
  Tokenize_step n t tokens = Some (NoErr out, t') ->
  advanced t t' /\ (position t < position t')%nat /\ appended tokens out.
Proof.
  intros Hlt Hstep. unfold Tokenize_step, single in Hstep.
  assert (Hgo : forall t1, advanced (advance t) t1 ->
               advanced t t1 /\ (position t < position t1)%nat)
    by (intros; by apply advance_strict).
  assert (Hadv : advanced (advance t) (advance t))
    by (apply advanced_refl, advance_advanced; lia).
  repeat first
    [ progress simplify_option_eq
    | match goal with p : (_ * _)%type |- _ => destruct p end
    | case_match ].
  all: try (destruct (Hgo _ Hadv); split_and!; auto using appended_refl;
            apply appended_one; done).
  1: { (* newline *)
    set (t0 := mkTokenizer (input t) (position t) (S (line t)) 0).
    assert (Hp : position (advance t0) = S (position t))
      by (apply (advance_position t0); exact Hlt).
    split_and!; [|lia|by apply appended_one].
    unfold advanced. rewrite Hp. unfold advance; simpl.
    apply Nat.ltb_lt in Hlt. rewrite Hlt. simpl.
    apply Nat.ltb_lt in Hlt. split_and!; [done|lia|lia]. }
  all: try match goal with
    | Hs : skipComment _ _ = _ |- _ =>
      apply skipComment_strict in Hs; [|done..]; destruct (Hgo _ Hs)
    | Hs : readString _ _ _ = _ |- _ =>
      apply readString_loop_advanced in Hs; [|apply advance_advanced; lia];
      destruct (Hgo _ Hs)
    | Hs : readNumber _ _ = _ |- _ =>
      apply readNumber_strict in Hs; [|done..]; destruct (Hgo _ Hs)
    | Hs : readIdentifier _ _ = _ |- _ =>
      apply readIdentifier_strict in Hs; [|done..]; destruct (Hgo _ Hs)
    | Hs : readOperator _ _ = _ |- _ =>
      apply readOperator_strict in Hs; [|done..]; destruct (Hgo _ Hs)
    end.
  all: split_and!; auto using appended_refl.
  all: apply appended_one; auto using getOperatorType_not_EOF.
  destruct (keywords !! _) eqn:Hk; simpl; [by eapply keywords_not_EOF|done].
Qed.
End TokenizeLemmas.

Section TokenizeTheorems.
Context `{UnicodeTables}.

Lemma Tokenize_loop_spec fuel : forall t tokens out,
  (position t <= length (input t))%nat ->
  Tokenize_loop fuel t tokens = Some (NoErr out) ->
  exists mid pos,
    out = tokens ++ mid ++ [mkToken EOF "" pos]
    /\ Index pos = length (input t)
    /\ Forall (fun k => Token_Type k <> EOF) mid.
Proof.
  induction fuel as [|fuel IH]; intros t tokens out Hle Hrun; simpl in Hrun;
    loop_head Hlt; simplify_eq.
  - exists [], (here t). simpl. split_and!; [done|lia|done].
  - destruct (Tokenize_step _ t tokens) as [[[tokens'|msg] t']|] eqn:Hstep;
      simplify_eq/=.
    destruct (Tokenize_step_spec _ _ _ _ _ Hlt Hstep)
      as ((Hin & _ & Hle') & _ & (mid0 & -> & Hmid0)).
    destruct (IH _ _ _ Hle' Hrun) as (mid & pos & -> & Hpos & Hmid).
    exists (mid0 ++ mid), pos. rewrite <- !app_assoc.
    split_and!; [done|congruence|by apply Forall_app].
  - exists [], (here t). simpl. split_and!; [done|lia|done].
Qed.

Lemma Tokenize_step_total n t tokens :
  (position t < length (input t))%nat -> (remaining t <= n)%nat ->
  is_Some (Tokenize_step n t tokens).
Proof.
  intros Hlt Hn. unfold Tokenize_step, single, readString, readNumber,
    readIdentifier, readOperator.
  assert (remaining (advance t) <= n)%nat
    by (rewrite remaining_advance by assumption; lia).
  repeat case_match; try done.
  - destruct (skipComment_total n t Hn) as [? ->]. done.
  - destruct (readString_loop_total n (current t) (advance t) "" false) as [[[] ?] ->];
      done.
  - destruct (readNumber_loop_total n t "" false Hn) as [[[] ?] ->]; done.
  - destruct (readIdentifier_loop_total n t "" Hn) as [[] ->]; done.
  - destruct (readOperator_loop_total n t "" Hn) as [[] ->]; done.
Qed.

Lemma Tokenize_loop_total fuel : forall t tokens,
  (position t <= length (input t))%nat -> (remaining t <= fuel)%nat ->
  is_Some (Tokenize_loop fuel t tokens).
Proof.
  induction fuel as [|fuel IH]; intros t tokens Hle Hfuel; simpl;
    loop_head Hlt; try done; try (unfold remaining in Hfuel; lia).
  destruct (Tokenize_step_total (length (input t)) t tokens Hlt) as [[r t'] Hstep];
    [unfold remaining; lia|].
  rewrite Hstep. simpl. destruct r as [tokens'|msg]; [|done].
  destruct (Tokenize_step_spec _ _ _ _ _ Hlt Hstep) as ((Hin & _ & Hle') & Hpos & _).
  apply IH; [done|]. unfold remaining in *. rewrite Hin. lia.
Qed.

(** The lexer always finishes: it returns the tokens or a lexical error. *)
Lemma Tokenize_total (code : string) :
  exists r : goerror (list Token), Luna_Tokenize code = Some r.
Proof.
  unfold Luna_Tokenize, Tokenize.
  destruct (Tokenize_loop_total (length (input (NewTokenizer code)))
              (NewTokenizer code) []) as [r Hr];
    [simpl; lia | unfold remaining; lia | by exists r].
Qed.

(** C7: whenever tokenization succeeds, the token sequence ends with an
    end-of-stream token, no other token of the sequence is an
    end-of-stream token, and the absolute offset of that last token is
    the length of the input (counted in runes, the unit of the lexer's
    positions). *)
Theorem Tokenize_ends_with_single_EOF (code : string) (tokens : list Token) :
  Luna_Tokenize code = Some (NoErr tokens) ->
  exists front last,
    tokens = front ++ [last]
    /\ Token_Type last = EOF
    /\ Forall (fun k => Token_Type k <> EOF) front
    /\ Index (Token_Position last) = length (runes_of_string code).
Proof.
  intros Hrun. unfold Luna_Tokenize, Tokenize in Hrun.
  apply Tokenize_loop_spec in Hrun as (mid & pos & -> & Hpos & Hmid); [|simpl; lia].
  exists mid, (mkToken EOF "" pos). simpl. done.
Qed.
End TokenizeTheorems.

Lemma Tokenize_ends_with_single_EOF_witness :
  exists front last,
    [mkToken INT "1" (mkPosition 0 0 0); mkToken SMALLER_OR_EQUAL "<=" (mkPosition 0 1 1);
     mkToken INT "2" (mkPosition 0 3 3); mkToken EOF "" (mkPosition 0 4 4)]
    = front ++ [last]
    /\ Token_Type last = EOF
    /\ Forall (fun k => Token_Type k <> EOF) front
    /\ Index (Token_Position last) = length (runes_of_string "1<=2").
Proof.
  apply (@Tokenize_ends_with_single_EOF bareTables "1<=2"). vm_compute. reflexivity.
Defined.

(* ===================================================================== *)
(** * Environments: lookup and assignment                                 *)
(* ===================================================================== *)

(** Arithmetic on locations. *)
Ltac llia := unfold loc in *; simpl in *; lia.

Lemma in_chain_parent st env e p c :
  envs st !! env = Some e -> parent e = Some p -> in_chain st p c -> in_chain st env c.
Proof. intros. by eapply chain_up. Qed.

(** In a well-formed store the walk from a valid environment that never
    finds what it looks for reaches the root and returns [absent]. *)
Lemma walk_absent {A} (visit : loc -> Environment -> option A) (absent : A) st :
  wf_store st ->
  forall fuel (env : loc),
    (env < fuel)%nat -> (env < length (envs st))%nat ->
    (forall c e, in_chain st env c -> envs st !! c = Some e -> visit c e = None) ->
    walk fuel st (Some env) visit absent = Ok absent.
Proof.
  intros Hwf. induction fuel as [|fuel IH]; intros env Hfuel Hvalid Hnone; [lia|].
  cbn [walk]. destruct (envs st !! env) as [e|] eqn:He;
    [|apply lookup_ge_None in He; llia].
  rewrite (Hnone env e (chain_here st env) He).
  destruct (parent e) as [p|] eqn:Hp; [|by destruct fuel].
  pose proof (Hwf _ _ _ He Hp) as Hlt.
  apply IH; [llia|llia|].
  intros c e' Hc He'. apply (Hnone c e'); [|done]. by eapply chain_up.
Qed.

(** The walk stops at the first environment where [visit] answers. *)
Lemma walk_here {A} (visit : loc -> Environment -> option A) (absent : A) st
    fuel env e r :
  envs st !! env = Some e -> visit env e = Some r ->
  walk (S fuel) st (Some env) visit absent = Ok r.
Proof. intros He Hv. cbn [walk]. by rewrite He, Hv. Qed.

Lemma LookupVar_unbound st env name :
  wf_store st -> (env < length (envs st))%nat -> unbound st env name ->
  LookupVar env name st = (Ok UndefinedValue, st).
Proof.
  intros Hwf Hvalid Hun. unfold LookupVar. f_equal.
  apply walk_absent; [done|unfold chainBound; llia|done|].
  intros c e Hc He. by apply (Hun c e).
Qed.

Lemma HasVar_unbound st env name :
  wf_store st -> (env < length (envs st))%nat -> unbound st env name ->
  HasVar env name st = (Ok false, st).
Proof.
  intros Hwf Hvalid Hun. unfold HasVar. f_equal.
  apply walk_absent; [done|unfold chainBound; llia|done|].
  intros c e Hc He. rewrite (Hun c e Hc He). by case_decide as Hd; [destruct Hd|].
Qed.

Lemma LookupVar_here st env e name v :
  envs st !! env = Some e -> variables e !! name = Some v ->
  LookupVar env name st = (Ok v, st).
Proof. intros He Hv. unfold LookupVar, chainBound. by erewrite walk_here. Qed.

Lemma HasVar_here st env e name v :
  envs st !! env = Some e -> variables e !! name = Some v ->
  HasVar env name st = (Ok true, st).
Proof.
  intros He Hv. unfold HasVar, chainBound. erewrite walk_here; [done..|].
  rewrite Hv. by case_decide as Hd; [|destruct Hd].
Qed.

(** The store stays well formed when a scope is opened under an existing
    environment, and when a binding is written. *)
Lemma NewEnvironment_wf st p env st' :
  wf_store st -> (p < length (envs st))%nat ->
  NewEnvironment (Some p) st = (Ok env, st') -> wf_store st'.
Proof.
  intros Hwf Hp Hnew. unfold NewEnvironment in Hnew. simplify_eq.
  intros l e q Hl Hq. simpl in Hl.
  apply lookup_app_Some in Hl as [Hl|[Hlen Hl]]; [by eapply Hwf|].
  apply list_lookup_singleton_Some in Hl as [Hz <-]. simpl in Hq. simplify_eq. lia.
Qed.

Lemma DeclareVar_wf st env name value isConstant r st' :
  wf_store st -> DeclareVar env name value isConstant st = (r, st') -> wf_store st'.
Proof.
  intros Hwf Hd. unfold DeclareVar, getEnv, setEnv, mbind, M_bind, mret, M_ret in Hd.
  destruct (envs st !! env) as [e|] eqn:He; simplify_eq; [|done].
  intros l e' q Hl Hq. simpl in Hl.
  destruct (decide (l = env)) as [->|Hne].
  - rewrite list_lookup_insert_eq in Hl by (by eapply lookup_lt_Some).
    simplify_eq. simpl in Hq. by eapply Hwf.
  - rewrite list_lookup_insert_ne in Hl by done. by eapply Hwf.
Qed.

Section Identifier.
Context `{FloatLib} `{Host}.

(** C4: a name that is bound in no environment of the parent chain is
    looked up as the [undefined] value, and the evaluation of an
    [Identifier] node for it yields [undefined] and no error, in any
    store the interpreter can build and from any existing environment;
    the store is left as it was. *)
Theorem lookup_of_unbound_name_is_undefined st env name fuel :
  wf_store st -> (env < length (envs st))%nat -> unbound st env name ->
  LookupVar env name st = (Ok MakeUndefined, st)
  /\ Evaluate (S fuel) (Identifier name) env st = (Ok MakeUndefined, st).
Proof.
  intros Hwf Hvalid Hun. split; [by apply LookupVar_unbound|].
  simpl. unfold evaluateIdentifier. by apply LookupVar_unbound.
Qed.
End Identifier.

Lemma rootState_wf : wf_store rootState.
Proof.
  intros l e p Hl Hp. unfold rootState in Hl. simpl in Hl.
  apply list_lookup_singleton_Some in Hl as [_ <-]. done.
Qed.

Lemma rootState_unbound name : unbound rootState 0%nat name.
Proof.
  intros c e Hc He. unfold rootState in He. simpl in He.
  apply list_lookup_singleton_Some in He as [_ <-]. done.
Qed.

Lemma lookup_of_unbound_name_is_undefined_witness :
  LookupVar 0%nat "ghost" rootState = (Ok MakeUndefined, rootState)
  /\ @Evaluate bareFloatLib bareHost 1 (Identifier "ghost") 0%nat rootState
     = (Ok MakeUndefined, rootState).
Proof.
  apply (@lookup_of_unbound_name_is_undefined bareFloatLib bareHost);
    [apply rootState_wf | simpl; lia | apply rootState_unbound].
Defined.

(* ===================================================================== *)
(** * Constants                                                           *)
(* ===================================================================== *)

Ltac munfold :=
  unfold mbind, M_bind, mret, M_ret, getEnv, setEnv, get, put, fail, errorf, panic in *.

Lemma AssignVar_local_constant st env e name value :
  envs st !! env = Some e -> constants e !! name = Some true ->
  AssignVar env name value st = (Ok value, st).
Proof.
  intros He Hc. unfold AssignVar. munfold. by rewrite He, Hc.
Qed.


Section Constants.
Context `{UnicodeTables} `{FloatLib} `{Host}.

Lemma DeclareVar_run st env e name value isConstant :
  envs st !! env = Some e ->
  exists st',
    DeclareVar env name value isConstant st = (Ok value, st')
    /\ envs st' !! env
       = Some (mkEnvironment (parent e) (<[name := value]> (variables e))
                 (if isConstant then <[name := true]> (constants e) else constants e))
    /\ length (envs st') = length (envs st).
Proof.
  intros He. unfold DeclareVar. munfold. rewrite He. eexists. split; [done|]. simpl.
  rewrite list_lookup_insert_eq by (by eapply lookup_lt_Some).
  by rewrite length_insert.
Qed.



End Constants.



(* ===================================================================== *)
(** * The evaluator                                                       *)
(* ===================================================================== *)

(** ** Equality *)


Section Equality.
Context `{FloatLib} `{Host}.


End Equality.


(** ** The placeholder import *)

Section Use.
Context `{UnicodeTables} `{FloatLib} `{Host}.

Lemma evaluateProgram_loop_fails (E : Statement -> loc -> M RuntimeValue)
    pre stmt post env f : forall last st v st',
  evaluateProgram_loop E pre env last st = (Ok v, st') ->
  E stmt env st' = (Fail f, st') ->
  evaluateProgram_loop E (pre ++ stmt :: post) env last st = (Fail f, st').
Proof.
  induction pre as [|s pre IH]; intros last st v st' Hpre Hs;
    cbn [app evaluateProgram_loop] in *; munfold.
  - simplify_eq. by rewrite Hs.
  - destruct (E s env st) as [[r|f'] st1]; [|done]. by eapply IH.
Qed.

(** C10: [Evaluate] has no case for a [UseStatement]: the node evaluates
    to the error "unsupported AST node" and changes nothing; a program
    whose statements before a [use] evaluate without failure returns that
    error when it reaches the [use], and does not go on; so does the
    program text [use 'lib']. *)
Theorem use_statement_is_unsupported :
  (forall fuel path env st,
     Evaluate (S fuel) (UseStatement path) env st
     = (Fail (Error "unsupported AST node: *main.UseStatement"), st))
  /\ (forall fuel pre path post env st v st',
        evaluateProgram (Evaluate (S fuel)) pre env st = (Ok v, st') ->
        Evaluate (S (S fuel)) (Program (pre ++ UseStatement path :: post)) env st
        = (Fail (Error "unsupported AST node: *main.UseStatement"), st'))
  /\ (forall fuel env st,
        Luna_Evaluate (3 + fuel) env "use 'lib'" st
        = (Fail (Error "unsupported AST node: *main.UseStatement"), st)).
Proof.
  split_and!.
  - done.
  - intros fuel pre path post env st v st' Hpre. cbn [Evaluate].
    unfold evaluateProgram in *. by eapply evaluateProgram_loop_fails.
  - intros fuel env st. by vm_compute.
Qed.
End Use.

Lemma use_statement_is_unsupported_witness :
  @Evaluate bareFloatLib bareHost 2
    (Program ([NumericLiteral 1] ++ UseStatement "lib" :: [NumericLiteral 2]))
    0%nat rootState
  = (Fail (Error "unsupported AST node: *main.UseStatement"), rootState).
Proof.
  destruct (@use_statement_is_unsupported bareTables bareFloatLib bareHost)
    as (_ & Hprogram & _).
  apply (Hprogram 0%nat [NumericLiteral 1] "lib" [NumericLiteral 2] 0%nat rootState
           (NumberValue 1)).
  reflexivity.
Defined.

(** ** Function calls *)

Section Calls.
Context `{FloatLib} `{Host}.
Variable E : Statement -> loc -> M RuntimeValue.

(** A body that ends without a return-signal ends with the value of its
    last statement. *)
Lemma execStatements_Completed_last init last env : forall result0 st result st',
  execStatements E (init ++ [last]) env result0 st = (Ok (Completed result), st') ->
  exists st_mid, E last env st_mid = (Ok result, st').
Proof.
  induction init as [|s init IH]; intros result0 st result st' Hrun;
    cbn [app execStatements] in Hrun; munfold.
  - exists st. destruct (E last env st) as [[val|f] st1]; [|done].
    destruct val; by simplify_eq.
  - destruct (E s env st) as [[val|f] st1]; [|done].
    destruct val; try done; by eapply IH.
Qed.

(** C2, as amended: an interpreted call whose body executes all its
    statements without a return-signal returns the value of the last
    statement of the body; it returns void when the body is empty. *)
Theorem call_without_return_yields_last_value
    name parameters body declarationEnv export anonymous args env st
    fnEnv st0 st1 result st2 :
  NewEnvironment (Some declarationEnv) st = (Ok fnEnv, st0) ->
  bindParameters E parameters 0 args declarationEnv fnEnv st0 = (Ok tt, st1) ->
  execStatements E body fnEnv MakeVoid st1 = (Ok (Completed result), st2) ->
  callFunction E (FunctionValue name parameters body declarationEnv export anonymous)
    args env st = (Ok result, st2)
  /\ (body = [] -> result = MakeVoid)
  /\ (forall init last, body = init ++ [last] ->
        exists st_mid, E last fnEnv st_mid = (Ok result, st2)).
Proof.
  intros Hnew Hbind Hbody. split_and!.
  - unfold callFunction. munfold. by rewrite Hnew, Hbind, Hbody.
  - intros ->. cbn [execStatements] in Hbody. munfold. by simplify_eq.
  - intros init last ->. by eapply execStatements_Completed_last.
Qed.
End Calls.

Lemma call_without_return_yields_last_value_witness :
  callFunction (@Evaluate bareFloatLib bareHost 1) fiveFunction [] 0%nat rootState
  = (Ok (NumberValue 5),
     mkState [mkEnvironment None ∅ ∅; mkEnvironment (Some 0%nat) ∅ ∅] [] [] 0 []).
Proof.
  eapply call_without_return_yields_last_value; reflexivity.
Defined.

(** C2, as stated, fails: the call of [fn five { 5 }] executes its one
    statement, which produces no return-signal, and returns 5, not void. *)
Lemma call_without_return_is_not_void :
  ~ call_without_return_is_void (@Evaluate bareFloatLib bareHost 1)
      fiveFunction [] 0%nat rootState.
Proof.
  unfold call_without_return_is_void, fiveFunction. intros Hclaim.
  specialize (Hclaim _ _ _ (NumberValue 5) _ eq_refl eq_refl eq_refl).
  apply (f_equal (fun r => match r.1 with Ok VoidValue => true | _ => false end))
    in Hclaim.
  vm_compute in Hclaim. discriminate.
Qed.

(** ** Assignment to an element of an array *)

Section ArrayAssignment.
Context `{UnicodeTables} `{FloatLib} `{Host}.

Lemma storeElement_past_length a index value st :
  Z.of_nat (length (elementsOf st a)) <= index ->
  storeElement a index value st
  = (Fail (Panic (indexOutOfRange index (length (elementsOf st a)))), st).
Proof.
  intros Hge. unfold storeElement. munfold.
  destruct (0 <=? index) eqn:Hpos; simpl; [|done].
  destruct (index <? Z.of_nat (length (elementsOf st a))) eqn:Hlt; [|done].
  apply Z.ltb_lt in Hlt. lia.
Qed.

(** C3, on the code: an assignment to an element of an array at an index
    that is not below its length does not return an error value: the Go
    slice assignment panics, with "index out of range".  The store is what
    the evaluation of the three operands left: the array is not resized
    and keeps its elements. *)
Theorem assignment_past_length_panics (E : Statement -> loc -> M RuntimeValue)
    object_ property_ value_ computed env st a n value st1 st2 st3 :
  E object_ env st = (Ok (ArrayValue a), st1) ->
  Kind property_ <> "Identifier" ->
  E property_ env st1 = (Ok (NumberValue n), st2) ->
  E value_ env st2 = (Ok value, st3) ->
  Z.of_nat (length (elementsOf st3 a)) <= int64_of_float n ->
  evaluateAssignmentExpression E (MemberExpr object_ property_ computed) value_ env st
  = (Fail (Panic (indexOutOfRange (int64_of_float n) (length (elementsOf st3 a)))), st3).
Proof.
  intros Ho Hk Hp Hv Hge. unfold evaluateAssignmentExpression. munfold.
  rewrite Ho.
  assert (Hprop : (match property_ with
                   | Identifier name => fun st => (Ok (MakeString name), st)
                   | _ => E property_ env
                   end) st1 = (Ok (NumberValue n), st2))
    by (destruct property_; done).
  rewrite Hprop, Hv. cbn [assertNumber]. munfold.
  by rewrite storeElement_past_length.
Qed.
End ArrayAssignment.

Lemma assignment_past_length_panics_witness :
  @evaluateAssignmentExpression bareFloatLib (@Evaluate bareFloatLib bareHost 1)
    (MemberExpr (Identifier "a") (NumericLiteral 1) true) (NumericLiteral 5)
    0%nat arrayStore
  = (Fail (Panic "runtime error: index out of range [1] with length 1"), arrayStore).
Proof.
  apply (@assignment_past_length_panics bareFloatLib
           (@Evaluate bareFloatLib bareHost 1)
           (Identifier "a") (NumericLiteral 1) (NumericLiteral 5) true 0%nat
           arrayStore 0%nat 1%float (NumberValue 5) arrayStore arrayStore arrayStore).
  - reflexivity.
  - discriminate.
  - reflexivity.
  - reflexivity.
  - vm_compute. discriminate.
Defined.

(** The program of the failing input of C3, from its text: the panic, and
    the array as it was. *)
Lemma assignment_past_length_program `{UnicodeTables} `{FloatLib} `{Host} fuel :
  let r := Luna_Evaluate (6 + fuel) 0%nat ("a = [1]" +:+ nl +:+ "a[1] = 5") rootState in
  r.1 = Fail (Panic "runtime error: index out of range [1] with length 1")
  /\ arrays r.2 = [[NumberValue 1]].
Proof. by vm_compute. Qed.

(* ===================================================================== *)
(** * The ternary operator                                                *)
(* ===================================================================== *)

Section Ternary.
Context `{UnicodeTables} `{FloatLib} `{Host}.

(** The shape of a parsed ternary: condition and consequent come from
    [parseLogicalExpression], the alternate from [parseTernaryExpression]
    itself, so that a ternary after the colon nests to the right. *)
Lemma parseTernaryExpression_nests_right rec n p c p1 t p2 e p3 :
  parseLogicalExpression rec p = POk c p1 ->
  Token_Type (at_ p1) = TERNARY ->
  parseLogicalExpression rec (after_eat p1) = POk t p2 ->
  Token_Type (at_ p2) = COLON ->
  parseTernaryExpression_from rec n (after_eat p2) = POk e p3 ->
  parseTernaryExpression_from rec (S n) p = POk (TernaryExpr c t e) p3.
Proof.
  intros Hc Hq Ht Hcolon He.
  cbn [parseTernaryExpression_from].
  unfold mbind, PM_bind, atType, eat, mret, PM_ret, after_eat in *.
  rewrite Hc, Hq. change (is_tt TERNARY TERNARY) with true. cbv iota beta.
  rewrite Ht, Hcolon. change (is_tt COLON COLON) with true. cbn [negb].
  cbv iota beta. by rewrite He.
Qed.

Lemma evaluateTernaryExpression_selects (E : Statement -> loc -> M RuntimeValue)
    c t e env st v st1 :
  E c env st = (Ok v, st1) ->
  evaluateTernaryExpression E c t e env st
  = if IsTruthy st1 v then E t env st1 else E e env st1.
Proof.
  intros Hc. unfold evaluateTernaryExpression, truthy. munfold. rewrite Hc.
  by destruct (IsTruthy st1 v).
Qed.

(** C8: the parser takes the condition and the consequent of a ternary
    at the level of the logical operators and its alternate as a ternary
    again (it nests to the right); the evaluator evaluates the condition
    and then only the branch that its truthiness selects; and the source
    [true ? 1 : false ? 2 : 3] parses to the right-nested tree and
    evaluates, in any environment of any store, to the number 1. *)
Theorem ternary_is_right_associative :
  (forall rec n p c p1 t p2 e p3,
     parseLogicalExpression rec p = POk c p1 ->
     Token_Type (at_ p1) = TERNARY ->
     parseLogicalExpression rec (after_eat p1) = POk t p2 ->
     Token_Type (at_ p2) = COLON ->
     parseTernaryExpression_from rec n (after_eat p2) = POk e p3 ->
     parseTernaryExpression_from rec (S n) p = POk (TernaryExpr c t e) p3)
  /\ (forall (E : Statement -> loc -> M RuntimeValue) c t e env st v st1,
        E c env st = (Ok v, st1) ->
        evaluateTernaryExpression E c t e env st
        = if IsTruthy st1 v then E t env st1 else E e env st1)
  /\ (forall fuel,
        parseSource (7 + fuel) "true ? 1 : false ? 2 : 3"
        = Some (Program
                  [TernaryExpr (BooleanLiteral true) (NumericLiteral 1)
                     (TernaryExpr (BooleanLiteral false) (NumericLiteral 2)
                        (NumericLiteral 3))]))
  /\ (forall fuel,
        parseSource (7 + fuel) "a || b ? 1 : 2"
        = Some (Program
                  [TernaryExpr (LogicalExpr (Identifier "a") (Identifier "b") "||")
                     (NumericLiteral 1) (NumericLiteral 2)]))
  /\ (forall fuel env st,
        Luna_Evaluate (7 + fuel) env "true ? 1 : false ? 2 : 3" st
        = (Ok (NumberValue 1), st)).
Proof.
  split_and!.
  - apply parseTernaryExpression_nests_right.
  - apply evaluateTernaryExpression_selects.
  - intros fuel. by vm_compute.
  - intros fuel. by vm_compute.
  - intros fuel env st. by vm_compute.
Qed.
End Ternary.

Lemma ternary_is_right_associative_witness :
  evaluateTernaryExpression (@Evaluate bareFloatLib bareHost 1)
    (BooleanLiteral true) (NumericLiteral 1) (NumericLiteral 2) 0%nat rootState
  = (Ok (NumberValue 1), rootState).
Proof.
  destruct (@ternary_is_right_associative bareTables bareFloatLib bareHost)
    as (_ & Hselect & _).
  rewrite (Hselect _ _ _ _ _ _ (BooleanValue true) rootState); reflexivity.
Defined.

(* ===================================================================== *)
(** * String interpolation                                                *)
(* ===================================================================== *)



(** Where [old] does not start, the first byte is kept. *)
Lemma strings_ReplaceAll_keep c s old new :
  String.prefix old (String c s) = false ->
  strings_ReplaceAll (String c s) old new = String c (strings_ReplaceAll s old new).
Proof. unfold strings_ReplaceAll. cbn [replace_from]. by intros ->. Qed.

Lemma replace_from_skip rest old new : forall dropped : string,
  replace_from (String.length dropped) (dropped +:+ rest) old new
  = replace_from 0 rest old new.
Proof.
  induction dropped as [|c dropped IH]; [done|].
  change (String c dropped +:+ rest) with (String c (dropped +:+ rest)).
  cbn [String.length replace_from]. exact IH.
Qed.

Lemma prefix_app (old rest : string) : String.prefix old (old +:+ rest) = true.
Proof.
  induction old as [|c old IH]; [by destruct rest|].
  simpl. destruct (ascii_dec c c); [exact IH|done].
Qed.

(** Where [old] starts, it is replaced by [new], and the replacement goes
    on after it. *)
Lemma strings_ReplaceAll_occurrence c old rest new :
  strings_ReplaceAll (String c old +:+ rest) (String c old) new
  = new +:+ strings_ReplaceAll rest (String c old) new.
Proof.
  unfold strings_ReplaceAll.
  pose proof (prefix_app (String c old) rest) as Hp.
  change (String c old +:+ rest) with (String c (old +:+ rest)) in *.
  cbn [replace_from]. rewrite Hp. f_equal.
  replace (String.length (String c old) - 1)%nat with (String.length old)
    by (cbn [String.length]; lia).
  apply replace_from_skip.
Qed.


Section Interpolation.
Context `{FloatLib} `{Host}.




End Interpolation.


(** Interpolation on programs: local strings and numbers are substituted,
    an unknown placeholder is kept, and a variable of the enclosing scope
    is not substituted inside a function body. *)
Lemma interpolation_examples :
  (@Luna_Evaluate bareTables bareFloatLib bareHost 12 0%nat
     ("name = 'bob'" +:+ nl +:+ "n = 3" +:+ nl +:+ "'hi {name} {n} {zz}'") rootState).1
  = Ok (StringValue "hi bob 3 {zz}")
  /\ (@Luna_Evaluate bareTables bareFloatLib bareHost 12 0%nat
        ("name = 'bob'" +:+ nl +:+ "fn f { return 'hi {name}' }" +:+ nl +:+ "f()")
        rootState).1
     = Ok (StringValue "hi {name}").
Proof. split; by vm_compute. Qed.

(* ===================================================================== *)
(** * Scopes: what an evaluation does to the environments                 *)
(* ===================================================================== *)

Lemma names_same_envs st st' l : envs st' = envs st -> names st' l = names st l.
Proof. unfold names. by intros ->. Qed.

Lemma frame_refl env st : frame env st st.
Proof. unfold frame. split_and!; [lia|done|done]. Qed.

Lemma frame_trans env a b c : frame env a b -> frame env b c -> frame env a c.
Proof.
  intros (Hlen1 & Hall1 & Hoth1) (Hlen2 & Hall2 & Hoth2). split_and!.
  - lia.
  - intros l Hl. destruct (Hall1 l Hl) as [Hp1 Hn1].
    destruct (Hall2 l) as [Hp2 Hn2]; [lia|]. split; [congruence|by etrans].
  - intros l Hl Hne. rewrite Hoth2 by (done || lia). by apply Hoth1.
Qed.

Lemma frame_same_envs env st st' : envs st' = envs st -> frame env st st'.
Proof.
  intros Heq. unfold frame. rewrite Heq. split_and!; [lia| |].
  - intros l _. by rewrite (names_same_envs _ _ _ Heq).
  - intros l _ _. by apply names_same_envs.
Qed.

(** A frame around a location that did not exist is a frame around any. *)
Lemma frame_fresh env st st' :
  frame (length (envs st)) st st' -> frame env st st'.
Proof.
  intros (Hlen & Hall & Hoth). split_and!; [done|done|].
  intros l Hl _. apply Hoth; [done|llia].
Qed.

(** ** Computations that leave the environments alone *)

Lemma stable_preserves {A} env (m : M A) : stable m -> preserves (frame env) m.
Proof.
  intros Hm st r st' Hrun. apply frame_same_envs.
  specialize (Hm st). by rewrite Hrun in Hm.
Qed.

Lemma stable_mret {A} (a : A) : stable (mret a).
Proof. done. Qed.

Lemma stable_fail {A} f : stable (@fail A f).
Proof. done. Qed.

Lemma stable_bind {A B} (m : M A) (k : A -> M B) :
  stable m -> (forall a, stable (k a)) -> stable (m ≫= k).
Proof.
  intros Hm Hk st. unfold mbind, M_bind. specialize (Hm st).
  destruct (m st) as [[a|f] st1]; simpl in *; [|done].
  by rewrite Hk.
Qed.

Lemma stable_mapM {A B} (f : A -> M B) l :
  (forall a, stable (f a)) -> stable (mapM f l).
Proof.
  intros Hf. induction l as [|x l IH]; cbn [mapM]; [done|].
  apply stable_bind; [done|intros y].
  apply stable_bind; [done|intros ys]. done.
Qed.

Create HintDb stable.
#[local] Hint Resolve stable_mret stable_fail : stable.

Lemma stable_get : stable get.
Proof. done. Qed.

Lemma stable_getEnv env : stable (getEnv env).
Proof. intros st. unfold getEnv. by destruct (envs st !! env). Qed.

Lemma stable_truthy v : stable (truthy v).
Proof. done. Qed.

Lemma stable_LookupVar env name : stable (LookupVar env name).
Proof. done. Qed.

Lemma stable_HasVar env name : stable (HasVar env name).
Proof. done. Qed.

Lemma stable_MakeArray elements : stable (MakeArray elements).
Proof. done. Qed.

Lemma stable_MakeObject properties : stable (MakeObject properties).
Proof. done. Qed.

Lemma stable_setElements a elements : stable (setElements a elements).
Proof. done. Qed.

Lemma stable_setProperties o properties : stable (setProperties o properties).
Proof. done. Qed.

Lemma stable_Println s : stable (Println s).
Proof. done. Qed.

Lemma stable_errorf {A} msg : stable (@errorf A msg).
Proof. done. Qed.

Lemma stable_panic {A} msg : stable (@panic A msg).
Proof. done. Qed.

Lemma stable_assertNumber v : stable (assertNumber v).
Proof. destruct v; done. Qed.

Lemma stable_storeElement a index value : stable (storeElement a index value).
Proof.
  unfold storeElement. apply stable_bind; [done|intros st].
  case_match; done.
Qed.

#[local] Hint Resolve stable_get stable_getEnv stable_truthy stable_LookupVar
  stable_HasVar stable_MakeArray stable_MakeObject stable_setElements
  stable_setProperties stable_Println stable_errorf stable_panic
  stable_assertNumber stable_storeElement : stable.

Section StableValues.
Context `{FloatLib} `{Host}.

Lemma stable_rangeMap {A} (m : gmap string A) : stable (rangeMap m).
Proof. done. Qed.

Lemma stable_String_ fuel : forall v, stable (String_ fuel v).
Proof.
  induction fuel as [|fuel IH]; intros v; cbn [String_]; [done|].
  destruct v; try done.
  - apply stable_bind; [done|intros st].
    apply stable_bind; [by apply stable_mapM|done].
  - apply stable_bind; [done|intros st].
    apply stable_bind; [apply stable_rangeMap|intros bindings].
    apply stable_bind; [|done].
    apply stable_mapM. intros kv. apply stable_bind; [apply IH|done].
  - by case_match.
Qed.

Lemma stable_rendering fuel v : stable (rendering fuel v).
Proof. destruct v; try apply stable_String_. done. Qed.

Lemma stable_interpolate fuel bindings : forall text,
  stable (interpolate fuel bindings text).
Proof.
  induction bindings as [|[name val] rest IH]; intros text; cbn [interpolate]; [done|].
  case_match; [|done]. apply stable_bind; [apply stable_rendering|done].
Qed.

Lemma stable_evaluateStringLiteral fuel value env :
  stable (evaluateStringLiteral fuel value env).
Proof.
  unfold evaluateStringLiteral. case_match; [|done].
  apply stable_bind; [apply stable_getEnv|intros e].
  apply stable_bind; [apply stable_rangeMap|intros bindings].
  apply stable_bind; [apply stable_interpolate|done].
Qed.

Lemma stable_evaluateBinaryOperation fuel left right operator :
  stable (evaluateBinaryOperation fuel left right operator).
Proof.
  unfold evaluateBinaryOperation. repeat case_match; try done.
  all: apply stable_bind; [apply stable_rendering|intros ?].
  all: apply stable_bind; [apply stable_rendering|done].
Qed.
End StableValues.

(** ** Declarations and assignments *)

Lemma preserves_bind {A B} env (m : M A) (k : A -> M B) :
  preserves (frame env) m -> (forall a, preserves (frame env) (k a)) ->
  preserves (frame env) (m ≫= k).
Proof.
  intros Hm Hk st r st' Hrun. unfold mbind, M_bind in Hrun.
  destruct (m st) as [[a|f] st1] eqn:Hmst.
  - eapply frame_trans; [by eapply Hm|by eapply Hk].
  - simplify_eq. by eapply Hm.
Qed.

Lemma bind_run {A B} (m : M A) (k : A -> M B) st r st' :
  (m ≫= k) st = (r, st') ->
  (exists a st1, m st = (Ok a, st1) /\ k a st1 = (r, st'))
  \/ (exists f, m st = (Fail f, st') /\ r = Fail f).
Proof.
  unfold mbind, M_bind. destruct (m st) as [[a|f] st1]; intros Hrun.
  - left. by exists a, st1.
  - right. simplify_eq. by exists f.
Qed.

(** Writing the environment at [l]: the parent is kept, names are added
    at most, and none is added unless [l] is the environment of the frame. *)
Lemma setEnv_frame env l e e0 st :
  envs st !! l = Some e0 -> parent e = parent e0 ->
  dom (variables e0) ⊆ dom (variables e) ->
  (l <> env -> dom (variables e) = dom (variables e0)) ->
  frame env st (setEnv l e st).2.
Proof.
  intros He0 Hp Hsub Heq. unfold setEnv, frame, names. simpl.
  rewrite length_insert. split_and!; [lia| |].
  - intros l' Hl'. destruct (decide (l' = l)) as [->|Hne].
    + rewrite list_lookup_insert_eq by (by eapply lookup_lt_Some).
      rewrite He0. simpl. by rewrite Hp.
    + by rewrite list_lookup_insert_ne.
  - intros l' Hl' Hne'. destruct (decide (l' = l)) as [->|Hne].
    + rewrite list_lookup_insert_eq by (by eapply lookup_lt_Some).
      rewrite He0. by apply Heq.
    + by rewrite list_lookup_insert_ne.
Qed.

Lemma DeclareVar_frame env name value isConstant :
  preserves (frame env) (DeclareVar env name value isConstant).
Proof.
  intros st r st' Hrun. unfold DeclareVar in Hrun. munfold.
  destruct (envs st !! env) as [e|] eqn:He; simplify_eq; [|apply frame_refl].
  eapply (setEnv_frame env env _ e); [done|done| |done].
  simpl. rewrite dom_insert_L. apply union_subseteq_r.
Qed.

Lemma walk_resolve fuel st name : forall current c,
  walk fuel st current
    (fun c e => if decide (is_Some (variables e !! name)) then Some (Some c) else None)
    None = Ok (Some c) ->
  exists e, envs st !! c = Some e /\ is_Some (variables e !! name).
Proof.
  induction fuel as [|fuel IH]; intros current c Hw; destruct current as [l|];
    cbn [walk] in Hw; try done.
  destruct (envs st !! l) as [e|] eqn:He; [|done].
  case_decide as Hd; [|by eapply IH]. simplify_eq. by exists e.
Qed.

Lemma AssignVar_frame env name value :
  preserves (frame env) (AssignVar env name value).
Proof.
  intros st r st' Hrun. unfold AssignVar in Hrun. munfold.
  destruct (envs st !! env) as [e|] eqn:He; simplify_eq; [|apply frame_refl].
  destruct (default false (constants e !! name)); simplify_eq; [apply frame_refl|].
  destruct (resolve st env name) as [[c|]|f] eqn:Hres; simplify_eq.
  - apply walk_resolve in Hres as (ce & Hce & Hin). rewrite Hce in Hrun.
    simplify_eq.
    assert (Hdom : dom (<[name := value]> (variables ce)) = dom (variables ce)).
    { rewrite dom_insert_L. apply subseteq_union_1_L, singleton_subseteq_l.
      by apply elem_of_dom. }
    eapply (setEnv_frame env c _ ce); simpl; [done|done|by rewrite Hdom|done].
  - eapply (setEnv_frame env env _ e); [done|done| |done].
    simpl. rewrite dom_insert_L. apply union_subseteq_r.
  - apply frame_refl.
Qed.

Lemma NewEnvironment_frame env p st :
  frame env st (NewEnvironment p st).2.
Proof.
  unfold NewEnvironment, frame, names. simpl. rewrite length_app. simpl.
  split_and!; [lia| |].
  - intros l Hl. by rewrite lookup_app_l.
  - intros l Hl _. by rewrite lookup_app_l.
Qed.

(** ** The evaluator on call-free nodes *)

Create HintDb frame.
#[local] Hint Resolve DeclareVar_frame AssignVar_frame : frame.

(** Splits the hypotheses [call_free] of a node into those of its parts. *)
Ltac split_call_free :=
  repeat match goal with
  | H : _ && _ = true |- _ => apply andb_prop in H as [? ?]
  | H : forallb _ (_ :: _) = true |- _ => cbn [forallb] in H
  end.

(** Computations built from parts that leave the environments alone. *)
Ltac solve_stable :=
  repeat first
    [ solve [auto using stable_rendering, stable_evaluateStringLiteral,
             stable_evaluateBinaryOperation, stable_rangeMap with stable]
    | apply stable_bind; [|intros ?]
    | case_match ].

(** One step of a proof that a computation preserves a frame: through a
    bind, a conditional or a match on a value, or by a lemma on a part. *)
Ltac frame_step :=
  match goal with
  | |- preserves _ _ => solve [auto with frame]
  | |- preserves _ _ => apply stable_preserves; solve [solve_stable]
  | |- preserves _ (mbind _ _) => apply preserves_bind; [|intros ?]
  | |- preserves _ (if ?b then _ else _) => destruct b
  | |- preserves _ (match ?x with _ => _ end) =>
    lazymatch type of x with
    | Statement => fail
    | _ => destruct x
    end
  end.

Ltac frame_auto := split_call_free; repeat frame_step.

Section Frame.
Context `{FloatLib} `{Host}.
Variable E : Statement -> loc -> M RuntimeValue.
Hypothesis HE : forall node env,
  call_free node = true -> preserves (frame env) (E node env).

#[local] Hint Resolve HE : frame.

Lemma evaluateProgram_loop_frame body env : forall last,
  forallb call_free body = true ->
  preserves (frame env) (evaluateProgram_loop E body env last).
Proof.
  induction body as [|s body IH]; intros last Hcf; cbn [evaluateProgram_loop];
    frame_auto; try by apply IH.
Qed.

Lemma mapM_frame l env :
  forallb call_free l = true ->
  preserves (frame env) (mapM (fun node => E node env) l).
Proof.
  induction l as [|s l IH]; intros Hcf; cbn [mapM]; frame_auto; try by apply IH.
Qed.

Lemma evaluateObjectLiteral_loop_frame props env : forall properties,
  forallb (fun prop => call_free (Prop_Value prop)) props = true ->
  preserves (frame env) (evaluateObjectLiteral_loop E props env properties).
Proof.
  induction props as [|p props IH]; intros properties Hcf;
    cbn [evaluateObjectLiteral_loop]; frame_auto; try by apply IH.
Qed.

Lemma execStatements_frame body env : forall result,
  forallb call_free body = true ->
  preserves (frame env) (execStatements E body env result).
Proof.
  induction body as [|s body IH]; intros result Hcf; cbn [execStatements];
    frame_auto; try by apply IH.
Qed.

Lemma evaluateDebugStatement_loop_frame props_ env : forall props,
  forallb call_free props_ = true ->
  preserves (frame env) (evaluateDebugStatement_loop E props_ env props).
Proof.
  induction props_ as [|p props_ IH]; intros props Hcf;
    cbn [evaluateDebugStatement_loop]; frame_auto; try by apply IH.
Qed.

#[local] Hint Resolve evaluateProgram_loop_frame mapM_frame
  evaluateObjectLiteral_loop_frame execStatements_frame
  evaluateDebugStatement_loop_frame : frame.

Lemma evaluateWhileStatement_loop_frame n test consequent env : forall result,
  call_free test = true -> forallb call_free consequent = true ->
  preserves (frame env) (evaluateWhileStatement_loop E n test consequent env result).
Proof.
  induction n as [|n IH]; intros result Ht Hc; cbn [evaluateWhileStatement_loop];
    frame_auto; try by apply IH.
Qed.

Lemma evaluateForStatement_loop_frame n test increaser body forEnv : forall result,
  call_free test = true -> call_free increaser = true ->
  forallb call_free body = true ->
  preserves (frame forEnv)
    (evaluateForStatement_loop E n test increaser body forEnv result).
Proof.
  induction n as [|n IH]; intros result Ht Hi Hb; cbn [evaluateForStatement_loop];
    frame_auto; try by apply IH.
Qed.

(** A [for] statement leaves every environment that existed with the
    names it had: its own scope is the fresh location. *)
Lemma evaluateForStatement_frame fuel declaration test increaser body env st r st' :
  call_free declaration = true -> call_free test = true ->
  call_free increaser = true -> forallb call_free body = true ->
  evaluateForStatement E fuel declaration test increaser body env st = (r, st') ->
  frame (length (envs st)) st st'.
Proof.
  intros Hd Ht Hi Hb Hrun. unfold evaluateForStatement in Hrun.
  apply bind_run in Hrun as [(forEnv & st1 & Hnew & Hrun)|(f & Hnew & _)];
    [|by unfold NewEnvironment in Hnew].
  pose proof (NewEnvironment_frame (length (envs st)) (Some env) st) as Hfr.
  rewrite Hnew in Hfr. unfold NewEnvironment in Hnew. simplify_eq.
  eapply frame_trans; [exact Hfr|].
  revert Hrun. apply preserves_bind; [by apply HE|intros _].
  by apply evaluateForStatement_loop_frame.
Qed.

Lemma evaluateArrayLiteral_frame elements env :
  forallb call_free elements = true ->
  preserves (frame env) (evaluateArrayLiteral E elements env).
Proof. intros Hcf. unfold evaluateArrayLiteral. frame_auto. Qed.

Lemma evaluateObjectLiteral_frame props env :
  forallb (fun prop => call_free (Prop_Value prop)) props = true ->
  preserves (frame env) (evaluateObjectLiteral E props env).
Proof. intros Hcf. unfold evaluateObjectLiteral. frame_auto. Qed.

Lemma evaluateBinaryExpression_frame fuel l r operator env :
  call_free l = true -> call_free r = true ->
  preserves (frame env) (evaluateBinaryExpression E fuel l r operator env).
Proof. intros Hl Hr. unfold evaluateBinaryExpression. frame_auto. Qed.

Lemma stepVariable_frame operand env delta post notIdent notNumber :
  preserves (frame env) (stepVariable operand env delta post notIdent notNumber).
Proof. unfold stepVariable. destruct operand; frame_auto. Qed.

Lemma evaluateUnaryExpression_frame operand operator env :
  call_free operand = true ->
  preserves (frame env) (evaluateUnaryExpression E operand operator env).
Proof.
  intros Hcf. unfold evaluateUnaryExpression.
  pose proof stepVariable_frame. frame_auto.
Qed.

(** The key of a member assignment: the name after the dot, or the value
    of the expression between the brackets. *)
Lemma propertyOf_frame property_ env :
  call_free property_ = true ->
  preserves (frame env)
    (match property_ with
     | Identifier name => mret (MakeString name)
     | _ => E property_ env
     end).
Proof.
  intros Hcf. pose proof (HE property_ env Hcf) as Hp.
  destruct property_; try exact Hp. frame_auto.
Qed.

Lemma evaluateAssignmentExpression_frame assigne value_ env :
  call_free assigne = true -> call_free value_ = true ->
  preserves (frame env) (evaluateAssignmentExpression E assigne value_ env).
Proof.
  intros Ha Hv. unfold evaluateAssignmentExpression.
  destruct assigne; try (apply stable_preserves; solve [solve_stable]).
  - frame_auto.
  - cbn [call_free] in Ha. split_call_free.
    apply preserves_bind; [by apply HE|intros object].
    apply preserves_bind; [by apply propertyOf_frame|intros property].
    frame_auto.
Qed.

Lemma evaluateActionAssignmentExpression_frame assigne value_ action env :
  call_free value_ = true ->
  preserves (frame env)
    (evaluateActionAssignmentExpression E assigne value_ action env).
Proof.
  intros Hv. unfold evaluateActionAssignmentExpression.
  destruct assigne; try (apply stable_preserves; solve [solve_stable]). frame_auto.
Qed.

Lemma evaluateMemberExpression_frame object_ property_ computed env :
  call_free object_ = true -> call_free property_ = true ->
  preserves (frame env) (evaluateMemberExpression E object_ property_ computed env).
Proof.
  intros Ho Hp. unfold evaluateMemberExpression.
  apply preserves_bind; [by apply HE|intros object].
  apply preserves_bind; [|intros key; apply stable_preserves; solve [solve_stable]].
  destruct computed; [frame_auto|apply stable_preserves; solve [solve_stable]].
Qed.

Lemma evaluateTernaryExpression_frame c t e env :
  call_free c = true -> call_free t = true -> call_free e = true ->
  preserves (frame env) (evaluateTernaryExpression E c t e env).
Proof. intros Hc Ht He. unfold evaluateTernaryExpression. frame_auto. Qed.

Lemma evaluateTypeofExpression_frame v env :
  call_free v = true -> preserves (frame env) (evaluateTypeofExpression E v env).
Proof. intros Hv. unfold evaluateTypeofExpression. frame_auto. Qed.

Lemma evaluateEqualityExpression_frame l r operator env :
  call_free l = true -> call_free r = true ->
  preserves (frame env) (evaluateEqualityExpression E l r operator env).
Proof. intros Hl Hr. unfold evaluateEqualityExpression. frame_auto. Qed.

Lemma evaluateInequalityExpression_frame l r operator env :
  call_free l = true -> call_free r = true ->
  preserves (frame env) (evaluateInequalityExpression E l r operator env).
Proof. intros Hl Hr. unfold evaluateInequalityExpression. frame_auto. Qed.

Lemma evaluateLogicalExpression_frame l r operator env :
  call_free l = true -> call_free r = true ->
  preserves (frame env) (evaluateLogicalExpression E l r operator env).
Proof. intros Hl Hr. unfold evaluateLogicalExpression. frame_auto. Qed.

Lemma evaluateFunctionDeclaration_frame name parameters body export env :
  preserves (frame env) (evaluateFunctionDeclaration name parameters body export env).
Proof. unfold evaluateFunctionDeclaration. frame_auto. Qed.

Lemma evaluateIfStatement_frame test consequent alternate env :
  call_free test = true -> forallb call_free consequent = true ->
  forallb call_free alternate = true ->
  preserves (frame env) (evaluateIfStatement E test consequent alternate env).
Proof. intros Ht Hc Ha. unfold evaluateIfStatement. frame_auto. Qed.

Lemma evaluateDebugStatement_frame props env :
  forallb call_free props = true ->
  preserves (frame env) (evaluateDebugStatement E props env).
Proof. intros Hp. unfold evaluateDebugStatement. frame_auto. Qed.
End Frame.

Section EvaluateFrame.
Context `{FloatLib} `{Host}.

(** The evaluation of a call-free node in [env] gives names to [env]
    and to scopes it opens itself, and to no other environment. *)
Lemma Evaluate_frame fuel : forall node env,
  call_free node = true -> preserves (frame env) (Evaluate fuel node env).
Proof.
  induction fuel as [|fuel IH]; intros node env Hcf; cbn [Evaluate];
    [by apply stable_preserves|].
  destruct node; cbn [call_free] in Hcf; split_call_free;
    try (apply stable_preserves; solve [solve_stable]).
  - by apply evaluateProgram_loop_frame.
  - by apply evaluateArrayLiteral_frame.
  - by apply evaluateObjectLiteral_frame.
  - by apply evaluateBinaryExpression_frame.
  - by apply evaluateUnaryExpression_frame.
  - by apply evaluateAssignmentExpression_frame.
  - by apply evaluateActionAssignmentExpression_frame.
  - done.
  - by apply evaluateMemberExpression_frame.
  - by apply evaluateTernaryExpression_frame.
  - by apply evaluateTypeofExpression_frame.
  - by apply evaluateEqualityExpression_frame.
  - by apply evaluateInequalityExpression_frame.
  - by apply evaluateLogicalExpression_frame.
  - apply evaluateFunctionDeclaration_frame.
  - by apply evaluateIfStatement_frame.
  - by apply evaluateWhileStatement_loop_frame.
  - intros st r st' Hrun. apply frame_fresh.
    eapply evaluateForStatement_frame in Hrun; eauto.
  - apply preserves_bind; [by apply IH|intros v].
    by apply stable_preserves.
  - by apply evaluateDebugStatement_frame.
Qed.
End EvaluateFrame.

(* ===================================================================== *)
(** * The scopes of [if], [while] and [for]                               *)
(* ===================================================================== *)

Section Scopes.
Context `{UnicodeTables} `{FloatLib} `{Host}.

Lemma Evaluate_IfStatement fuel test consequent alternate env :
  Evaluate (S fuel) (IfStatement test consequent alternate) env
  = evaluateIfStatement (Evaluate fuel) test consequent alternate env.
Proof. reflexivity. Qed.

Lemma Evaluate_WhileStatement fuel test consequent env :
  Evaluate (S fuel) (WhileStatement test consequent) env
  = evaluateWhileStatement (Evaluate fuel) fuel test consequent env.
Proof. reflexivity. Qed.

Lemma Evaluate_ForStatement fuel declaration test increaser body env :
  Evaluate (S fuel) (ForStatement declaration test increaser body) env
  = evaluateForStatement (Evaluate fuel) fuel declaration test increaser body env.
Proof. reflexivity. Qed.

Lemma Evaluate_ActionAssignmentExpr fuel assigne value action env :
  Evaluate (S fuel) (ActionAssignmentExpr assigne value action) env
  = evaluateActionAssignmentExpression (Evaluate fuel) assigne value action env.
Proof. reflexivity. Qed.

Lemma varDeclaration_run fuel name value env st v st2 e :
  Evaluate fuel value env st = (Ok v, st2) -> envs st2 !! env = Some e ->
  exists st3,
    Evaluate (S fuel) (varDeclaration name value) env st = (Ok v, st3)
    /\ bound_here st3 env name = Some v
    /\ length (envs st3) = length (envs st2).
Proof.
  intros Hv He.
  destruct (DeclareVar_run st2 env e name v false He) as (st3 & Hd & He3 & Hlen).
  exists st3. split_and!; [|by unfold bound_here; rewrite He3; simpl;
                              rewrite lookup_insert_eq|done].
  unfold varDeclaration. rewrite Evaluate_ActionAssignmentExpr.
  unfold evaluateActionAssignmentExpression. munfold. rewrite Hv.
  cbn [Action_Name String.eqb Ascii.eqb Bool.eqb]. exact Hd.
Qed.

Lemma bound_here_names st l name v : bound_here st l name = Some v -> name ∈ names st l.
Proof.
  unfold bound_here, names. destruct (envs st !! l) as [e|]; [|done]. simpl.
  intros Hv. apply elem_of_dom. by eexists.
Qed.

(** The body of an [if] whose test is truthy is one declaration: the
    variable is bound in the environment of the [if] itself, and the
    statement has opened no scope. *)
Lemma if_declares_in_enclosing fuel test name value alternate env st cond st1 v st2 e :
  Evaluate (S fuel) test env st = (Ok cond, st1) -> IsTruthy st1 cond = true ->
  Evaluate fuel value env st1 = (Ok v, st2) -> envs st2 !! env = Some e ->
  exists r st3,
    Evaluate (S (S fuel)) (IfStatement test [varDeclaration name value] alternate) env st
    = (r, st3)
    /\ bound_here st3 env name = Some v
    /\ length (envs st3) = length (envs st2).
Proof.
  intros Ht Htrue Hv He.
  destruct (varDeclaration_run fuel name value env st1 v st2 e Hv He)
    as (st3 & Hd & Hb & Hlen).
  rewrite Evaluate_IfStatement. unfold evaluateIfStatement, truthy. munfold.
  rewrite Ht, Htrue. cbn [execStatements]. munfold. rewrite Hd.
  destruct v; eauto.
Qed.

(** The same body in a [while] whose test is truthy at least once: after
    the whole statement, however it ends, the variable is among the names
    of the environment of the [while]. *)
Lemma while_declares_in_enclosing fuel test name value env st cond st1 v st2 e r st' :
  call_free test = true -> call_free value = true ->
  Evaluate (S fuel) test env st = (Ok cond, st1) -> IsTruthy st1 cond = true ->
  Evaluate fuel value env st1 = (Ok v, st2) -> envs st2 !! env = Some e ->
  Evaluate (S (S fuel)) (WhileStatement test [varDeclaration name value]) env st
  = (r, st') ->
  name ∈ names st' env.
Proof.
  intros Hct Hcv Ht Htrue Hv He.
  destruct (varDeclaration_run fuel name value env st1 v st2 e Hv He)
    as (st3 & Hd & Hb & Hlen).
  apply bound_here_names in Hb.
  rewrite Evaluate_WhileStatement. unfold evaluateWhileStatement.
  cbn [evaluateWhileStatement_loop]. unfold truthy. munfold.
  rewrite Ht, Htrue. cbn [negb execStatements]. munfold. rewrite Hd.
  assert (Hloop : forall result,
            evaluateWhileStatement_loop (Evaluate (S fuel)) fuel test
              [varDeclaration name value] env result st3 = (r, st') ->
            name ∈ names st' env).
  { intros result Hrun.
    assert (Hcf : forallb call_free [varDeclaration name value] = true)
      by (cbn; by rewrite Hcv).
    pose proof (evaluateWhileStatement_loop_frame (Evaluate (S fuel))
                  (Evaluate_frame (S fuel)) fuel test _ env result Hct Hcf
                  _ _ _ Hrun) as (_ & Hall & _).
    destruct (Hall env) as [_ Hsub]; [|by apply Hsub].
    rewrite Hlen. by eapply lookup_lt_Some. }
  destruct v; intros Hrun; try (by eapply Hloop).
  by simplify_eq.
Qed.

(** A call-free [for] statement, however it ends, leaves every
    environment that existed with exactly the names it had, and its scope
    is one new environment whose parent is the environment of the
    statement. *)
Lemma for_declares_in_own_scope fuel declaration test increaser body env st r st' :
  call_free (ForStatement declaration test increaser body) = true ->
  Evaluate (S fuel) (ForStatement declaration test increaser body) env st = (r, st') ->
  (forall l : loc, (l < length (envs st))%nat -> names st' l = names st l)
  /\ parent <$> envs st' !! length (envs st) = Some (Some env).
Proof.
  intros Hcf Hrun. cbn [call_free] in Hcf. split_call_free.
  rewrite Evaluate_ForStatement in Hrun. split.
  - intros l Hl.
    eapply evaluateForStatement_frame in Hrun as (_ & _ & Hoth);
      eauto using Evaluate_frame.
    apply Hoth; [done|llia].
  - unfold evaluateForStatement in Hrun.
    apply bind_run in Hrun as [(forEnv & st1 & Hnew & Hrun)|(f & Hnew & _)];
      [|by unfold NewEnvironment in Hnew].
    unfold NewEnvironment in Hnew. simplify_eq.
    assert (Hfr : frame (length (envs st))
              (mkState (envs st ++ [mkEnvironment (Some env) ∅ ∅]) (arrays st)
                 (objects st) (ticks st) (stdout st)) st').
    { revert Hrun. apply preserves_bind; [by apply Evaluate_frame|intros _].
      by apply evaluateForStatement_loop_frame; try apply Evaluate_frame. }
    destruct Hfr as (_ & Hall & _).
    destruct (Hall (length (envs st))) as [Hp _];
      [simpl; rewrite length_app; simpl; lia|].
    etrans; [exact Hp|]. simpl. by rewrite list_lookup_middle.
Qed.

(** C6: the bodies of [if] and [while] are evaluated in the environment
    of the statement, so that a variable declared in them is bound in
    that environment and is there after the statement; a [for] statement
    evaluates its header and body in one fresh child environment, so that
    (for a header and body that call no function) no environment that
    existed gains a name.  The three programs show it from the source:
    [y] is visible after the [if] and after the [while], while after the
    [for], which ran three times in one new environment, [z] is undefined
    and the root has no name. *)
Theorem scopes_of_if_while_for :
  (forall fuel test name value alternate env st cond st1 v st2 e,
     Evaluate (S fuel) test env st = (Ok cond, st1) -> IsTruthy st1 cond = true ->
     Evaluate fuel value env st1 = (Ok v, st2) -> envs st2 !! env = Some e ->
     exists r st3,
       Evaluate (S (S fuel)) (IfStatement test [varDeclaration name value] alternate)
         env st = (r, st3)
       /\ bound_here st3 env name = Some v
       /\ length (envs st3) = length (envs st2))
  /\ (forall fuel test name value env st cond st1 v st2 e r st',
        call_free test = true -> call_free value = true ->
        Evaluate (S fuel) test env st = (Ok cond, st1) -> IsTruthy st1 cond = true ->
        Evaluate fuel value env st1 = (Ok v, st2) -> envs st2 !! env = Some e ->
        Evaluate (S (S fuel)) (WhileStatement test [varDeclaration name value]) env st
        = (r, st') ->
        name ∈ names st' env)
  /\ (forall fuel declaration test increaser body env st r st',
        call_free (ForStatement declaration test increaser body) = true ->
        Evaluate (S fuel) (ForStatement declaration test increaser body) env st
        = (r, st') ->
        (forall l : loc, (l < length (envs st))%nat -> names st' l = names st l)
        /\ parent <$> envs st' !! length (envs st) = Some (Some env))
  /\ (forall fuel,
        (Luna_Evaluate (8 + fuel) 0%nat
           ("if 1 { y: var = (7) }" +:+ nl +:+ "y") rootState).1
        = Ok (NumberValue 7))
  /\ (forall fuel,
        (Luna_Evaluate (8 + fuel) 0%nat
           ("i = 0" +:+ nl +:+ "while i < 2 { y: var = (7); i = i + 1 }" +:+ nl +:+ "y")
           rootState).1
        = Ok (NumberValue 7))
  /\ (forall fuel,
        let run := Luna_Evaluate (8 + fuel) 0%nat
                     ("for i = 0; i < 3; i++ { z: var = i }" +:+ nl +:+ "z") rootState in
        run.1 = Ok UndefinedValue
        /\ names run.2 0%nat = ∅
        /\ length (envs run.2) = 2%nat
        /\ bound_here run.2 1%nat "z" = Some (NumberValue 2)).
Proof.
  split_and!.
  - apply if_declares_in_enclosing.
  - apply while_declares_in_enclosing.
  - apply for_declares_in_own_scope.
  - intros fuel. by vm_compute.
  - intros fuel. by vm_compute.
  - intros fuel. by vm_compute.
Qed.
End Scopes.

Lemma scopes_of_if_while_for_witness :
  names (@Evaluate bareFloatLib bareHost 8 countingLoop 0%nat rootState).2 0%nat
  = names rootState 0%nat.
Proof.
  destruct (@scopes_of_if_while_for bareTables bareFloatLib bareHost)
    as (_ & _ & Hfor & _).
  unfold countingLoop.
  refine (proj1 (Hfor 7%nat _ _ _ _ 0%nat rootState _ _ _
                   (surjective_pairing _)) 0%nat _).
  - reflexivity.
  - simpl. lia.
Defined.

(* ===================================================================== *)
(** * Environments: round trips of declaration, assignment and lookup    *)
(* ===================================================================== *)

(** In a well-formed store a chain only goes down to older environments. *)
Lemma in_chain_le st (env c : loc) : wf_store st -> in_chain st env c -> (c <= env)%nat.
Proof.
  intros Hwf. induction 1 as [env|env e p c He Hp _ IH]; [done|].
  pose proof (Hwf _ _ _ He Hp). llia.
Qed.

Lemma in_chain_root st env e c :
  envs st !! env = Some e -> parent e = None -> in_chain st env c -> c = env.
Proof. intros He Hp Hc. inversion Hc; simplify_eq; done. Qed.

Lemma in_chain_step st env e p c :
  envs st !! env = Some e -> parent e = Some p -> in_chain st env c ->
  c = env \/ in_chain st p c.
Proof. intros He Hp Hc. inversion Hc; simplify_eq; auto. Qed.

(** A walk sees only the environments of its chain: it is the same in two
    stores that differ at an environment outside the chain. *)
Lemma walk_avoid {A} (visit : loc -> Environment -> option A) (absent : A)
    st st' (changed : loc) :
  (forall l : loc, l <> changed -> envs st' !! l = envs st !! l) ->
  forall fuel (env : loc), ~ in_chain st env changed ->
    walk fuel st' (Some env) visit absent = walk fuel st (Some env) visit absent.
Proof.
  intros Hsame. induction fuel as [|fuel IH]; intros env Hout; [done|].
  cbn [walk]. rewrite Hsame by (intros ->; apply Hout, chain_here).
  destruct (envs st !! env) as [e|] eqn:He; [|done].
  destruct (visit env e); [done|].
  destruct (parent e) as [p|] eqn:Hp; [|by destruct fuel].
  apply IH. intros Hc. apply Hout. by eapply chain_up.
Qed.

(** A walk is the same in two stores whose environments have the same
    parents and answer the visit alike. *)
Lemma walk_same_visit {A} (visit : loc -> Environment -> option A) (absent : A)
    st st' :
  (forall l : loc,
     match envs st !! l, envs st' !! l with
     | Some e, Some e' => parent e' = parent e /\ visit l e' = visit l e
     | None, None => True
     | _, _ => False
     end) ->
  forall fuel current,
    walk fuel st' current visit absent = walk fuel st current visit absent.
Proof.
  intros Hsame. induction fuel as [|fuel IH]; intros [env|]; try done.
  cbn [walk]. specialize (Hsame env).
  destruct (envs st !! env) as [e|], (envs st' !! env) as [e'|]; try done.
  destruct Hsame as [-> ->]. destruct (visit env e); [done|]. apply IH.
Qed.

(** The environments after a declaration. *)
Lemma DeclareVar_envs st env e name value isConstant :
  envs st !! env = Some e ->
  DeclareVar env name value isConstant st
  = (Ok value,
     (setEnv env
        (mkEnvironment (parent e) (<[name := value]> (variables e))
           (if isConstant then <[name := true]> (constants e) else constants e))
        st).2).
Proof. intros He. unfold DeclareVar. munfold. by rewrite He. Qed.

Lemma setEnv_lookup_ne st (l env : loc) e :
  l <> env -> envs (setEnv env e st).2 !! l = envs st !! l.
Proof. intros Hne. unfold setEnv. simpl. by rewrite list_lookup_insert_ne. Qed.

Lemma setEnv_lookup_eq st (env : loc) e e0 :
  envs st !! env = Some e0 -> envs (setEnv env e st).2 !! env = Some e.
Proof.
  intros He0. unfold setEnv. simpl.
  by rewrite list_lookup_insert_eq by (by eapply lookup_lt_Some).
Qed.

Lemma setEnv_chainBound st env e : chainBound (setEnv env e st).2 = chainBound st.
Proof. unfold chainBound, setEnv. simpl. by rewrite length_insert. Qed.

Lemma setEnv_wf st (env : loc) e e0 :
  wf_store st -> envs st !! env = Some e0 -> parent e = parent e0 ->
  wf_store (setEnv env e st).2.
Proof.
  intros Hwf He0 Hp l e' q Hl Hq.
  destruct (decide (l = env)) as [->|Hne].
  - rewrite (setEnv_lookup_eq _ _ _ _ He0) in Hl. simplify_eq.
    rewrite Hp in Hq. by eapply Hwf.
  - rewrite setEnv_lookup_ne in Hl by done. by eapply Hwf.
Qed.

(** X1: what is declared is what is looked up. *)
Theorem declared_variable_is_looked_up st env e name value isConstant :
  envs st !! env = Some e ->
  exists st',
    DeclareVar env name value isConstant st = (Ok value, st')
    /\ LookupVar env name st' = (Ok value, st')
    /\ HasVar env name st' = (Ok true, st')
    /\ (forall l : loc, l <> env -> envs st' !! l = envs st !! l)
    /\ length (envs st') = length (envs st).
Proof.
  intros He. eexists. split; [by apply DeclareVar_envs|].
  pose proof (setEnv_lookup_eq st env
    (mkEnvironment (parent e) (<[name := value]> (variables e))
       (if isConstant then <[name := true]> (constants e) else constants e)) e He)
    as He'.
  split_and!.
  - eapply LookupVar_here; [exact He'|]. simpl. apply lookup_insert_eq.
  - eapply HasVar_here; [exact He'|]. simpl. apply lookup_insert_eq.
  - intros l Hne. by apply setEnv_lookup_ne.
  - unfold setEnv. simpl. by rewrite length_insert.
Qed.

Lemma declared_variable_is_looked_up_witness :
  exists st',
    DeclareVar 0%nat "x" (NumberValue 1) false rootState = (Ok (NumberValue 1), st')
    /\ LookupVar 0%nat "x" st' = (Ok (NumberValue 1), st')
    /\ HasVar 0%nat "x" st' = (Ok true, st')
    /\ (forall l : loc, l <> 0%nat -> envs st' !! l = envs rootState !! l)
    /\ length (envs st') = length (envs rootState).
Proof.
  apply (declared_variable_is_looked_up rootState 0%nat (mkEnvironment None ∅ ∅)).
  reflexivity.
Defined.

(** X2: a declaration is local. *)
Theorem declaration_is_local st env name value isConstant (env' : loc) name' :
  let st' := (DeclareVar env name value isConstant st).2 in
  (~ in_chain st env' env ->
   (LookupVar env' name' st').1 = (LookupVar env' name' st).1
   /\ (HasVar env' name' st').1 = (HasVar env' name' st).1)
  /\ (name' <> name ->
      (LookupVar env' name' st').1 = (LookupVar env' name' st).1
      /\ (HasVar env' name' st').1 = (HasVar env' name' st).1).
Proof.
  intros st'. subst st'.
  destruct (envs st !! env) as [e|] eqn:He.
  2: { unfold DeclareVar. munfold. rewrite He. simpl. done. }
  rewrite (DeclareVar_envs _ _ _ _ _ _ He). cbn [snd].
  set (e' := mkEnvironment _ _ _).
  split.
  - intros Hout. unfold LookupVar, HasVar. cbn [fst].
    rewrite setEnv_chainBound.
    split; apply walk_avoid with (changed := env); try done;
      intros l Hne; by apply setEnv_lookup_ne.
  - intros Hname. unfold LookupVar, HasVar. cbn [fst].
    rewrite setEnv_chainBound.
    split; apply walk_same_visit; intros l.
    all: destruct (decide (l = env)) as [->|Hne];
      [rewrite (setEnv_lookup_eq _ _ _ _ He), He; subst e'; simpl;
       rewrite lookup_insert_ne by done; done
      |rewrite setEnv_lookup_ne by done; by destruct (envs st !! l)].
Qed.

(** The search of [AssignVar] in a well-formed store: the name is bound
    nowhere in the chain, or the search stops at the nearest environment
    [c] that binds it, and a lookup after the binding of [c] was written
    finds the value written. *)
Lemma walk_assign st name value :
  wf_store st ->
  forall fuel (env : loc), (env < fuel)%nat -> (env < length (envs st))%nat ->
    (walk fuel st (Some env)
       (fun c e => if decide (is_Some (variables e !! name)) then Some (Some c) else None)
       None = Ok None
     /\ unbound st env name)
    \/ (exists (c : loc) ce,
          walk fuel st (Some env)
            (fun c e => if decide (is_Some (variables e !! name)) then Some (Some c)
                        else None)
            None = Ok (Some c)
          /\ envs st !! c = Some ce /\ in_chain st env c
          /\ is_Some (variables ce !! name)
          /\ walk fuel
               (setEnv c (mkEnvironment (parent ce) (<[name := value]> (variables ce))
                            (constants ce)) st).2
               (Some env) (fun _ e => variables e !! name) MakeUndefined
             = Ok value).
Proof.
  intros Hwf. induction fuel as [|fuel IH]; intros env Hfuel Hvalid; [lia|].
  destruct (envs st !! env) as [e|] eqn:He; [|apply lookup_ge_None in He; llia].
  cbn [walk]. rewrite He.
  case_decide as Hbound.
  - right. exists env, e. split_and!; [done|done|apply chain_here|done|].
    rewrite (setEnv_lookup_eq _ _ _ _ He). simpl. by rewrite lookup_insert_eq.
  - assert (Hnone : variables e !! name = None)
      by (destruct (variables e !! name) eqn:Hv; [by destruct Hbound|done]).
    destruct (parent e) as [p|] eqn:Hp.
    + pose proof (Hwf _ _ _ He Hp) as Hlt.
      destruct (IH p) as [[Hw Hun]|(c & ce & Hw & Hce & Hc & Hin & Hlook)];
        [llia|llia| |].
      * left. split; [done|]. intros c e' Hc He'.
        destruct (in_chain_step _ _ _ _ _ He Hp Hc) as [->|Hc']; [by simplify_eq|].
        by eapply Hun.
      * right. exists c, ce. split_and!; [done|done|by eapply chain_up|done|].
        pose proof (in_chain_le _ _ _ Hwf Hc) as Hle.
        rewrite setEnv_lookup_ne by llia. rewrite He, Hnone, Hp. exact Hlook.
    + left. split; [by destruct fuel|]. intros c e' Hc He'.
      rewrite (in_chain_root _ _ _ _ He Hp Hc) in He'. by simplify_eq.
Qed.

Lemma names_setEnv_bound st (c : loc) ce name value l :
  envs st !! c = Some ce -> is_Some (variables ce !! name) ->
  names (setEnv c (mkEnvironment (parent ce) (<[name := value]> (variables ce))
                     (constants ce)) st).2 l
  = names st l.
Proof.
  intros Hce Hin. unfold names. destruct (decide (l = c)) as [->|Hne].
  - rewrite (setEnv_lookup_eq _ _ _ _ Hce), Hce. simpl. rewrite dom_insert_L.
    apply subseteq_union_1_L, singleton_subseteq_l. by apply elem_of_dom.
  - by rewrite setEnv_lookup_ne.
Qed.

(** X3: what is assigned is what is looked up. *)
Theorem assigned_variable_is_looked_up st env e name value :
  wf_store st -> envs st !! env = Some e ->
  default false (constants e !! name) = false ->
  exists st',
    AssignVar env name value st = (Ok value, st')
    /\ LookupVar env name st' = (Ok value, st')
    /\ wf_store st'
    /\ length (envs st') = length (envs st)
    /\ (unbound st env name -> bound_here st' env name = Some value)
    /\ (~ unbound st env name -> forall l : loc, names st' l = names st l).
Proof.
  intros Hwf He Hconst.
  assert (Hvalid : (env < length (envs st))%nat) by (by eapply lookup_lt_Some).
  unfold AssignVar. munfold. rewrite He, Hconst. unfold resolve.
  destruct (walk_assign st name value Hwf (chainBound st) env)
    as [[Hw Hun]|(c & ce & Hw & Hce & Hc & Hin & Hlook)];
    [unfold chainBound; llia|done| |]; rewrite Hw.
  - exists (setEnv env (mkEnvironment (parent e) (<[name := value]> (variables e))
                         (constants e)) st).2.
    split; [done|].
    pose proof (setEnv_lookup_eq st env
      (mkEnvironment (parent e) (<[name := value]> (variables e)) (constants e)) e He)
      as He'.
    split_and!.
    + eapply LookupVar_here; [exact He'|]. simpl. apply lookup_insert_eq.
    + by eapply setEnv_wf.
    + simpl. by rewrite length_insert.
    + intros _. unfold bound_here. rewrite He'. simpl. apply lookup_insert_eq.
    + done.
  - rewrite Hce.
    exists (setEnv c (mkEnvironment (parent ce) (<[name := value]> (variables ce))
                       (constants ce)) st).2.
    split; [done|]. split_and!.
    + unfold LookupVar. rewrite setEnv_chainBound. by rewrite Hlook.
    + by eapply setEnv_wf.
    + simpl. by rewrite length_insert.
    + intros Hun. destruct Hin as [v Hv]. by rewrite (Hun c ce Hc Hce) in Hv.
    + intros _ l. by apply names_setEnv_bound.
Qed.

Lemma assigned_variable_is_looked_up_witness :
  exists st',
    AssignVar 1%nat "x" (NumberValue 2)
      (mkState [mkEnvironment None {["x" := NumberValue 1]} ∅;
                mkEnvironment (Some 0%nat) ∅ ∅] [] [] 0 [])
    = (Ok (NumberValue 2), st')
    /\ LookupVar 1%nat "x" st' = (Ok (NumberValue 2), st')
    /\ wf_store st'
    /\ length (envs st') = 2%nat
    /\ (unbound (mkState [mkEnvironment None {["x" := NumberValue 1]} ∅;
                          mkEnvironment (Some 0%nat) ∅ ∅] [] [] 0 []) 1%nat "x" ->
        bound_here st' 1%nat "x" = Some (NumberValue 2))
    /\ (~ unbound (mkState [mkEnvironment None {["x" := NumberValue 1]} ∅;
                            mkEnvironment (Some 0%nat) ∅ ∅] [] [] 0 []) 1%nat "x" ->
        forall l : loc, names st' l
          = names (mkState [mkEnvironment None {["x" := NumberValue 1]} ∅;
                            mkEnvironment (Some 0%nat) ∅ ∅] [] [] 0 []) l).
Proof.
  apply (assigned_variable_is_looked_up
           (mkState [mkEnvironment None {["x" := NumberValue 1]} ∅;
                     mkEnvironment (Some 0%nat) ∅ ∅] [] [] 0 [])
           1%nat (mkEnvironment (Some 0%nat) ∅ ∅) "x" (NumberValue 2)).
  - intros l e p Hl Hp. destruct l as [|[|l]]; simpl in Hl; simplify_eq; simpl in Hp;
      simplify_eq. lia.
  - reflexivity.
  - reflexivity.
Defined.

Lemma walk_HasVar_bound st name (c : loc) ce :
  wf_store st -> envs st !! c = Some ce -> is_Some (variables ce !! name) ->
  forall fuel (env : loc),
    (env < fuel)%nat -> (env < length (envs st))%nat -> in_chain st env c ->
    walk fuel st (Some env)
      (fun _ e => if decide (is_Some (variables e !! name)) then Some true else None)
      false = Ok true.
Proof.
  intros Hwf Hce Hin. induction fuel as [|fuel IH]; intros env Hfuel Hvalid Hc; [lia|].
  destruct (envs st !! env) as [e|] eqn:He; [|apply lookup_ge_None in He; llia].
  cbn [walk]. rewrite He. case_decide as Hb; [done|].
  destruct (parent e) as [p|] eqn:Hp.
  - destruct (in_chain_step _ _ _ _ _ He Hp Hc) as [->|Hc']; [by simplify_eq|].
    pose proof (Hwf _ _ _ He Hp). apply IH; [llia|llia|done].
  - rewrite (in_chain_root _ _ _ _ He Hp Hc) in Hce. by simplify_eq.
Qed.

(** X4: [HasVar] decides whether the chain binds the name. *)
Theorem HasVar_decides_binding st (env : loc) name :
  wf_store st -> (env < length (envs st))%nat ->
  exists b : bool,
    HasVar env name st = (Ok b, st)
    /\ (b = true <->
        exists c e, in_chain st env c /\ envs st !! c = Some e
                    /\ is_Some (variables e !! name))
    /\ (b = false -> LookupVar env name st = (Ok MakeUndefined, st)).
Proof.
  intros Hwf Hvalid.
  destruct (walk_assign st name MakeUndefined Hwf (chainBound st) env)
    as [[Hw Hun]|(c & ce & Hw & Hce & Hc & Hin & _)];
    [unfold chainBound; llia|done| |].
  - exists false. split_and!.
    + by apply HasVar_unbound.
    + split; [done|]. intros (c & e & Hc & He & [v Hv]).
      by rewrite (Hun c e Hc He) in Hv.
    + intros _. by apply LookupVar_unbound.
  - exists true. split_and!; [|by split; [exists c, ce|]|done].
    unfold HasVar. f_equal.
    eapply walk_HasVar_bound; [done|exact Hce|done|unfold chainBound; llia|done|done].
Qed.

Lemma HasVar_decides_binding_witness :
  exists b : bool,
    HasVar 0%nat "ghost" rootState = (Ok b, rootState)
    /\ (b = true <->
        exists c e, in_chain rootState 0%nat c /\ envs rootState !! c = Some e
                    /\ is_Some (variables e !! "ghost"))
    /\ (b = false -> LookupVar 0%nat "ghost" rootState = (Ok MakeUndefined, rootState)).
Proof.
  apply (HasVar_decides_binding rootState 0%nat "ghost");
    [apply rootState_wf | simpl; lia].
Defined.

(** X5: a declaration overwrites a constant, which stays constant. *)
Theorem redeclared_constant_keeps_its_mark st env e name value isConstant later :
  envs st !! env = Some e -> constants e !! name = Some true ->
  exists st1,
    DeclareVar env name value isConstant st = (Ok value, st1)
    /\ LookupVar env name st1 = (Ok value, st1)
    /\ AssignVar env name later st1 = (Ok later, st1)
    /\ LookupVar env name st1 = (Ok value, st1).
Proof.
  intros He Hc. eexists. split; [by apply DeclareVar_envs|].
  set (e' := mkEnvironment _ _ _).
  pose proof (setEnv_lookup_eq st env e' e He) as He'.
  assert (Hl : LookupVar env name (setEnv env e' st).2 = (Ok value, (setEnv env e' st).2))
    by (eapply LookupVar_here; [exact He'|]; subst e'; simpl; apply lookup_insert_eq).
  split_and!; [done| |done].
  eapply AssignVar_local_constant; [exact He'|]. subst e'. simpl.
  destruct isConstant; [apply lookup_insert_eq|done].
Qed.

Lemma redeclared_constant_keeps_its_mark_witness :
  exists st1,
    DeclareVar 0%nat "x" (NumberValue 2) false shadowStore = (Ok (NumberValue 2), st1)
    /\ LookupVar 0%nat "x" st1 = (Ok (NumberValue 2), st1)
    /\ AssignVar 0%nat "x" (NumberValue 3) st1 = (Ok (NumberValue 3), st1)
    /\ LookupVar 0%nat "x" st1 = (Ok (NumberValue 2), st1).
Proof.
  apply (redeclared_constant_keeps_its_mark shadowStore 0%nat
           (mkEnvironment None {["x" := NumberValue 1]} {["x" := true]})
           "x" (NumberValue 2) false (NumberValue 3)); reflexivity.
Defined.

(* ===================================================================== *)
(** * The lexer: words, order and number of the tokens                   *)
(* ===================================================================== *)

Lemma keywords_keywordTypes w ty : keywords !! w = Some ty -> ty ∈ keywordTypes.
Proof.
  unfold keywords. intros Hin%elem_of_list_to_map_2.
  repeat (apply elem_of_cons in Hin as [Heq|Hin];
          [simplify_eq; unfold keywordTypes; set_solver|]).
  by apply elem_of_nil in Hin.
Qed.

Lemma keywordTypes_not_IDENTIFIER ty : ty ∈ keywordTypes -> ty <> IDENTIFIER.
Proof.
  unfold keywordTypes. intros Hin ->.
  repeat (apply elem_of_cons in Hin as [Heq|Hin]; [discriminate|]).
  by apply elem_of_nil in Hin.
Qed.

(** A token whose type is neither [IDENTIFIER] nor in the keyword table. *)
Lemma lexed_word_other ty value pos :
  ty <> IDENTIFIER -> ty ∉ keywordTypes -> lexed_word (mkToken ty value pos).
Proof. intros Hid Hkw. split; simpl; intros; done. Qed.

Ltac other_type :=
  apply lexed_word_other;
  [ discriminate
  | unfold keywordTypes; intros Hin;
    repeat (apply elem_of_cons in Hin as [Heq|Hin]; [discriminate|]);
    by apply elem_of_nil in Hin ].

Lemma lexed_word_operator op pos : lexed_word (mkToken (getOperatorType op) op pos).
Proof. unfold getOperatorType. repeat case_match; other_type. Qed.

Lemma lexed_word_identifier identifier pos :
  lexed_word (mkToken (default IDENTIFIER (keywords !! identifier)) identifier pos).
Proof.
  destruct (keywords !! identifier) as [ty|] eqn:Hk; simpl.
  - pose proof (keywords_keywordTypes _ _ Hk) as Hty.
    split; simpl; [|done]. intros ->. by apply keywordTypes_not_IDENTIFIER in Hty.
  - split; simpl; [done|]. intros Hin. by apply keywordTypes_not_IDENTIFIER in Hin.
Qed.

Section LexerSteps.
Context `{UnicodeTables}.

(** One iteration of [Tokenize] appends nothing, or one token: a typed
    word at the position where the iteration started. *)
Lemma Tokenize_step_token n t tokens out t' :
  Tokenize_step n t tokens = Some (NoErr out, t') ->
  out = tokens
  \/ exists k, out = tokens ++ [k] /\ Token_Position k = here t /\ lexed_word k.
Proof.
  intros Hstep. unfold Tokenize_step, single in Hstep.
  repeat first
    [ progress simplify_option_eq
    | match goal with p : (_ * _)%type |- _ => destruct p end
    | case_match ].
  all: try (left; reflexivity).
  all: right; eexists; split_and!; [reflexivity|reflexivity|].
  all: try other_type.
  all: auto using lexed_word_operator, lexed_word_identifier.
Qed.

Lemma in_source_order_cons k mid :
  Forall (fun k' => (Index (Token_Position k) < Index (Token_Position k'))%nat) mid ->
  in_source_order mid -> in_source_order (k :: mid).
Proof.
  intros Hlt Hmid i j a b Hij Hi Hj.
  destruct j as [|j]; [lia|]. simpl in Hj.
  destruct i as [|i]; simpl in Hi.
  - simplify_eq. rewrite Forall_forall in Hlt. apply Hlt.
    by eapply list_elem_of_lookup_2.
  - apply (Hmid i j); [lia|done|done].
Qed.

Lemma in_source_order_nil : in_source_order [].
Proof. intros i j a b _ Hi. by rewrite lookup_nil in Hi. Qed.

(** The tokens that the loop of [Tokenize] appends from the state [t]:
    typed words, in the order of the source at offsets from the position
    of [t] to the end of the input, one per rune at most and the
    end-of-stream token. *)
Lemma Tokenize_loop_tokens fuel : forall t tokens out,
  (position t <= length (input t))%nat ->
  Tokenize_loop fuel t tokens = Some (NoErr out) ->
  exists mid,
    out = tokens ++ mid
    /\ Forall lexed_word mid
    /\ in_source_order mid
    /\ Forall (fun k => (position t <= Index (Token_Position k) <= length (input t))%nat)
         mid
    /\ (length mid + position t <= S (length (input t)))%nat.
Proof.
  assert (Hend : forall t : Tokenizer,
            (position t <= length (input t))%nat ->
            (length (input t) <= position t)%nat ->
            forall tokens, exists mid,
              tokens ++ [mkToken EOF "" (here t)] = tokens ++ mid
              /\ Forall lexed_word mid /\ in_source_order mid
              /\ Forall (fun k => (position t <= Index (Token_Position k)
                                   <= length (input t))%nat) mid
              /\ (length mid + position t <= S (length (input t)))%nat).
  { intros t Hle Hge tokens. exists [mkToken EOF "" (here t)]. split_and!.
    - done.
    - constructor; [other_type|done].
    - apply in_source_order_cons; [done|apply in_source_order_nil].
    - constructor; [simpl; lia|done].
    - simpl. lia. }
  induction fuel as [|fuel IH]; intros t tokens out Hle Hrun; simpl in Hrun;
    loop_head Hlt; simplify_eq; [by apply Hend| |by apply Hend].
  destruct (Tokenize_step _ t tokens) as [[[tokens'|msg] t']|] eqn:Hstep;
    simplify_eq/=.
  destruct (Tokenize_step_spec _ _ _ _ _ Hlt Hstep) as ((Hin & _ & Hle') & Hpos & _).
  destruct (IH _ _ _ Hle' Hrun) as (mid & -> & Hwords & Hord & Hidx & Hlen).
  rewrite Hin in *.
  assert (Hidx' : Forall (fun k => (position t <= Index (Token_Position k)
                                    <= length (input t))%nat) mid)
    by (eapply Forall_impl; [exact Hidx|]; simpl; intros; lia).
  destruct (Tokenize_step_token _ _ _ _ _ Hstep) as [->|(k & -> & Hk & Hword)].
  - exists mid. split_and!; [done|done|done|done|lia].
  - exists (k :: mid). rewrite <- app_assoc. split_and!.
    + done.
    + by constructor.
    + apply in_source_order_cons; [|done].
      eapply Forall_impl; [exact Hidx|]. simpl. intros k' Hk'. rewrite Hk. simpl. lia.
    + constructor; [rewrite Hk; simpl; lia|done].
    + simpl. lia.
Qed.

(** X6: the lexer terminates, with at most one token per rune. *)
Theorem Tokenize_terminates (code : string) :
  exists r : goerror (list Token),
    Luna_Tokenize code = Some r
    /\ forall tokens, r = NoErr tokens ->
         (1 <= length tokens <= S (length (runes_of_string code)))%nat.
Proof.
  destruct (Tokenize_total code) as [r Hr]. exists r. split; [done|].
  intros tokens ->. unfold Luna_Tokenize, Tokenize in Hr. pose proof Hr as Hr'.
  apply Tokenize_loop_tokens in Hr as (mid & Hout & _ & _ & _ & Hlen); [|simpl; lia].
  apply Tokenize_loop_spec in Hr' as (m & pos & Hm & _); [|simpl; lia].
  simpl in Hout, Hlen, Hm. subst mid. split; [|lia].
  rewrite Hm, length_app. simpl. lia.
Qed.

(** X7: identifiers and keywords are told apart by the keyword table. *)
Theorem Tokenize_types_words (code : string) (tokens : list Token) :
  Luna_Tokenize code = Some (NoErr tokens) ->
  Forall lexed_word tokens.
Proof.
  intros Hr. unfold Luna_Tokenize, Tokenize in Hr.
  apply Tokenize_loop_tokens in Hr as (mid & -> & Hwords & _); [|simpl; lia].
  done.
Qed.

(** X8: the tokens are in the order of the source. *)
Theorem Tokenize_keeps_source_order (code : string) (tokens : list Token) :
  Luna_Tokenize code = Some (NoErr tokens) ->
  in_source_order tokens
  /\ Forall (fun k => (Index (Token_Position k) <= length (runes_of_string code))%nat)
       tokens.
Proof.
  intros Hr. unfold Luna_Tokenize, Tokenize in Hr.
  apply Tokenize_loop_tokens in Hr as (mid & -> & _ & Hord & Hidx & _); [|simpl; lia].
  split; [done|]. eapply Forall_impl; [exact Hidx|]. simpl. intros; lia.
Qed.
End LexerSteps.

Lemma Tokenize_types_words_witness :
  Forall lexed_word
    [mkToken IF "if" (mkPosition 0 0 0); mkToken IDENTIFIER "iff" (mkPosition 0 3 3);
     mkToken EOF "" (mkPosition 0 6 6)].
Proof.
  apply (@Tokenize_types_words bareTables "if iff"). vm_compute. reflexivity.
Defined.

Lemma Tokenize_keeps_source_order_witness :
  in_source_order
    [mkToken IF "if" (mkPosition 0 0 0); mkToken IDENTIFIER "iff" (mkPosition 0 3 3);
     mkToken EOF "" (mkPosition 0 6 6)]
  /\ Forall (fun k => (Index (Token_Position k) <= length (runes_of_string "if iff"))%nat)
       [mkToken IF "if" (mkPosition 0 0 0); mkToken IDENTIFIER "iff" (mkPosition 0 3 3);
        mkToken EOF "" (mkPosition 0 6 6)].
Proof.
  apply (@Tokenize_keeps_source_order bareTables "if iff"). vm_compute. reflexivity.
Defined.

(* ===================================================================== *)
(** * The lexer: comments and strings that do not end                    *)
(* ===================================================================== *)

Lemma current_nth t :
  (position t < length (input t))%nat -> current t = nth (position t) (input t) 0.
Proof. intros Hlt%Nat.ltb_lt. unfold current. by rewrite Hlt. Qed.

Lemma advance_fields t :
  (position t < length (input t))%nat ->
  advance t = mkTokenizer (input t) (S (position t)) (line t) (S (index t)).
Proof. intros Hlt%Nat.ltb_lt. unfold advance. by rewrite Hlt. Qed.

Section LexerEnds.
Context `{UnicodeTables}.

(** A comment without a newline is skipped up to the end of the input. *)
Lemma skipComment_to_end fuel : forall t,
  (position t <= length (input t))%nat -> (remaining t <= fuel)%nat ->
  (forall i, (position t <= i < length (input t))%nat ->
             nth i (input t) 0 <> rn "010") ->
  skipComment fuel t
  = Some (mkTokenizer (input t) (length (input t)) (line t) (index t + remaining t)).
Proof.
  induction fuel as [|fuel IH]; intros t Hle Hfuel Hnl; simpl; loop_head Hlt; simpl.
  - unfold remaining in Hfuel. lia.
  - destruct t as [inp pos ln idx]. unfold remaining in *. simpl in *.
    repeat f_equal; lia.
  - rewrite current_nth by done.
    destruct (nth (position t) (input t) 0 =? rn "010") eqn:Hc.
    { apply Z.eqb_eq in Hc. by apply Hnl in Hc; [|lia]. }
    simpl. rewrite advance_fields by done.
    rewrite IH; simpl; [|lia|unfold remaining in *; simpl; lia|intros; apply Hnl; lia].
    unfold remaining. simpl. repeat f_equal; lia.
  - destruct t as [inp pos ln idx]. unfold remaining in *. simpl in *.
    repeat f_equal; lia.
Qed.

Lemma Tokenize_loop_end fuel t tokens :
  (length (input t) <= position t)%nat ->
  Tokenize_loop fuel t tokens = Some (NoErr (tokens ++ [mkToken EOF "" (here t)])).
Proof.
  intros Hge%Nat.ltb_ge. destruct fuel; simpl; by rewrite Hge.
Qed.

(** X9: a comment yields no token. *)
Theorem comment_yields_no_token (code : string) (rs : list rune) :
  runes_of_string code = rn "#" :: rs ->
  Forall (fun r => r <> rn "010") rs ->
  Luna_Tokenize code
  = Some (NoErr [mkToken EOF "" (mkPosition 0 (S (length rs)) (S (length rs)))]).
Proof.
  intros Hcode Hnl. unfold Luna_Tokenize, Tokenize, NewTokenizer. rewrite Hcode.
  cbn [length input Tokenize_loop position Nat.ltb Nat.leb].
  unfold Tokenize_step.
  change (current (mkTokenizer (rn "#" :: rs) 0 0 0)) with (rn "#").
  change (rn "#" =? rn "010") with false.
  change (unicode_IsSpace (rn "#")) with false.
  change (rn "#" =? rn "#") with true. cbv iota.
  rewrite skipComment_to_end; simpl.
  - rewrite Tokenize_loop_end by (simpl; lia). done.
  - lia.
  - unfold remaining. simpl. lia.
  - intros [|i] Hi; simpl; [done|].
    rewrite Forall_forall in Hnl. apply Hnl. apply list_elem_of_In, nth_In. lia.
Qed.

(** A string reader that meets no quote reaches the end of the input. *)
Lemma readString_loop_unterminated quote fuel : forall t result escaped,
  (remaining t <= fuel)%nat ->
  (forall i, (position t <= i < length (input t))%nat ->
             nth i (input t) 0 <> quote) ->
  exists t', readString_loop fuel quote t result escaped
             = Some (Err "unterminated string", t').
Proof.
  induction fuel as [|fuel IH]; intros t result escaped Hfuel Hq; simpl;
    loop_head Hlt; try (by eexists); try (unfold remaining in Hfuel; lia).
  assert (Hrem : (remaining (advance t) <= fuel)%nat)
    by (rewrite remaining_advance by done; lia).
  assert (Hq' : forall i, (position (advance t) <= i < length (input (advance t)))%nat ->
                          nth i (input (advance t)) 0 <> quote).
  { rewrite advance_fields by done. simpl. intros i Hi. apply Hq. lia. }
  destruct escaped; [by apply IH|].
  destruct (current t =? rn "\"); [by apply IH|].
  destruct (current t =? quote) eqn:Hc; [|by apply IH].
  apply Z.eqb_eq in Hc. rewrite current_nth in Hc by done.
  by apply Hq in Hc; [|lia].
Qed.

(** X10: a string that is not closed is a lexical error. *)
Theorem unterminated_string_is_an_error (code : string) (quote : rune)
    (rs : list rune) :
  runes_of_string code = quote :: rs ->
  isQuote quote = true ->
  Forall (fun r => r <> quote) rs ->
  Luna_Tokenize code = Some (Err "unterminated string").
Proof.
  intros Hcode Hquote Hq. unfold Luna_Tokenize, Tokenize, NewTokenizer. rewrite Hcode.
  cbn [length input Tokenize_loop position Nat.ltb Nat.leb].
  unfold Tokenize_step, readString.
  change (current (mkTokenizer (quote :: rs) 0 0 0)) with quote.
  destruct (readString_loop_unterminated quote (S (length rs))
              (advance (mkTokenizer (quote :: rs) 0 0 0)) "" false)
    as [t' Hread].
  - rewrite remaining_advance by (simpl; lia). unfold remaining. simpl. lia.
  - rewrite advance_fields by (simpl; lia). simpl. intros [|i] Hi; [lia|]. simpl.
    rewrite Forall_forall in Hq. apply Hq. apply list_elem_of_In, nth_In. lia.
  - simpl in Hread. unfold isQuote in Hquote.
    apply orb_true_iff in Hquote as [->%Z.eqb_eq| ->%Z.eqb_eq].
    + change (rn dquote =? rn "010") with false.
      change (unicode_IsSpace (rn dquote)) with false.
      change (rn dquote =? rn "#") with false.
      change (rn dquote =? rn dquote) with true. cbv iota. simpl.
      simpl in Hread. by rewrite Hread.
    + change (rn "'" =? rn "010") with false.
      change (unicode_IsSpace (rn "'")) with false.
      change (rn "'" =? rn "#") with false.
      change (rn "'" =? rn dquote) with false.
      change (rn "'" =? rn "'") with true. cbv iota. simpl.
      simpl in Hread. by rewrite Hread.
Qed.
End LexerEnds.

Lemma comment_yields_no_token_witness :
  @Luna_Tokenize bareTables "# note"
  = Some (NoErr [mkToken EOF "" (mkPosition 0 6 6)]).
Proof.
  apply (@comment_yields_no_token bareTables "# note"
           [rn " "; rn "n"; rn "o"; rn "t"; rn "e"]).
  - reflexivity.
  - repeat constructor; discriminate.
Defined.

Lemma unterminated_string_is_an_error_witness :
  @Luna_Tokenize bareTables "'abc" = Some (Err "unterminated string").
Proof.
  apply (@unterminated_string_is_an_error bareTables "'abc" (rn "'")
           [rn "a"; rn "b"; rn "c"]).
  - reflexivity.
  - reflexivity.
  - repeat constructor; discriminate.
Defined.

(* ===================================================================== *)
(** * The parser: binary levels, signs and the end of the input          *)
(* ===================================================================== *)

Lemma binaryLoop_step accepts operand mk n left p right p' :
  accepts (at_ p) = true -> operand (after_eat p) = POk right p' ->
  binaryLoop accepts operand mk (S n) left p
  = binaryLoop accepts operand mk n (mk left right (Token_Value (at_ p))) p'.
Proof.
  intros Hacc Hop. cbn [binaryLoop]. rewrite Hacc.
  unfold mbind, PM_bind, eat. fold (after_eat p). by rewrite Hop.
Qed.

Lemma binaryLoop_stop accepts operand mk n left p :
  accepts (at_ p) = false -> binaryLoop accepts operand mk n left p = POk left p.
Proof. intros Hacc. destruct n; cbn [binaryLoop]; by rewrite Hacc. Qed.

(** The token at hand beyond the last token is an end-of-stream token
    without text. *)
Lemma at_accepted accepts p :
  accepts (mkToken EOF "" (mkPosition 0 0 0)) = false -> accepts (at_ p) = true ->
  (1 <= length (Parser_tokens p))%nat.
Proof.
  intros Hdefault Hacc. unfold at_ in Hacc.
  destruct (Parser_tokens p !! Parser_position p) as [tok|] eqn:Htok.
  - apply lookup_lt_Some in Htok. lia.
  - simpl in Hacc. congruence.
Qed.

Lemma binaryLevel_left_associative accepts operand mk :
  accepts (mkToken EOF "" (mkPosition 0 0 0)) = false ->
  left_associative (binaryLevel accepts operand mk) operand accepts mk.
Proof.
  intros Hdefault p a p1 b p2 c p3 Ha Hacc1 Hb Hacc2 Hc Hacc3.
  unfold binaryLevel, mbind, PM_bind. rewrite Ha. unfold withBound, loopBound.
  pose proof (at_accepted _ _ Hdefault Hacc1) as Hlen.
  destruct (length (Parser_tokens p1)) as [|n]; [lia|].
  rewrite (binaryLoop_step _ _ _ _ _ _ _ _ Hacc1 Hb).
  rewrite (binaryLoop_step _ _ _ _ _ _ _ _ Hacc2 Hc).
  by apply binaryLoop_stop.
Qed.

Section BinaryLevels.
Context `{UnicodeTables} `{FloatLib}.

(** X12: the five binary levels associate to the left. *)
Theorem binary_levels_associate_to_the_left :
  (forall rec,
     left_associative (parseMultiplicativeExpression rec) (parseUnaryExpression rec)
       (fun tok => existsb (String.eqb (Token_Value tok)) ["*"; "/"; "%"; "**"])
       BinaryExpr
     /\ left_associative (parseAdditiveExpression rec)
          (parseMultiplicativeExpression rec)
          (fun tok => existsb (String.eqb (Token_Value tok)) ["+"; "-"])
          BinaryExpr
     /\ left_associative (parseInequalityExpression rec) (parseAdditiveExpression rec)
          (fun tok => existsb (is_tt (Token_Type tok))
             [SMALLER_THAN; GREATER_THAN; SMALLER_OR_EQUAL; GREATER_OR_EQUAL])
          InequalityExpr
     /\ left_associative (parseEqualityExpression rec) (parseInequalityExpression rec)
          (fun tok => existsb (is_tt (Token_Type tok)) [EQUALITY_OP; INEQUALITY_OP])
          EqualityExpr
     /\ left_associative (parseLogicalExpression rec) (parseEqualityExpression rec)
          (fun tok => existsb (is_tt (Token_Type tok)) [AND; OR])
          LogicalExpr)
  /\ (forall fuel,
        parseSource (7 + fuel) "a - b - c"
        = Some (Program [BinaryExpr (BinaryExpr (Identifier "a") (Identifier "b") "-")
                           (Identifier "c") "-"]))
  /\ (forall fuel,
        parseSource (7 + fuel) "2 * 3 ** 2"
        = Some (Program [BinaryExpr (BinaryExpr (NumericLiteral 2) (NumericLiteral 3) "*")
                           (NumericLiteral 2) "**"])).
Proof.
  split_and!.
  - intros rec. split_and!; by apply binaryLevel_left_associative.
  - intros fuel. by vm_compute.
  - intros fuel. by vm_compute.
Qed.

(** X13: a sign is recognised by the text of the token. *)
Theorem sign_is_recognised_by_its_text :
  (forall rec n p v p',
     Token_Value (at_ p) = "+" \/ Token_Value (at_ p) = "-" ->
     parseUnaryExpression_from rec n (after_eat p) = POk v p' ->
     parseUnaryExpression_from rec (S n) p
     = POk (UnaryExpr v (Token_Value (at_ p))) p')
  /\ (forall fuel,
        parseSource (7 + fuel) "'-' 5" = Some (Program [UnaryExpr (NumericLiteral 5) "-"]))
  /\ (forall fuel tokens,
        Luna_Tokenize "x = '+'" = Some (NoErr tokens) ->
        Luna_Parse (7 + fuel) tokens = PErr "unexpected token: ").
Proof.
  split_and!.
  - intros rec n p v p' Hsign Hv. cbn [parseUnaryExpression_from].
    assert (Hor : is_tt (Token_Type (at_ p)) NEGATION_OP
                  || String.eqb (Token_Value (at_ p)) "+"
                  || String.eqb (Token_Value (at_ p)) "-"
                  || is_tt (Token_Type (at_ p)) INCREMENT
                  || is_tt (Token_Type (at_ p)) DECREMENT = true).
    { destruct Hsign as [-> | ->]; simpl;
        by rewrite ?orb_true_r, ?orb_true_l. }
    rewrite Hor. unfold mbind, PM_bind, eat, mret, PM_ret. fold (after_eat p).
    by rewrite Hv.
  - intros fuel. by vm_compute.
  - intros fuel tokens Htokens. vm_compute in Htokens. simplify_eq. by vm_compute.
Qed.

(** The loop of [ProduceAST] returns a program, at an end-of-stream token. *)
Lemma ProduceAST_loop_end fuel n : forall body p ast p',
  ProduceAST_loop fuel n body p = POk ast p' ->
  (exists body', ast = Program body') /\ Token_Type (at_ p') = EOF.
Proof.
  induction n as [|n IH]; intros body p ast p' Hrun; cbn [ProduceAST_loop] in Hrun.
  - destruct (negb (isEOF p)) eqn:Heof; [done|]. simplify_eq.
    split; [by eexists|]. unfold isEOF, is_tt in Heof.
    apply negb_false_iff in Heof. by apply bool_decide_eq_true in Heof.
  - destruct (negb (isEOF p)) eqn:Heof.
    + unfold mbind, PM_bind in Hrun.
      destruct (parseStatement (parser_rec fuel) p) as [stmt p1|msg|]; [|done..].
      by eapply IH.
    + simplify_eq. split; [by eexists|]. unfold isEOF, is_tt in Heof.
      apply negb_false_iff in Heof. by apply bool_decide_eq_true in Heof.
Qed.

(** X14: a successful parse is a program and stops at the end of the
    input. *)
Theorem successful_parse_reaches_the_end fuel tokens ast p :
  Luna_Parse fuel tokens = POk ast p ->
  (exists body, ast = Program body) /\ Token_Type (at_ p) = EOF.
Proof.
  unfold Luna_Parse, ProduceAST, withBound. intros Hrun.
  by eapply ProduceAST_loop_end.
Qed.
End BinaryLevels.

Lemma successful_parse_reaches_the_end_witness :
  (exists body, Program [NumericLiteral 1] = Program body)
  /\ Token_Type (at_ (mkParser [mkToken INT "1" (mkPosition 0 0 0);
                                 mkToken EOF "" (mkPosition 0 1 1)] 1 "")) = EOF.
Proof.
  apply (@successful_parse_reaches_the_end bareFloatLib 3
           [mkToken INT "1" (mkPosition 0 0 0); mkToken EOF "" (mkPosition 0 1 1)]).
  vm_compute. reflexivity.
Defined.

(* ===================================================================== *)
(** * The evaluator: programs, returns and calls                          *)
(* ===================================================================== *)

Section Statements.
Context `{UnicodeTables} `{FloatLib} `{Host}.
Variable E : Statement -> loc -> M RuntimeValue.

Lemma evaluateProgram_loop_app body last env : forall v0 st,
  evaluateProgram_loop E (body ++ [last]) env v0 st
  = match evaluateProgram_loop E body env v0 st with
    | (Ok _, st1) => E last env st1
    | (Fail f, st1) => (Fail f, st1)
    end.
Proof.
  induction body as [|s body IH]; intros v0 st; cbn [app evaluateProgram_loop]; munfold.
  - by destruct (E last env st) as [[]].
  - destruct (E s env st) as [[r|f] st1]; [apply IH|done].
Qed.

(** X16: the value of a program is the value of its last statement. *)
Theorem program_value_is_that_of_its_last_statement :
  (forall env st, evaluateProgram E [] env st = (Ok MakeVoid, st))
  /\ (forall body last env st,
        evaluateProgram E (body ++ [last]) env st
        = match evaluateProgram E body env st with
          | (Ok _, st1) => E last env st1
          | (Fail f, st1) => (Fail f, st1)
          end)
  /\ (forall fuel env st,
        Luna_Evaluate (5 + fuel) env ("return 1" +:+ nl +:+ "2") st
        = (Ok (NumberValue 2), st)).
Proof.
  split_and!.
  - done.
  - intros body last env st. unfold evaluateProgram. apply evaluateProgram_loop_app.
  - intros fuel env st. by vm_compute.
Qed.

Lemma execStatements_return pre stmt post env : forall result st r0 st1 val st2,
  execStatements E pre env result st = (Ok (Completed r0), st1) ->
  E stmt env st1 = (Ok (ReturnValue val), st2) ->
  execStatements E (pre ++ stmt :: post) env result st
  = (Ok (Returned (ReturnValue val)), st2).
Proof.
  induction pre as [|s pre IH]; intros result st r0 st1 val st2 Hpre Hs;
    cbn [app execStatements] in *; munfold.
  - simplify_eq. by rewrite Hs.
  - destruct (E s env st) as [[r|f] st'] eqn:Hr; [|done].
    destruct r; try (by eapply IH); done.
Qed.

(** X17: a return-signal ends the call. *)
Theorem return_ends_the_call :
  (forall name parameters pre stmt post declarationEnv export anonymous args env st
          fnEnv st0 st1 result st2 value st3,
     NewEnvironment (Some declarationEnv) st = (Ok fnEnv, st0) ->
     bindParameters E parameters 0 args declarationEnv fnEnv st0 = (Ok tt, st1) ->
     execStatements E pre fnEnv MakeVoid st1 = (Ok (Completed result), st2) ->
     E stmt fnEnv st2 = (Ok (ReturnValue value), st3) ->
     callFunction E
       (FunctionValue name parameters (pre ++ stmt :: post) declarationEnv export
          anonymous)
       args env st
     = (Ok value, st3))
  /\ (forall test pre stmt post alternate env st cond st1 result st2 value st3,
        E test env st = (Ok cond, st1) -> IsTruthy st1 cond = true ->
        execStatements E pre env MakeVoid st1 = (Ok (Completed result), st2) ->
        E stmt env st2 = (Ok (ReturnValue value), st3) ->
        evaluateIfStatement E test (pre ++ stmt :: post) alternate env st
        = (Ok (ReturnValue value), st3))
  /\ (forall fuel,
        (Luna_Evaluate (9 + fuel) 0%nat
           ("fn f { if true { return 1 }" +:+ nl +:+ "2 }" +:+ nl +:+ "f()")
           rootState).1
        = Ok (NumberValue 1)).
Proof.
  split_and!.
  - intros * Hnew Hbind Hpre Hstmt. unfold callFunction. munfold.
    rewrite Hnew, Hbind.
    by rewrite (execStatements_return _ _ _ _ _ _ _ _ _ _ Hpre Hstmt).
  - intros * Htest Htruthy Hpre Hstmt.
    unfold evaluateIfStatement, truthy. munfold. rewrite Htest, Htruthy.
    by rewrite (execStatements_return _ _ _ _ _ _ _ _ _ _ Hpre Hstmt).
  - intros fuel. by vm_compute.
Qed.
End Statements.
